(** * Chow ring ideals of matroids

    A shallow embedding of [sage/matroids/chow_ring_ideal.py]: the three
    ideal classes [ChowRingIdeal_nonaug], [AugmentedChowRingIdeal_fy] and
    [AugmentedChowRingIdeal_atom_free], their constructors, their generator
    lists and their closed-form Groebner bases.

    Python exceptions are carried by the [result] monad, dictionaries are
    insertion-ordered association lists, frozensets are [gset]s, and the
    collaborators of the module (the matroid, the polynomial ring, the poset
    of flats, the generic ideal machinery) are interfaces. *)

From stdpp Require Import gmap gmultiset strings list fin_maps pretty sorting.

Open Scope Z_scope.
Open Scope nat_scope.

(** ** Exceptions *)

Inductive exn := ValueError | KeyError | IndexError.

Inductive result (A : Type) : Type :=
  | Ok (a : A)
  | Raise (e : exn).
Arguments Ok {A} a.
Arguments Raise {A} e.

#[global] Instance result_ret : MRet result := λ A a, Ok a.
#[global] Instance result_bind : MBind result := λ A B f m,
  match m with
  | Ok a => f a
  | Raise e => Raise e
  end.

(** [for a in l: s = f(s, a)], where the body may raise. *)
Fixpoint foldM {A S : Type} (f : S → A → result S) (s : S) (l : list A)
  : result S :=
  match l with
  | [] => Ok s
  | a :: l' => s' ← f s a; foldM f s' l'
  end.

(** [try: m  except ValueError: h] *)
Definition try_except_ValueError {A : Type} (m h : result A) : result A :=
  match m with
  | Raise ValueError => h
  | _ => m
  end.

(** ** Python dictionaries

    A [dict] keeps its keys in insertion order; assigning to a key that is
    already present replaces the value and keeps the key where it is. *)

Section dict.
Context {K V : Type} `{EqDecision K}.

Definition dict := list (K * V).

Fixpoint dict_get (d : dict) (k : K) : result V :=
  match d with
  | [] => Raise KeyError
  | (k', v) :: d' => if decide (k' = k) then Ok v else dict_get d' k
  end.

Fixpoint dict_set (d : dict) (k : K) (v : V) : dict :=
  match d with
  | [] => [(k, v)]
  | (k', v') :: d' =>
      if decide (k' = k) then (k', v) :: d' else (k', v') :: dict_set d' k v
  end.

(** [dict(pairs)] and [{k: f(k) for k in ks}] *)
Definition dict_of_list (kvs : list (K * V)) : dict :=
  fold_left (λ d kv, dict_set d kv.1 kv.2) kvs [].

Definition dict_keys (d : dict) : list K := d.*1.
Definition dict_values (d : dict) : list V := d.*2.
End dict.
Arguments dict : clear implicits.

(** [sorted(l, key=key)]: a stable sort on a natural-number key. *)
Fixpoint insert_by_key {A : Type} (key : A → nat) (x : A) (l : list A)
  : list A :=
  match l with
  | [] => [x]
  | y :: l' =>
      if decide (key x ≤ key y) then x :: l else y :: insert_by_key key x l'
  end.

Definition sorted {A : Type} (key : A → nat) (l : list A) : list A :=
  foldr (insert_by_key key) [] l.

(** [l[i]] on a tuple or list. *)
Definition getitem {A : Type} (l : list A) (i : nat) : result A :=
  match l !! i with
  | Some a => Ok a
  | None => Raise IndexError
  end.

(** ** The polynomial ring collaborator

    The elements of a polynomial ring over the coefficient ring [R], with
    the operations the module uses: [zero()], [one()], [+], [*], [**] with
    an integer exponent, equality, and the indeterminates, numbered as
    [gens()] lists them. *)

Class PolyRing := {
  poly : Type;
  poly_eq_dec :: EqDecision poly;
  zero : poly;
  one : poly;
  add : poly → poly → poly;
  mul : poly → poly → poly;
  pow : poly → Z → poly;
  gen : nat → poly;
}.

Declare Scope poly_scope.
Delimit Scope poly_scope with P.
Bind Scope poly_scope with poly.
Infix "+" := add : poly_scope.
Infix "*" := mul : poly_scope.
Infix "^" := pow : poly_scope.

(** The ring laws that the statements below rely on. *)
Class PolyRingLaws (PR : PolyRing) : Prop := {
  add_0_l : ∀ p : poly, (zero + p)%P = p;
  add_0_r : ∀ p : poly, (p + zero)%P = p;
  mul_0_l : ∀ p : poly, (zero * p)%P = zero;
  mul_0_r : ∀ p : poly, (p * zero)%P = zero;
  mul_1_l : ∀ p : poly, (one * p)%P = p;
  pow_1 : ∀ p : poly, (p ^ 1%Z)%P = p;
  pow_2 : ∀ p : poly, (p ^ 2%Z)%P = (p * p)%P;
}.

(** The unit laws: multiplying by [one] on the right, and the power 0. *)
Class PolyRingUnitLaws (PR : PolyRing) : Prop := {
  mul_1_r : ∀ p : poly, (p * one)%P = p;
  pow_0 : ∀ p : poly, (p ^ 0%Z)%P = one;
}.

(** Evaluating the indeterminates at 0 and 1. [eval01 v] is the ring
    homomorphism that sends the [i]-th indeterminate to [one] when [v i]
    holds and to [zero] otherwise, and every constant to itself; every
    polynomial ring has it. *)
Class PolyRingEval (PR : PolyRing) := {
  eval01 : (nat → bool) → poly → poly;
  eval01_zero : ∀ v, eval01 v zero = zero;
  eval01_add : ∀ v (p q : poly), eval01 v (p + q)%P = (eval01 v p + eval01 v q)%P;
  eval01_mul : ∀ v (p q : poly), eval01 v (p * q)%P = (eval01 v p * eval01 v q)%P;
  eval01_gen : ∀ v i, eval01 v (gen i) = if v i : bool then one else zero;
}.

(** A ring object as [PolynomialRing] returns it: it is known by the names
    of its indeterminates; [gens()] lists one indeterminate per name. *)
Record MPolynomialRing := { variable_names : list string }.

Definition ngens (S : MPolynomialRing) : nat := length (variable_names S).

Definition gens `{PolyRing} (S : MPolynomialRing) : list poly :=
  gen <$> seq 0 (ngens S).

(** [term = zero; for x in l: term += x] *)
Definition psum `{PolyRing} (l : list poly) : poly := fold_left add l zero.

(** ** The matroid collaborator

    [groundset] is [list(M.groundset())], [rank X] is [M.rank(X)] and
    [flats i] is [M.flats(i)] in iteration order; flats are frozensets. *)

Record Matroid (E : Type) `{Countable E} := {
  groundset : list E;
  rank : gset E → nat;
  flats : nat → list (gset E);
}.
Arguments groundset {E _ _} _.
Arguments rank {E _ _} _ _.
Arguments flats {E _ _} _ _.

(** [M.rank()] *)
Definition full_rank {E} `{Countable E} (M : Matroid E) : nat :=
  rank M (list_to_set (groundset M)).

(** Modelled from the spec: [M.lattice_of_flats().atoms()], which is not in
    this file; the spec has the atoms of the lattice of flats be the rank-1
    flats. *)
Definition lattice_atoms {E} `{Countable E} (M : Matroid E) : list (gset E) :=
  flats M 1.

(** ** The poset collaborator

    Modelled from the spec: [Poset((elements, reln))] with its queries
    [order_filter], [order_ideal] and
    [antichains().elements_of_depth_iterator(2)], which are not in this
    file. The spec has them be all elements above (below) one of the given
    ones, and the pairs of incomparable elements, each unordered pair once;
    here they are enumerated in the order of the element list. *)

Record Poset (T : Type) := {
  poset_elements : list T;
  poset_le : T → T → bool;
}.
Arguments poset_elements {T} _.
Arguments poset_le {T} _ _ _.

Definition order_filter {T} (P : Poset T) (xs : list T) : list T :=
  filter (λ y, existsb (λ x, poset_le P x y) xs) (poset_elements P).

Definition order_ideal {T} (P : Poset T) (xs : list T) : list T :=
  filter (λ y, existsb (λ x, poset_le P y x) xs) (poset_elements P).

(** The pairs [(a, b)] with [a] before [b] in [l]. *)
Fixpoint pairs_of {T} (l : list T) : list (T * T) :=
  match l with
  | [] => []
  | a :: l' => (pair a <$> l') ++ pairs_of l'
  end.

Definition incomparable {T} (P : Poset T) (ab : T * T) : bool :=
  negb (poset_le P ab.1 ab.2) && negb (poset_le P ab.2 ab.1).

Definition antichains_depth2 {T} (P : Poset T) : list (list T) :=
  (λ ab, [ab.1; ab.2]) <$> filter (λ ab, incomparable P ab) (pairs_of (poset_elements P)).

(** [PolynomialSequence(R, parts)]: the parts, one after the other. *)
Definition PolynomialSequence `{PolyRing} (S : MPolynomialRing)
  (parts : list (list poly)) : list poly := concat parts.

(** ** The remaining collaborators

    [str x] is Python's [str] on a groundset element,
    [cmp_elements_sorted F] is [sorted(F, key=cmp_elements_key)],
    [certify_names] is the check of [PolynomialRing(R, names)] that raises
    [ValueError] when it fails, and [MPolynomialIdeal_groebner_basis] is the
    generic Groebner basis method of the superclass, called on the ring and
    the generators of the ideal with [algorithm], [*args] and [**kwargs]. *)

Class Collaborators (E : Type) `{Countable E} `{PolyRing} := {
  str : E → string;
  cmp_elements_sorted : gset E → list E;
  certify_names : list string → bool;
  extra_args : Type;
  MPolynomialIdeal_groebner_basis :
    MPolynomialRing → list poly → string → extra_args → result (list poly);
}.

Section chow_ring_ideal.
Context {E : Type} `{Countable E} `{PR : PolyRing} `{!Collaborators E}.

Abbreviation flat := (gset E).

(** [PolynomialRing(R, names)] *)
Definition PolynomialRing (names : list string) : result MPolynomialRing :=
  if certify_names names then Ok {| variable_names := names |}
  else Raise ValueError.

(** Modelled from the spec: [PolynomialRing(R, prefix, n)], the indexed
    naming scheme [prefix0, prefix1, ...] of the ring constructor. *)
Definition PolynomialRing_indexed (prefix : string) (n : nat)
  : result MPolynomialRing :=
  Ok {| variable_names := (λ i, prefix +:+ pretty i) <$> seq 0 n |}.

(** ['P{}'.format(''.join(str(x) for x in sorted(F, key=cmp_elements_key)))] *)
Definition flat_name (prefix : string) (F : flat) : string :=
  prefix +:+ String.concat "" (str <$> cmp_elements_sorted F).

(** [reln = lambda x, y: x <= y] *)
Definition reln (x y : flat) : bool := bool_decide (x ⊆ y).

(** *** ChowRingIdeal_nonaug *)

Record ChowRingIdeal_nonaug := {
  na_matroid : Matroid E;
  na_flats_generator : dict flat poly;
  na_ring : MPolynomialRing;
  na_gens : list poly;
}.

Definition nonaug_gens_constructor (M : Matroid E)
    (flats_generator : dict flat poly) (poly_ring : MPolynomialRing)
  : result (list poly) :=
  let flats := dict_keys flats_generator in
  let lattice_flats := {| poset_elements := flats; poset_le := reln |} in
  let subsets := antichains_depth2 lattice_flats in
  I ← foldM (λ I subset,
         term ← foldM (λ term el,
                   x ← dict_get flats_generator el; Ok (term * x)%P)
                 one subset;
         Ok (I ++ [term])) [] subsets;
  let atoms := lattice_atoms M in
  let atoms_gen := dict_of_list ((λ a, (a, zero)) <$> atoms) in
  atoms_gen ← foldM (λ atoms_gen F,
                 foldM (λ atoms_gen a,
                     if decide (a ⊆ F) then
                       v ← dict_get atoms_gen a;
                       x ← dict_get flats_generator F;
                       Ok (dict_set atoms_gen a (v + x)%P)
                     else Ok atoms_gen)
                   atoms_gen atoms)
               atoms_gen flats;
  let J := dict_values atoms_gen in
  Ok (I ++ J).

Definition nonaug_init (M : Matroid E) : result ChowRingIdeal_nonaug :=
  let flats := flat_map (flats M) (seq 1 (full_rank M)) in
  let names := flat_name "A" <$> flats in
  poly_ring ← try_except_ValueError (PolynomialRing names)
                (PolynomialRing_indexed "A" (length flats));
  let gens := gens poly_ring in
  let flats_generator := dict_of_list (zip flats gens) in
  gs ← nonaug_gens_constructor M flats_generator poly_ring;
  Ok {| na_matroid := M; na_flats_generator := flats_generator;
        na_ring := poly_ring; na_gens := gs |}.

Definition nonaug_groebner_basis (self : ChowRingIdeal_nonaug)
    (algorithm : string) (args : extra_args) : result (list poly) :=
  let algorithm :=
    if decide (algorithm = "") then "constructed" else algorithm in
  if decide (algorithm ≠ "constructed") then
    MPolynomialIdeal_groebner_basis (na_ring self) (na_gens self)
      algorithm args
  else
    let flats := sorted size (dict_keys (na_flats_generator self)) in
    let ranks := dict_of_list ((λ F, (F, rank (na_matroid self) F)) <$> flats) in
    let R := na_ring self in
    let flats_gen := na_flats_generator self in
    let lattice_flats := {| poset_elements := flats; poset_le := reln |} in
    let antichains := antichains_depth2 lattice_flats in
    gb ← foldM (λ gb subset,
            term ← foldM (λ term x,
                      v ← dict_get flats_gen x; Ok (term * v)%P)
                    one subset;
            Ok (gb ++ [term])) [] antichains;
    gb ← foldM (λ gb F,
            term ← foldM (λ term G,
                      v ← dict_get flats_gen G; Ok (term + v)%P)
                    zero (order_filter lattice_flats [F]);
            foldM (λ gb G,
                xG ← dict_get flats_gen G;
                rF ← dict_get ranks F;
                rG ← dict_get ranks G;
                Ok (gb ++ [xG * term ^ (Z.of_nat rF - Z.of_nat rG)]%P))
              gb (order_ideal lattice_flats [F]))
          gb flats;
    Ok (PolynomialSequence R [gb]).

(** *** AugmentedChowRingIdeal_fy

    The keys of [_flats_generator] are the groundset elements and the
    flats. *)

Record AugmentedChowRingIdeal_fy := {
  fy_matroid : Matroid E;
  fy_flats : list flat;
  fy_flats_generator : dict (E + flat) poly;
  fy_ring : MPolynomialRing;
  fy_gens : list poly;
}.

(** [flats_containing = {x: [] for x in E}] followed by
    [for F in flats: for x in F: flats_containing[x].append(F)] *)
Definition flats_containing_of (E_ : list E) (flats : list flat)
  : result (dict E (list flat)) :=
  let flats_containing := dict_of_list ((λ x, (x, [])) <$> E_) in
  foldM (λ fc F,
      foldM (λ fc x, l ← dict_get fc x; Ok (dict_set fc x (l ++ [F])))
        fc (elements F))
    flats_containing flats.

Definition fy_gens_constructor (M : Matroid E) (flats : list flat)
    (flats_generator : dict (E + flat) poly) (poly_ring : MPolynomialRing)
  : result (list poly) :=
  let E_ := groundset M in
  flats_containing ← flats_containing_of E_ flats;
  let Q := [] in
  let L := [] in
  let term := zero in
  '(term, Q) ← foldM (λ '(term, Q) F,
                  xF ← dict_get flats_generator (inr F);
                  let term := (term + xF)%P in
                  Q ← foldM (λ Q G,
                         if decide (¬ (F ⊆ G ∨ G ⊂ F)) then
                           xF ← dict_get flats_generator (inr F);
                           xG ← dict_get flats_generator (inr G);
                           Ok (Q ++ [xF * xG]%P)
                         else Ok Q)
                       Q flats;
                  Ok (term, Q))
                (term, Q) flats;
  let L := L ++ [term] in
  '(Q, L) ← foldM (λ '(Q, L) x,
               let term := zero in
               '(term, Q) ← foldM (λ '(term, Q) F,
                               fc ← dict_get flats_containing x;
                               if decide (F ∉ fc) then
                                 yx ← dict_get flats_generator (inl x);
                                 xF ← dict_get flats_generator (inr F);
                                 Ok (term, Q ++ [yx * xF]%P)
                               else
                                 xF ← dict_get flats_generator (inr F);
                                 Ok ((term + xF)%P, Q))
                             (term, Q) flats;
               yx ← dict_get flats_generator (inl x);
               Ok (Q, L ++ [yx + term]%P))
             (Q, L) E_;
  Ok (Q ++ L).

(** [enumerate(l)] *)
Definition enumerate {A} (l : list A) : list (nat * A) := imap pair l.

Definition fy_init (M : Matroid E) : result AugmentedChowRingIdeal_fy :=
  let flats := flat_map (flats M) (seq 0 (full_rank M + 1)) in
  let E_ := groundset M in
  let flats_generator : dict (E + flat) poly := [] in
  poly_ring ← try_except_ValueError
                (let names_groundset := (λ x, "A" +:+ str x) <$> E_ in
                 let names_flats := flat_name "B" <$> flats in
                 PolynomialRing (names_groundset ++ names_flats))
                (PolynomialRing_indexed "A" (length E_ + length flats));
  flats_generator ← foldM (λ fg ix,
                       g ← getitem (gens poly_ring) ix.1;
                       Ok (dict_set fg (inl ix.2) g))
                     flats_generator (enumerate E_);
  flats_generator ← foldM (λ fg iF,
                       g ← getitem (gens poly_ring) (length E_ + iF.1);
                       Ok (dict_set fg (inr iF.2) g))
                     flats_generator (enumerate flats);
  gs ← fy_gens_constructor M flats flats_generator poly_ring;
  Ok {| fy_matroid := M; fy_flats := flats;
        fy_flats_generator := flats_generator;
        fy_ring := poly_ring; fy_gens := gs |}.

Definition fy_groebner_basis (self : AugmentedChowRingIdeal_fy)
    (algorithm : string) (args : extra_args) : result (list poly) :=
  let algorithm :=
    if decide (algorithm = "") then "constructed" else algorithm in
  if decide (algorithm ≠ "constructed") then
    MPolynomialIdeal_groebner_basis (fy_ring self) (fy_gens self)
      algorithm args
  else
    let gb := [] in
    let E_ := groundset (fy_matroid self) in
    let poly_ring := fy_ring self in
    let fg := fy_flats_generator self in
    let M := fy_matroid self in
    gb ← foldM (λ gb F,
            foldM (λ gb G,
                gb ← (if decide (¬ (F ⊆ G ∨ G ⊆ F)) then
                        xF ← dict_get fg (inr F);
                        xG ← dict_get fg (inr G);
                        Ok (gb ++ [xF * xG]%P)
                      else Ok gb);
                foldM (λ gb i,
                    let term := zero in
                    let term1 := zero in
                    '(term, term1) ←
                      foldM (λ '(term, term1) H,
                          term ← (if decide (i ∈ H) then
                                    xH ← dict_get fg (inr H);
                                    Ok (term + xH)%P
                                  else Ok term);
                          term1 ← (if decide (G ⊆ H) then
                                     xH ← dict_get fg (inr H);
                                     Ok (term1 + xH)%P
                                   else Ok term1);
                          Ok (term, term1))
                        (term, term1) (fy_flats self);
                    gb ← (if decide (term ≠ zero) then
                            yi ← dict_get fg (inl i);
                            Ok (gb ++ [yi + term]%P)
                          else Ok gb);
                    gb ← (if decide (term1 ≠ zero) then
                            Ok (gb ++ [term1 ^ (Z.of_nat (rank M G) + 1)]%P)
                          else Ok gb);
                    if decide (F ⊂ G) then
                      if decide (term1 ≠ zero) then
                        xF ← dict_get fg (inr F);
                        Ok (gb ++ [xF * term1 ^
                              (Z.of_nat (rank M G) - Z.of_nat (rank M F))]%P)
                      else Ok gb
                    else Ok gb)
                  gb E_)
              gb (fy_flats self))
          gb (fy_flats self);
    Ok (PolynomialSequence poly_ring [gb]).

(** *** AugmentedChowRingIdeal_atom_free *)

Record AugmentedChowRingIdeal_atom_free := {
  af_matroid : Matroid E;
  af_flats : list flat;
  af_flats_generator : dict flat poly;
  af_ring : MPolynomialRing;
  af_gens : list poly;
}.

Definition af_gens_constructor (M : Matroid E) (flats : list flat)
    (flats_generator : dict flat poly) (poly_ring : MPolynomialRing)
  : result (list poly) :=
  let E_ := groundset M in
  let Q := [] in
  flats_containing ← flats_containing_of E_ flats;
  foldM (λ Q F,
      Q ← foldM (λ Q G,
             if decide (¬ (F ⊆ G ∨ G ⊂ F)) then
               xF ← dict_get flats_generator F;
               xG ← dict_get flats_generator G;
               Ok (Q ++ [xF * xG]%P)
             else Ok Q)
           Q flats;
      foldM (λ Q x,
          let term := zero in
          fc ← dict_get flats_containing x;
          term ← foldM (λ term H,
                    xH ← dict_get flats_generator H; Ok (term + xH)%P)
                  term fc;
          let Q := if decide ((term ^ 2%Z)%P ∉ Q)
                   then Q ++ [term ^ 2%Z]%P else Q in
          fc ← dict_get flats_containing x;
          if decide (F ∉ fc) then
            xF ← dict_get flats_generator F;
            Ok (Q ++ [xF * term]%P)
          else Ok Q)
        Q E_)
    Q flats.

Definition af_init (M : Matroid E)
  : result AugmentedChowRingIdeal_atom_free :=
  let flats := flat_map (flats M) (seq 1 (full_rank M)) in
  let names := flat_name "A" <$> flats in
  poly_ring ← try_except_ValueError (PolynomialRing names)
                (PolynomialRing_indexed "A" (length flats));
  let gens := gens poly_ring in
  let flats_generator := dict_of_list (zip flats gens) in
  gs ← af_gens_constructor M flats flats_generator poly_ring;
  Ok {| af_matroid := M; af_flats := flats;
        af_flats_generator := flats_generator;
        af_ring := poly_ring; af_gens := gs |}.

Definition af_groebner_basis (self : AugmentedChowRingIdeal_atom_free)
    (algorithm : string) (args : extra_args) : result (list poly) :=
  let algorithm :=
    if decide (algorithm = "") then "constructed" else algorithm in
  if decide (algorithm ≠ "constructed") then
    MPolynomialIdeal_groebner_basis (af_ring self) (af_gens self)
      algorithm args
  else
    let gb := [] in
    let poly_ring := af_ring self in
    let fg := af_flats_generator self in
    let M := af_matroid self in
    gb ← foldM (λ gb F,
            foldM (λ gb G,
                let term := zero in
                term ← foldM (λ term H,
                          if decide (H ⊂ F) then
                            xH ← dict_get fg H; Ok (term + xH)%P
                          else Ok term)
                        term (af_flats self);
                gb ← (if decide (¬ (G ⊆ F ∨ F ⊂ G)) then
                        xF ← dict_get fg F;
                        xG ← dict_get fg G;
                        Ok (gb ++ [xF * xG]%P)
                      else if decide (F ⊂ G) then
                        if decide (term ≠ zero) then
                          xF ← dict_get fg F;
                          Ok (gb ++ [xF * term ^
                                (Z.of_nat (rank M G) - Z.of_nat (rank M F))]%P)
                        else Ok gb
                      else Ok gb);
                Ok (gb ++ [term ^ Z.of_nat (rank M F) + one]%P))
              gb (af_flats self))
          gb (af_flats self);
    Ok (PolynomialSequence poly_ring [gb]).
End chow_ring_ideal.

(** *** ChowRingIdeal

    The base class of the three ideals. Its methods read the attributes
    [_matroid] and [_flats_generator], which the constructor of each
    subclass sets. *)

Class ChowRingIdeal (E : Type) `{Countable E} `{PolyRing} (I : Type) := {
  flats_generator_key : Type;
  flats_generator_key_eq_dec :: EqDecision flats_generator_key;
  self_matroid : I → Matroid E;
  self_flats_generator : I → dict flats_generator_key poly;
}.

Section ChowRingIdeal_methods.
Context {E : Type} `{Countable E} `{PR : PolyRing}.

(** [M = self._matroid; return M] *)
Definition matroid {I} `{!ChowRingIdeal E I} (self : I) : Matroid E :=
  let M := self_matroid self in M.

(** [return dict(self._flats_generator)] *)
Definition flats_generator {I} `{!ChowRingIdeal E I} (self : I)
  : dict flats_generator_key poly :=
  dict_of_list (self_flats_generator self).

#[global] Instance ChowRingIdeal_nonaug_base
  : ChowRingIdeal E (@ChowRingIdeal_nonaug E _ _ PR) := {|
  flats_generator_key := gset E;
  self_matroid := na_matroid;
  self_flats_generator := na_flats_generator;
|}.

#[global] Instance AugmentedChowRingIdeal_fy_base
  : ChowRingIdeal E (@AugmentedChowRingIdeal_fy E _ _ PR) := {|
  flats_generator_key := E + gset E;
  self_matroid := fy_matroid;
  self_flats_generator := fy_flats_generator;
|}.

#[global] Instance AugmentedChowRingIdeal_atom_free_base
  : ChowRingIdeal E (@AugmentedChowRingIdeal_atom_free E _ _ PR) := {|
  flats_generator_key := gset E;
  self_matroid := af_matroid;
  self_flats_generator := af_flats_generator;
|}.
End ChowRingIdeal_methods.

(** ** Printing

    [format_matroid M] is ['{}'.format(M)] and [latex_matroid M] is
    [latex(M)], the two renderings of the matroid collaborator. *)

Class Rendering (E : Type) `{Countable E} := {
  format_matroid : Matroid E → string;
  latex_matroid : Matroid E → string;
}.

Section printing.
Context {E : Type} `{Countable E} `{PR : PolyRing} `{!Rendering E}.

Definition nonaug_repr (self : ChowRingIdeal_nonaug) : string :=
  "Chow ring ideal of " +:+ format_matroid (na_matroid self)
  +:+ " - non augmented".

Definition nonaug_latex (self : ChowRingIdeal_nonaug) : string :=
  "I_{M} + J_{M} of matroid " +:+ latex_matroid (na_matroid self).

Definition fy_repr (self : AugmentedChowRingIdeal_fy) : string :=
  "Augmented Chow ring ideal of " +:+ format_matroid (fy_matroid self)
  +:+ " of Feitchner-Yuzvinsky presentation".

Definition fy_latex (self : AugmentedChowRingIdeal_fy) : string :=
  "I_{FY} of matroid " +:+ latex_matroid (fy_matroid self).

Definition af_repr (self : AugmentedChowRingIdeal_atom_free) : string :=
  "Augmented Chow ring ideal of " +:+ format_matroid (af_matroid self)
  +:+ " in the atom-free presentation".

Definition af_latex (self : AugmentedChowRingIdeal_atom_free) : string :=
  "I_{af} of matroid " +:+ latex_matroid (af_matroid self).
End printing.

(** ** Dictionary objects

    A dictionary object is known by its address in a store; [d[k] = v]
    changes the object at one address, and [dict(d)] makes a new object
    with the items of [d]. *)

Abbreviation store K V := (list (dict K V)).

Definition store_new {K V} (σ : store K V) (d : dict K V)
  : nat * store K V :=
  (length σ, σ ++ [d]).

Definition store_setitem {K V} `{EqDecision K} (σ : store K V) (a : nat)
    (k : K) (v : V) : store K V :=
  alter (λ d, dict_set d k v) a σ.

(** [ChowRingIdeal.flats_generator] when the attribute [_flats_generator]
    of [self] is the dictionary object at the address [a]. *)
Definition flats_generator_at {K V} `{EqDecision K} (σ : store K V) (a : nat)
  : option (nat * store K V) :=
  match σ !! a : option (dict K V) with
  | Some d => Some (store_new σ (dict_of_list d))
  | None => None
  end.

(** * The vocabulary of the specification *)

(** The dictionary with keys [ks], in this order, and values [f k]. *)
Definition tab {K V : Type} (ks : list K) (f : K → V) : dict K V :=
  (λ k, (k, f k)) <$> ks.

(** How many times [a] occurs in [l]. *)
Definition occurrences {A} `{EqDecision A} (a : A) (l : list A) : nat :=
  length (filter (λ b, b = a) l).

(** The position of the first occurrence of [a] in [l]. *)
Fixpoint index_of {A} `{EqDecision A} (a : A) (l : list A) : nat :=
  match l with
  | [] => 0
  | b :: l' => if decide (b = a) then 0 else S (index_of a l')
  end.

(** The number of ordered pairs [(a, b)] of entries of [l] with [R a b]. *)
Definition count_pairs {A} (R : A → A → Prop) `{!∀ a b, Decision (R a b)}
    (l : list A) : nat :=
  sum_list ((λ a, length (filter (R a) l)) <$> l).

Section vocabulary.
Context {E : Type} `{Countable E} `{PR : PolyRing}.
Implicit Types (M : Matroid E) (F G : gset E) (fl : list (gset E)).

(** The flats of rank 1 to [rank(M)], and those of rank 0 to [rank(M)]. *)
Definition nonempty_flats M : list (gset E) :=
  flat_map (flats M) (seq 1 (full_rank M)).
Definition all_flats M : list (gset E) :=
  flat_map (flats M) (seq 0 (full_rank M + 1)).

(** The indeterminate of the flat [F] when the ring has one indeterminate
    per flat of [fl], in this order, after [n] other ones. *)
Definition x_from (n : nat) fl F : poly := gen (n + index_of F fl).
Definition x_ fl F : poly := x_from 0 fl F.

(** The indeterminate of the groundset element [e]. *)
Definition y_ (E_ : list E) (e : E) : poly := gen (index_of e E_).

(** The indeterminates of the Feichtner-Yuzvinsky presentation: first
    those of the groundset elements, then those of the flats. *)
Definition fy_var (E_ : list E) fl (k : E + gset E) : poly :=
  match k with
  | inl e => y_ E_ e
  | inr F => x_from (length E_) fl F
  end.

(** The sums of indeterminates [x] over the flats of [fl] that contain
    the element [e], that are above [G], and that are strictly below [F]. *)
Definition sum_containing (x : gset E → poly) fl (e : E) : poly :=
  psum (x <$> filter (λ H, e ∈ H) fl).
Definition sum_above (x : gset E → poly) fl G : poly :=
  psum (x <$> filter (λ H, G ⊆ H) fl).
Definition sum_strictly_below (x : gset E → poly) fl F : poly :=
  psum (x <$> filter (λ H, H ⊂ F) fl).

(** What one pass of the loop over the groundset elements appends. *)
Definition fy_basis_step M (x : gset E → poly) (y : E → poly) fl F G (i : E)
  : list poly :=
  (if decide (sum_containing x fl i ≠ zero)
   then [y i + sum_containing x fl i]%P else [])
  ++ (if decide (sum_above x fl G ≠ zero)
      then [sum_above x fl G ^ (Z.of_nat (rank M G) + 1)]%P else [])
  ++ (if decide (F ⊂ G) then
        if decide (sum_above x fl G ≠ zero)
        then [x F * sum_above x fl G
                      ^ (Z.of_nat (rank M G) - Z.of_nat (rank M F))]%P
        else []
      else []).

(** The polynomials of the closed-form basis of the Feichtner-Yuzvinsky
    presentation. *)
Definition fy_basis_family M (p : poly) : Prop :=
  let fl := all_flats M in
  let x := x_from (length (groundset M)) fl in
  let y := y_ (groundset M) in
  (∃ F G, F ∈ fl ∧ G ∈ fl ∧ F ⊈ G ∧ G ⊈ F ∧ p = (x F * x G)%P)
  ∨ (∃ i, i ∈ groundset M ∧ sum_containing x fl i ≠ zero
          ∧ p = (y i + sum_containing x fl i)%P)
  ∨ (∃ G, G ∈ fl ∧ sum_above x fl G ≠ zero
          ∧ p = (sum_above x fl G ^ (Z.of_nat (rank M G) + 1))%P)
  ∨ (∃ F G, F ∈ fl ∧ G ∈ fl ∧ F ⊂ G ∧ sum_above x fl G ≠ zero
            ∧ p = (x F * sum_above x fl G
                           ^ (Z.of_nat (rank M G) - Z.of_nat (rank M F)))%P).

(** The polynomials of the closed-form basis of the atom-free
    presentation. *)
Definition af_basis_family M (p : poly) : Prop :=
  let fl := nonempty_flats M in
  let x := x_ fl in
  let down := sum_strictly_below x fl in
  (∃ F G, F ∈ fl ∧ G ∈ fl ∧ F ⊈ G ∧ G ⊈ F ∧ p = (x F * x G)%P)
  ∨ (∃ F G, F ∈ fl ∧ G ∈ fl ∧ F ⊂ G ∧ down F ≠ zero
            ∧ p = (x F * down F
                           ^ (Z.of_nat (rank M G) - Z.of_nat (rank M F)))%P)
  ∨ (∃ F, F ∈ fl ∧ p = (down F ^ Z.of_nat (rank M F) + one)%P).

(** The generators of the atom-free presentation. *)
Definition af_gens_family M (p : poly) : Prop :=
  let fl := nonempty_flats M in
  let x := x_ fl in
  (∃ F G, F ∈ fl ∧ G ∈ fl ∧ F ⊈ G ∧ G ⊈ F ∧ p = (x F * x G)%P)
  ∨ (∃ F e, F ∈ fl ∧ e ∈ groundset M ∧ (e ∉ F)
            ∧ p = (x F * sum_containing x fl e)%P)
  ∨ (∃ e, e ∈ groundset M ∧ p = (sum_containing x fl e ^ 2%Z)%P).

(** One pass of the loop over the groundset elements in
    [_gens_constructor] of the atom-free presentation, and one pass of
    its loop over the flats, once the dictionaries are looked up. *)
Definition af_step_e (x : gset E → poly) fl F (Q : list poly) (e : E)
  : list poly :=
  let term := sum_containing x fl e in
  let Q := if decide ((term ^ 2%Z)%P ∉ Q) then Q ++ [term ^ 2%Z]%P else Q in
  if decide (e ∉ F) then Q ++ [x F * term]%P else Q.

Definition af_step_F (x : gset E → poly) fl (E_ : list E) (Q : list poly) F
  : list poly :=
  fold_left (af_step_e x fl F) E_
    (Q ++ ((λ G, x F * x G)%P <$> filter (λ G, F ⊈ G ∧ G ⊈ F) fl)).

(** The ring [S] has the [n] indexed names [A0, A1, ...], and the
    dictionary [d] maps the keys [ks], which are distinct, to the
    generators of [S], one after the other. *)
Definition indexed_naming {K} (n : nat) (ks : list K) (S : MPolynomialRing)
    (d : dict K poly) : Prop :=
  variable_names S = (λ i, "A" +:+ pretty i) <$> seq 0 n
  ∧ ngens S = n
  ∧ length ks = n
  ∧ dict_keys d = ks
  ∧ NoDup (dict_keys d)
  ∧ dict_values d = gens S.

(** The incomparable pairs of [fl], each unordered pair once. *)
Definition incomparable_pairs fl : list (gset E * gset E) :=
  filter (λ ab, ab.1 ⊈ ab.2 ∧ ab.2 ⊈ ab.1) (pairs_of fl).

(** [ps] lists the incomparable pairs of [fl], each unordered pair once. *)
Definition each_incomparable_pair_once fl (ps : list (gset E * gset E))
  : Prop :=
  NoDup ps
  ∧ (∀ F G, (F, G) ∈ ps → F ∈ fl ∧ G ∈ fl ∧ F ⊈ G ∧ G ⊈ F ∧ (G, F) ∉ ps)
  ∧ (∀ F G, F ∈ fl → G ∈ fl → F ⊈ G → G ⊈ F → (F, G) ∈ ps ∨ (G, F) ∈ ps).

(** The generators of the non-augmented ideal: a monomial per
    incomparable pair, then a linear form per atom. *)
Definition nonaug_generators M : list poly :=
  let fl := nonempty_flats M in
  let x := x_ fl in
  ((λ ab, x ab.1 * x ab.2)%P <$> incomparable_pairs fl)
  ++ ((λ a, sum_above x fl a) <$> lattice_atoms M).

(** The closed-form basis of the non-augmented ideal, on the flats sorted
    by size. *)
Definition nonaug_basis M : list poly :=
  let x := x_ (nonempty_flats M) in
  let fl := sorted size (nonempty_flats M) in
  ((λ ab, x ab.1 * x ab.2)%P <$> incomparable_pairs fl)
  ++ (fl ≫= λ F,
       (λ G, x G * sum_above x fl F
                     ^ (Z.of_nat (rank M F) - Z.of_nat (rank M G)))%P
       <$> filter (λ G, G ⊆ F) fl).

(** The generators of the Feichtner-Yuzvinsky presentation: the quadratic
    ones, then the linear ones. *)
Definition fy_generators M : list poly :=
  let fl := all_flats M in
  let x := x_from (length (groundset M)) fl in
  let y := y_ (groundset M) in
  (fl ≫= λ F, (λ G, x F * x G)%P <$> filter (λ G, F ⊈ G ∧ G ⊈ F) fl)
  ++ (groundset M ≫= λ e, (λ F, y e * x F)%P <$> filter (λ F, e ∉ F) fl)
  ++ [psum (x <$> fl)]
  ++ ((λ e, y e + sum_containing x fl e)%P <$> groundset M).
(** The closed-form basis of the Feichtner-Yuzvinsky presentation: for
    every ordered pair of flats, the product when they are incomparable,
    then what each groundset element appends. *)
Definition fy_basis M : list poly :=
  let fl := all_flats M in
  let x := x_from (length (groundset M)) fl in
  let y := y_ (groundset M) in
  fl ≫= λ F, fl ≫= λ G,
    (if decide (F ⊈ G ∧ G ⊈ F) then [x F * x G]%P else [])
    ++ (groundset M ≫= fy_basis_step M x y fl F G).

(** The closed-form basis of the atom-free presentation: for every ordered
    pair of flats, the product when they are incomparable or the nested
    term when [F < G], then the constant-shifted power. *)
Definition af_basis M : list poly :=
  let fl := nonempty_flats M in
  let x := x_ fl in
  let down := sum_strictly_below x fl in
  fl ≫= λ F, fl ≫= λ G,
    (if decide (F ⊈ G ∧ G ⊈ F) then [x F * x G]%P
     else if decide (F ⊂ G) then
       if decide (down F ≠ zero)
       then [x F * down F ^ (Z.of_nat (rank M G) - Z.of_nat (rank M F))]%P
       else []
     else [])
    ++ [down F ^ Z.of_nat (rank M F) + one]%P.
End vocabulary.

(** ** What the matroid collaborator guarantees

    The flats of each rank are listed without repetition, have that rank and
    are subsets of the groundset; a flat strictly inside another has a
    smaller rank; there are flats of every rank up to the rank of the
    matroid; the groundset is the flat of full rank. *)
Class MatroidAxioms {E} `{Countable E} (M : Matroid E) : Prop := {
  groundset_NoDup : NoDup (groundset M);
  flats_NoDup : ∀ i, NoDup (flats M i);
  flats_rank : ∀ i F, F ∈ flats M i → rank M F = i;
  flats_subset : ∀ i F e, F ∈ flats M i → e ∈ F → e ∈ groundset M;
  flats_strict : ∀ i j F G, F ∈ flats M i → G ∈ flats M j → F ⊂ G → i < j;
  flats_exist : ∀ i, i ≤ full_rank M → flats M i ≠ [];
  groundset_flat : list_to_set (groundset M) ∈ flats M (full_rank M);
}.

(** ** Ideals

    [in_ideal gs p]: the polynomial [p] is a combination of the generators
    [gs] with polynomial coefficients. *)
Definition lincomb `{PolyRing} (cs gs : list poly) : poly :=
  psum (zip_with mul cs gs).

Definition in_ideal `{PolyRing} (gs : list poly) (p : poly) : Prop :=
  ∃ cs, length cs = length gs ∧ p = lincomb cs gs.

(** * A polynomial ring to compute with

    The polynomials in the indeterminates [x_0, x_1, ...] with integer
    coefficients, in canonical form: a finite map from monomials (multisets
    of indices) to nonzero coefficients. *)

Inductive nonzero := NzPos (n : positive) | NzNeg (n : positive).

#[global] Instance nonzero_eq_dec : EqDecision nonzero.
Proof. solve_decision. Defined.

Definition nz_to_Z (c : nonzero) : Z :=
  match c with NzPos n => Zpos n | NzNeg n => Zneg n end.

Definition Z_to_nz (z : Z) : option nonzero :=
  match z with
  | Z0 => None
  | Zpos n => Some (NzPos n)
  | Zneg n => Some (NzNeg n)
  end.

Abbreviation monomial := (gmultiset nat).
Abbreviation zpoly := (gmap (gmultiset nat) nonzero).

(** The coefficient of a monomial. *)
Definition coef (p : zpoly) (m : monomial) : Z :=
  from_option nz_to_Z 0%Z (p !! m).

(** The terms of a polynomial: its monomials with their coefficients. *)
Definition zterms (p : zpoly) : list (monomial * Z) :=
  prod_map id nz_to_Z <$> map_to_list p.

(** [p + c * m] *)
Definition add_term (m : monomial) (c : Z) (p : zpoly) : zpoly :=
  partial_alter (λ o, Z_to_nz (c + from_option nz_to_Z 0 o)%Z) m p.

Definition zconst (z : Z) : zpoly := add_term ∅ z ∅.
Definition zzero : zpoly := ∅.
Definition zone : zpoly := {[ ∅ := NzPos 1 ]}.
Definition zgen (i : nat) : zpoly := {[ {[+ i +]} := NzPos 1 ]}.

Definition zadd (p q : zpoly) : zpoly :=
  foldr (λ mc acc, add_term mc.1 mc.2 acc) p (zterms q).

Definition zmul (p q : zpoly) : zpoly :=
  foldr (λ mc acc,
      foldr (λ mc' acc', add_term (mc.1 ⊎ mc'.1) (mc.2 * mc'.2)%Z acc')
        acc (zterms q))
    ∅ (zterms p).

(** A negative power is not a polynomial; the closed forms never take one
    on a matroid, whose rank grows with the flat. *)
Definition zpow (p : zpoly) (n : Z) : zpoly :=
  match n with
  | Z0 => zone
  | Zpos n => Pos.iter_op zmul n p
  | Zneg _ => zzero
  end.

#[global] Instance ZPoly : PolyRing := {|
  poly := zpoly;
  zero := zzero;
  one := zone;
  add := zadd;
  mul := zmul;
  pow := zpow;
  gen := zgen;
|}.

(** The value of a monomial, of a list of terms and of a polynomial at a
    point. *)
Definition mon_eval (ρ : nat → Z) (m : monomial) : Z :=
  foldr (λ i acc, ρ i * acc)%Z 1%Z (elements m).

Definition tsum (ρ : nat → Z) (l : list (monomial * Z)) : Z :=
  foldr (λ mc acc, mc.2 * mon_eval ρ mc.1 + acc)%Z 0%Z l.

Definition zeval (ρ : nat → Z) (p : zpoly) : Z := tsum ρ (zterms p).

(** The sum of the coefficients of [m] in a list of terms. *)
Definition coef_in (l : list (monomial * Z)) (m : monomial) : Z :=
  foldr (λ mc acc, (if decide (mc.1 = m) then mc.2 else 0) + acc)%Z 0%Z l.

Definition zeval01 (v : nat → bool) (p : zpoly) : zpoly :=
  zconst (zeval (λ i, if v i then 1%Z else 0%Z) p).

(** * Example collaborators and matroids *)

(** Names as the ring constructor takes them: a letter followed by letters,
    digits and underscores, and no name twice. *)
Definition is_letter (c : Ascii.ascii) : bool :=
  let n := Ascii.nat_of_ascii c in
  (Nat.leb 65 n && Nat.leb n 90) || (Nat.leb 97 n && Nat.leb n 122).

Definition is_digit (c : Ascii.ascii) : bool :=
  let n := Ascii.nat_of_ascii c in Nat.leb 48 n && Nat.leb n 57.

Definition valid_name (s : string) : bool :=
  match s with
  | EmptyString => false
  | String c r =>
      is_letter c
      && forallb (λ c, is_letter c || is_digit c || Nat.eqb (Ascii.nat_of_ascii c) 95)
           (String.list_ascii_of_string r)
  end.

(** The groundset elements are natural numbers. The generic algorithms are
    not modelled: the stand-in raises, as the generic method does for an
    algorithm that it does not know. *)
#[global] Instance nat_collaborators : Collaborators nat := {|
  str := pretty;
  cmp_elements_sorted := λ F, merge_sort Nat.le (elements F);
  certify_names := λ names,
    forallb valid_name names && bool_decide (NoDup names);
  extra_args := unit;
  MPolynomialIdeal_groebner_basis := λ _ _ _ _, Raise ValueError;
|}.

(** [Matroid(groundset='abc', bases=['ab', 'ac'])] with 0, 1, 2 for a, b, c:
    the flats are the empty set, [{a}], [{b, c}] and [{a, b, c}]. *)
Definition M_abc : Matroid nat := {|
  groundset := [0; 1; 2];
  rank := λ X, (if decide (0 ∈ X) then 1 else 0)
               + (if decide (1 ∈ X ∨ 2 ∈ X) then 1 else 0);
  flats := λ i,
    match i with
    | 0 => [∅]
    | 1 => [{[0]}; {[1; 2]}]
    | 2 => [{[0; 1; 2]}]
    | _ => []
    end;
|}.

(** The matroid on the empty groundset. *)
Definition M_empty : Matroid nat := {|
  groundset := [];
  rank := λ _, 0;
  flats := λ i, match i with 0 => [∅] | _ => [] end;
|}.

(** The matroid of rank 0 on one element, a loop. *)
Definition M_loop : Matroid nat := {|
  groundset := [0];
  rank := λ _, 0;
  flats := λ i, match i with 0 => [{[0]}] | _ => [] end;
|}.

(** A matroid of rank 2 on the elements 1, 23 and 123, where 1 and 23 are
    parallel: the flats [{1, 23}] and [{123}] both get the name [A123]. *)
Definition M_par : Matroid nat := {|
  groundset := [1; 23; 123];
  rank := λ X, (if decide (1 ∈ X ∨ 23 ∈ X) then 1 else 0)
               + (if decide (123 ∈ X) then 1 else 0);
  flats := λ i,
    match i with
    | 0 => [∅]
    | 1 => [{[1; 23]}; {[123]}]
    | 2 => [{[1; 23; 123]}]
    | _ => []
    end;
|}.

(** The uniform matroid [U(2, n)] on the elements [0, ..., n - 1], for [n]
    at least 2: the flats are the empty set, the singletons and the
    groundset. [U(2, 3)] is the matroid of the cycle graph on 3 vertices. *)
Definition uniform_2 (n : nat) : Matroid nat := {|
  groundset := seq 0 n;
  rank := λ X, size X `min` 2;
  flats := λ i,
    match i with
    | 0 => [∅]
    | 1 => (λ e, {[e]}) <$> seq 0 n
    | 2 => [list_to_set (seq 0 n)]
    | _ => []
    end;
|}.

(** * Properties *)

(** ** Loops in the result monad *)

Section loops.
Context {A S : Type}.
Implicit Types (f : S → A → result S) (g : S → A → S) (l : list A).

Lemma foldM_Ok f g l s :
  (∀ s a, a ∈ l → f s a = Ok (g s a)) →
  foldM f s l = Ok (fold_left g l s).
Proof.
  revert s. induction l as [|a l IH]; intros s Hf; [done|].
  simpl. rewrite Hf; [|left]. simpl. apply IH.
  intros s' b Hb. apply Hf. by right.
Qed.

Lemma foldM_ext f f' l s :
  (∀ s a, a ∈ l → f s a = f' s a) → foldM f s l = foldM f' s l.
Proof.
  revert s. induction l as [|a l IH]; intros s Hf; [done|].
  simpl. rewrite Hf; [|left]. destruct (f' s a); simpl; [|done].
  apply IH. intros s' b Hb. apply Hf. by right.
Qed.

Lemma foldM_fmap {B} (k : B → A) f (l : list B) s :
  foldM f s (k <$> l) = foldM (λ s b, f s (k b)) s l.
Proof.
  revert s. induction l as [|b l IH]; intros s; [done|].
  simpl. destruct (f s (k b)); simpl; [apply IH|done].
Qed.
End loops.

(** A loop that only appends to a list. *)
Lemma fold_left_append {A B} (h : A → list B) (l : list A) (acc : list B) :
  fold_left (λ acc a, acc ++ h a) l acc = acc ++ (l ≫= h).
Proof.
  revert acc. induction l as [|a l IH]; intros acc; simpl.
  - by rewrite app_nil_r.
  - rewrite IH. by rewrite app_assoc.
Qed.

Lemma foldM_append {A B} (f : list B → A → result (list B)) (h : A → list B)
    (l : list A) (acc : list B) :
  (∀ acc a, a ∈ l → f acc a = Ok (acc ++ h a)) →
  foldM f acc l = Ok (acc ++ (l ≫= h)).
Proof.
  intros Hf. rewrite (foldM_Ok f (λ acc a, acc ++ h a)); [|done].
  by rewrite fold_left_append.
Qed.

Lemma fold_left_add_fmap `{PolyRing} {A} (x : A → poly) (l : list A)
    (acc : poly) :
  fold_left (λ t a, (t + x a)%P) l acc = fold_left add (x <$> l) acc.
Proof. revert acc. induction l as [|a l IH]; intros acc; [done|]. apply IH. Qed.

(** Summing the selected elements of a list. *)
Lemma fold_left_add_filter `{PolyRing} {A} (P : A → Prop) `{!∀ a, Decision (P a)}
    (x : A → poly) (l : list A) (acc : poly) :
  fold_left (λ t a, if decide (P a) then (t + x a)%P else t) l acc
  = fold_left add (x <$> filter P l) acc.
Proof.
  revert acc. induction l as [|a l IH]; intros acc; [done|].
  simpl. rewrite filter_cons. destruct (decide (P a)); simpl; apply IH.
Qed.

(** ** Dictionaries tabulated over their keys *)

Section dict_facts.
Context {K V : Type} `{EqDecision K}.
Implicit Types (d : dict K V) (ks : list K) (f : K → V).

Lemma tab_keys ks f : dict_keys (tab ks f) = ks.
Proof.
  unfold dict_keys, tab. induction ks as [|k ks IH]; [done|].
  simpl. f_equal. exact IH.
Qed.

Lemma tab_values ks f : dict_values (tab ks f) = f <$> ks.
Proof. unfold dict_values, tab. by rewrite <-list_fmap_compose. Qed.

Lemma tab_ext ks f f' : (∀ k, k ∈ ks → f k = f' k) → tab ks f = tab ks f'.
Proof.
  intros Hf. apply list_fmap_ext. intros i k Hk.
  rewrite (Hf k); [done|]. by eapply list_elem_of_lookup_2.
Qed.

Lemma dict_get_tab ks f k : k ∈ ks → dict_get (tab ks f) k = Ok (f k).
Proof.
  induction ks as [|k' ks IH]; intros Hk; [by apply elem_of_nil in Hk|].
  simpl. destruct (decide (k' = k)) as [->|Hne]; [done|].
  apply IH. apply elem_of_cons in Hk as [->|Hk]; done.
Qed.

Lemma dict_set_tab ks f k v :
  k ∈ ks → NoDup ks →
  dict_set (tab ks f) k v = tab ks (λ k', if decide (k' = k) then v else f k').
Proof.
  induction ks as [|k' ks IH]; intros Hk Hnd; [by apply elem_of_nil in Hk|].
  apply NoDup_cons in Hnd as [Hk' Hnd]. simpl.
  destruct (decide (k' = k)) as [->|Hne].
  - f_equal. apply tab_ext. intros k'' Hk''.
    destruct (decide (k'' = k)) as [->|]; done.
  - f_equal. apply IH; [|done].
    apply elem_of_cons in Hk as [->|Hk]; done.
Qed.

Lemma dict_set_fresh d k v : k ∉ d.*1 → dict_set d k v = d ++ [(k, v)].
Proof.
  induction d as [|[k' v'] d IH]; intros Hk; [done|].
  simpl in *. apply not_elem_of_cons in Hk as [Hne Hk].
  destruct (decide (k' = k)); [congruence|]. by rewrite IH.
Qed.

Lemma dict_of_list_NoDup (kvs : list (K * V)) :
  NoDup kvs.*1 → dict_of_list kvs = kvs.
Proof.
  unfold dict_of_list. change kvs with ([] ++ kvs) at 1 3.
  generalize (@nil (K * V)) as acc.
  induction kvs as [|[k v] kvs IH]; intros acc Hnd.
  - by rewrite app_nil_r.
  - simpl. rewrite fmap_app in Hnd. simpl in Hnd.
    rewrite dict_set_fresh.
    + rewrite (IH (acc ++ [(k, v)])); [by rewrite <-app_assoc|].
      by rewrite !fmap_app, <-app_assoc.
    + apply NoDup_app in Hnd as (_ & Hd & _). intros Hin.
      apply (Hd k Hin). left.
Qed.

Lemma dict_of_list_tab ks f : NoDup ks → dict_of_list (tab ks f) = tab ks f.
Proof.
  intros Hnd. apply dict_of_list_NoDup.
  change (NoDup (dict_keys (tab ks f))). by rewrite tab_keys.
Qed.
End dict_facts.

Section dict_loops.
Context {K V : Type} `{EqDecision K}.
Implicit Types (ks : list K) (f : K → V).

(** A loop over some of the keys that updates the entry of each key that
    satisfies [c]. *)
Lemma foldM_update_tab (c : K → Prop) `{!∀ k, Decision (c k)}
    (u : K → V → V) ks ks' f :
  NoDup ks → NoDup ks' → ks' ⊆ ks →
  foldM (λ d k, if decide (c k)
                then v ← dict_get d k; Ok (dict_set d k (u k v))
                else Ok d) (tab ks f) ks'
  = Ok (tab ks (λ k, if decide (k ∈ ks' ∧ c k) then u k (f k) else f k)).
Proof.
  intros Hks. revert f.
  induction ks' as [|k ks' IH]; intros f Hnd Hsub; simpl.
  - apply (f_equal Ok), tab_ext. by intros k _.
  - apply NoDup_cons in Hnd as [Hk Hnd].
    assert (k ∈ ks) as Hkks by (apply Hsub; left).
    assert (ks' ⊆ ks) as Hsub' by (intros k' Hk'; apply Hsub; by right).
    destruct (decide (c k)) as [Hc|Hc]; simpl.
    + rewrite dict_get_tab by done. simpl.
      rewrite dict_set_tab by done. rewrite IH by done.
      apply (f_equal Ok), tab_ext. intros k' _.
      destruct (decide (k' = k)) as [->|Hne].
      * rewrite decide_False by (intros [? _]; done).
        rewrite decide_True; [done|]. split; [left|done].
      * destruct (decide (k' ∈ ks' ∧ c k')) as [[Hin Hc']|Hn].
        -- rewrite decide_True; [done|]. split; [by right|done].
        -- rewrite decide_False; [done|].
           intros [Hin Hc']. apply Hn. split; [|done].
           apply elem_of_cons in Hin as [->|Hin]; done.
    + rewrite IH by done. apply (f_equal Ok), tab_ext. intros k' _.
      destruct (decide (k' ∈ ks' ∧ c k')) as [[Hin Hc']|Hn].
      * rewrite decide_True; [done|]. split; [by right|done].
      * rewrite decide_False; [done|].
        intros [Hin Hc']. apply Hn. split; [|done].
        apply elem_of_cons in Hin as [->|Hin]; done.
Qed.

(** A loop whose state stays a dictionary over the same keys. *)
Lemma foldM_tab {A} (body : dict K V → A → result (dict K V))
    (step : (K → V) → A → K → V) ks (l : list A) f :
  (∀ f a, a ∈ l → body (tab ks f) a = Ok (tab ks (step f a))) →
  foldM body (tab ks f) l = Ok (tab ks (fold_left step l f)).
Proof.
  revert f. induction l as [|a l IH]; intros f Hb; [done|].
  simpl. rewrite Hb by left. simpl. apply IH.
  intros f' b Hin. apply Hb. by right.
Qed.

(** When each step changes the value at [k] from the old value at [k]
    alone. *)
Lemma fold_left_pointwise {A} (step : (K → V) → A → K → V)
    (pt : K → V → A → V) (l : list A) f k :
  (∀ f a, step f a k = pt k (f k) a) →
  fold_left step l f k = fold_left (pt k) l (f k).
Proof.
  intros Hs. revert f. induction l as [|a l IH]; intros f; [done|].
  simpl. rewrite IH. by rewrite Hs.
Qed.
End dict_loops.

(** ** Positions in a list, pairs and sorting *)

Lemma index_of_lookup {A} `{EqDecision A} (a : A) (l : list A) :
  a ∈ l → l !! index_of a l = Some a.
Proof.
  induction l as [|b l IH]; intros Ha; [by apply elem_of_nil in Ha|].
  simpl. destruct (decide (b = a)) as [->|Hne]; [done|].
  simpl. apply IH. apply elem_of_cons in Ha as [->|Ha]; done.
Qed.

Lemma index_of_lt {A} `{EqDecision A} (a : A) (l : list A) :
  a ∈ l → index_of a l < length l.
Proof. intros Ha. eapply lookup_lt_Some, index_of_lookup, Ha. Qed.

Lemma index_of_inj {A} `{EqDecision A} (a b : A) (l : list A) :
  a ∈ l → b ∈ l → index_of a l = index_of b l → a = b.
Proof.
  intros Ha Hb Heq. apply index_of_lookup in Ha, Hb.
  rewrite Heq in Ha. congruence.
Qed.

Lemma zip_tab {A V} `{EqDecision A} (g : nat → V) (l : list A) (n : nat) :
  NoDup l →
  zip l (g <$> seq n (length l)) = tab l (λ a, g (n + index_of a l)).
Proof.
  revert n. induction l as [|a l IH]; intros n Hnd; [done|].
  apply NoDup_cons in Hnd as [Ha Hnd]. simpl.
  rewrite decide_True by done. rewrite Nat.add_0_r. f_equal.
  rewrite IH by done. apply tab_ext. intros b Hb.
  rewrite decide_False by (intros ->; done). f_equal. lia.
Qed.

Lemma pairs_of_elem {T} (l : list T) a b :
  (a, b) ∈ pairs_of l → a ∈ l ∧ b ∈ l.
Proof.
  induction l as [|c l IH]; simpl; [by intros ?%elem_of_nil|].
  rewrite elem_of_app, list_elem_of_fmap.
  intros [(b' & [= -> ->] & Hb)|Hin].
  - split; [left|by right].
  - destruct (IH Hin). split; by right.
Qed.

Lemma pairs_of_NoDup {T} (l : list T) : NoDup l → NoDup (pairs_of l).
Proof.
  induction 1 as [|a l Ha Hnd IH]; simpl; [constructor|].
  apply NoDup_app. split; [|split; [|done]].
  - apply NoDup_fmap_2; [|done]. by intros b b' [= ->].
  - intros [a' b] (b' & [= -> ->] & Hb)%list_elem_of_fmap Hin.
    by apply pairs_of_elem in Hin as [? _].
Qed.

Lemma pairs_of_total {T} (l : list T) a b :
  a ∈ l → b ∈ l → a ≠ b → (a, b) ∈ pairs_of l ∨ (b, a) ∈ pairs_of l.
Proof.
  induction l as [|c l IH]; intros Ha Hb Hne; [by apply elem_of_nil in Ha|].
  simpl. rewrite !elem_of_app, !list_elem_of_fmap.
  apply elem_of_cons in Ha as [->|Ha], Hb as [->|Hb]; [done|..].
  - left. left. by exists b.
  - right. left. by exists a.
  - destruct (IH Ha Hb Hne); [left|right]; by right.
Qed.

Lemma pairs_of_asym {T} (l : list T) a b :
  NoDup l → (a, b) ∈ pairs_of l → (b, a) ∉ pairs_of l.
Proof.
  induction 1 as [|c l Hc Hnd IH]; simpl; [by intros ?%elem_of_nil|].
  rewrite !elem_of_app, !list_elem_of_fmap.
  intros [(b' & [= -> ->] & Hb)|Hab] [(a' & [= -> ->] & Ha)|Hba].
  - done.
  - by apply pairs_of_elem in Hba as [_ ?].
  - by apply pairs_of_elem in Hab as [_ ?].
  - by apply IH.
Qed.

Lemma bind_if_filter {A B} (P : A → Prop) `{!∀ a, Decision (P a)}
    (h : A → B) (l : list A) :
  l ≫= (λ a, if decide (P a) then [h a] else []) = h <$> filter P l.
Proof.
  induction l as [|a l IH]; [done|]. simpl. rewrite filter_cons.
  destruct (decide (P a)); simpl; by f_equal.
Qed.

Lemma fold_left_filter_snoc {A} (P : A → Prop) `{!∀ a, Decision (P a)}
    (l acc : list A) :
  fold_left (λ acc a, if decide (P a) then acc ++ [a] else acc) l acc
  = acc ++ filter P l.
Proof.
  revert acc. induction l as [|a l IH]; intros acc; simpl.
  - by rewrite app_nil_r.
  - rewrite IH, filter_cons. destruct (decide (P a)); [|done].
    by rewrite <-app_assoc.
Qed.

(** A loop with two variables that do not depend on each other. *)
Lemma fold_left_pair {A S T} (g1 : S → A → S) (g2 : T → A → T)
    (l : list A) (s : S) (t : T) :
  fold_left (λ st a, (g1 st.1 a, g2 st.2 a)) l (s, t)
  = (fold_left g1 l s, fold_left g2 l t).
Proof. revert s t. induction l as [|a l IH]; intros s t; [done|]. apply IH. Qed.

Lemma imap_index_of {A B} `{EqDecision A} (h : nat → A → B) (l : list A) :
  NoDup l → imap h l = (λ a, h (index_of a l) a) <$> l.
Proof.
  intros Hnd. revert h. induction Hnd as [|a l Ha Hnd IH]; intros h; [done|].
  simpl. rewrite decide_True by done. f_equal.
  rewrite IH. apply list_fmap_ext. intros i b Hb. simpl.
  rewrite decide_False; [done|]. intros ->.
  by apply list_elem_of_lookup_2 in Hb.
Qed.

Lemma filter_none {A} (P : A → Prop) `{!∀ a, Decision (P a)} (l : list A) :
  (∀ a, a ∈ l → ¬ P a) → filter P l = [].
Proof.
  induction l as [|a l IH]; intros Hl; [done|].
  rewrite filter_cons, decide_False by (apply Hl; left).
  apply IH. intros b Hb. apply Hl. by right.
Qed.

Section occurrences.
Context {A : Type} `{EqDecision A}.
Implicit Types (a b : A) (l : list A).

Lemma occurrences_app a l l' :
  occurrences a (l ++ l') = occurrences a l + occurrences a l'.
Proof. unfold occurrences. by rewrite filter_app, length_app. Qed.

Lemma occurrences_none a l : (∀ b, b ∈ l → b ≠ a) → occurrences a l = 0.
Proof. intros Hl. unfold occurrences. by rewrite filter_none. Qed.

Lemma occurrences_elem a l : a ∈ l → 1 ≤ occurrences a l.
Proof.
  intros Ha. unfold occurrences.
  assert (a ∈ filter (λ b, b = a) l) as Hin by (by apply list_elem_of_filter).
  destruct (filter _ l); [by apply elem_of_nil in Hin|simpl; lia].
Qed.

Lemma occurrences_not_elem a l : a ∉ l → occurrences a l = 0.
Proof. intros Ha. apply occurrences_none. by intros b Hb ->. Qed.
End occurrences.

Lemma bind_singleton {A B} (h : A → B) (l : list A) :
  l ≫= (λ a, [h a]) = h <$> l.
Proof. induction l as [|a l IH]; [done|]. simpl. by f_equal. Qed.

Lemma insert_by_key_perm {A} (key : A → nat) x (l : list A) :
  insert_by_key key x l ≡ₚ x :: l.
Proof.
  induction l as [|y l IH]; [done|]. simpl.
  destruct (decide (key x ≤ key y)); [done|].
  rewrite IH. apply Permutation_swap.
Qed.

Lemma sorted_perm {A} (key : A → nat) (l : list A) : sorted key l ≡ₚ l.
Proof.
  induction l as [|x l IH]; [done|]. simpl.
  rewrite insert_by_key_perm. by rewrite IH.
Qed.

Lemma insert_by_key_Sorted {A} (key : A → nat) x (l : list A) :
  Sorted (λ a b, key a ≤ key b) l →
  Sorted (λ a b, key a ≤ key b) (insert_by_key key x l).
Proof.
  induction 1 as [|y l Hs IH Hhd]; simpl.
  - by repeat constructor.
  - destruct (decide (key x ≤ key y)) as [Hle|Hgt].
    + constructor; [by constructor|by constructor].
    + constructor; [done|].
      destruct Hhd as [|z l' Hyz]; simpl.
      * constructor. lia.
      * destruct (decide (key x ≤ key z)); constructor; lia.
Qed.

Lemma sorted_Sorted {A} (key : A → nat) (l : list A) :
  Sorted (λ a b, key a ≤ key b) (sorted key l).
Proof.
  induction l as [|x l IH]; simpl; [constructor|].
  by apply insert_by_key_Sorted.
Qed.

(** The sort is stable: elements with the same key keep their order. *)
Lemma sorted_stable {A} (key : A → nat) (k : nat) (l : list A) :
  filter (λ a, key a = k) (sorted key l) = filter (λ a, key a = k) l.
Proof.
  induction l as [|x l IH]; [done|]. simpl. rewrite filter_cons, <-IH.
  generalize (sorted key l) as s. clear IH.
  induction s as [|y s IH]; [done|]. simpl.
  destruct (decide (key x ≤ key y)) as [Hle|Hgt].
  - by rewrite filter_cons.
  - rewrite (filter_cons _ y), IH. rewrite (filter_cons _ y).
    destruct (decide (key x = k)) as [Hx|Hx]; [|done].
    destruct (decide (key y = k)); [lia|done].
Qed.

(** ** The poset of flats *)

Section poset_facts.
Context {E : Type} `{Countable E}.
Implicit Types (F G : gset E) (l : list (gset E)).

Lemma order_filter_reln l F :
  order_filter {| poset_elements := l; poset_le := reln |} [F]
  = filter (λ G, F ⊆ G) l.
Proof.
  unfold order_filter. simpl. apply list_filter_iff. intros G.
  unfold reln. rewrite orb_false_r. apply bool_decide_spec.
Qed.

Lemma order_ideal_reln l F :
  order_ideal {| poset_elements := l; poset_le := reln |} [F]
  = filter (λ G, G ⊆ F) l.
Proof.
  unfold order_ideal. simpl. apply list_filter_iff. intros G.
  unfold reln. rewrite orb_false_r. apply bool_decide_spec.
Qed.

Lemma antichains_depth2_reln l :
  antichains_depth2 {| poset_elements := l; poset_le := reln |}
  = (λ ab, [ab.1; ab.2])
      <$> filter (λ ab, ab.1 ⊈ ab.2 ∧ ab.2 ⊈ ab.1) (pairs_of l).
Proof.
  unfold antichains_depth2. simpl. f_equal.
  apply list_filter_iff. intros [F G]. unfold incomparable, reln. simpl.
  rewrite andb_True, !negb_True, !bool_decide_spec. done.
Qed.
Lemma incomparable_pairs_once l :
  NoDup l → each_incomparable_pair_once l (incomparable_pairs l).
Proof.
  intros Hnd. unfold each_incomparable_pair_once, incomparable_pairs.
  split; [|split].
  - by apply NoDup_filter, pairs_of_NoDup.
  - intros F G [[HFG HGF] Hin]%list_elem_of_filter. simpl in *.
    destruct (pairs_of_elem _ _ _ Hin) as [HF HG].
    repeat split; try done.
    intros [_ Hin']%list_elem_of_filter.
    by apply (pairs_of_asym l F G).
  - intros F G HF HG HFG HGF.
    destruct (pairs_of_total l F G) as [Hin|Hin]; [done..| | |].
    + by intros ->.
    + left. by apply list_elem_of_filter.
    + right. by apply list_elem_of_filter.
Qed.
End poset_facts.

(** ** Matroids *)

Section matroid_facts.
Context {E : Type} `{Countable E} (M : Matroid E) `{!MatroidAxioms M}.

Lemma flats_of_ranks_elem (a n : nat) (F : gset E) :
  F ∈ flat_map (flats M) (seq a n) ↔ a ≤ rank M F < a + n ∧ F ∈ flats M (rank M F).
Proof.
  rewrite list_elem_of_In, in_flat_map. split.
  - intros (i & Hi & HF). apply list_elem_of_In in HF.
    apply in_seq in Hi. by rewrite (flats_rank i F HF).
  - intros [Hr HF]. exists (rank M F).
    split; [by apply in_seq|by apply list_elem_of_In].
Qed.

Lemma flats_of_ranks_NoDup (a n : nat) :
  NoDup (flat_map (flats M) (seq a n)).
Proof.
  revert a. induction n as [|n IH]; intros a; simpl; [constructor|].
  apply NoDup_app. split; [apply flats_NoDup|]. split; [|apply IH].
  intros F HF [Hr _]%flats_of_ranks_elem.
  rewrite (flats_rank a F HF) in Hr. lia.
Qed.

Lemma nonempty_flats_NoDup : NoDup (nonempty_flats M).
Proof. apply flats_of_ranks_NoDup. Qed.

Lemma all_flats_NoDup : NoDup (all_flats M).
Proof. apply flats_of_ranks_NoDup. Qed.

Lemma nonempty_flats_elem (F : gset E) :
  F ∈ nonempty_flats M
  ↔ 1 ≤ rank M F ≤ full_rank M ∧ F ∈ flats M (rank M F).
Proof.
  unfold nonempty_flats. rewrite flats_of_ranks_elem.
  split; intros [? ?]; (split; [lia|done]).
Qed.

(** No enumerated flat lies strictly below a flat of rank 1. *)
Lemma below_atom_empty (F H' : gset E) :
  F ∈ flats M 1 → H' ∈ nonempty_flats M → ¬ H' ⊂ F.
Proof.
  intros HF [Hr HH]%nonempty_flats_elem Hsub.
  pose proof (flats_strict _ _ _ _ HH HF Hsub). lia.
Qed.

(** Every groundset element lies in the flat of full rank. *)
Lemma groundset_in_top (e : E) : e ∈ groundset M → e ∈ (list_to_set (groundset M) : gset E).
Proof. by rewrite elem_of_list_to_set. Qed.

Lemma groundset_in_nonempty_flats :
  1 ≤ full_rank M → list_to_set (groundset M) ∈ nonempty_flats M.
Proof.
  intros Hr. apply nonempty_flats_elem. pose proof groundset_flat as Htop.
  unfold full_rank in *. repeat split; [exact Hr|lia|exact Htop].
Qed.
End matroid_facts.

(** ** Ideals *)

Section ideal_facts.
Context `{PR : PolyRing} `{!PolyRingLaws PR}.

Lemma fold_left_add_zeros (cs gs : list poly) (acc : poly) :
  Forall (λ c, c = zero) cs →
  fold_left add (zip_with mul cs gs) acc = acc.
Proof.
  intros Hcs. revert gs acc.
  induction Hcs as [|c cs -> _ IH]; intros [|g gs] acc; simpl; try done.
  by rewrite IH, mul_0_l, add_0_r.
Qed.

(** A generator is in the ideal it generates. *)
Lemma in_ideal_elem (gs : list poly) (g : poly) : g ∈ gs → in_ideal gs g.
Proof.
  intros (k & Hk)%list_elem_of_lookup.
  apply list_elem_of_split_length in Hk as (gs1 & gs2 & -> & ->).
  exists (replicate (length gs1) zero ++ one :: replicate (length gs2) zero).
  split.
  { rewrite !length_app. simpl. by rewrite !length_replicate. }
  unfold lincomb, psum.
  rewrite zip_with_app by (by rewrite length_replicate).
  rewrite fold_left_app. simpl.
  rewrite !fold_left_add_zeros by (by apply Forall_replicate).
  by rewrite mul_1_l, add_0_l.
Qed.
End ideal_facts.

(** ** The non-augmented ideal *)

Section nonaug_facts.
Context {E : Type} `{Countable E} `{PR : PolyRing} `{!Collaborators E}.
Implicit Types (M : Matroid E) (F G : gset E) (fl : list (gset E)).

Lemma ring_fallback (names : list string) (n : nat) :
  length names = n →
  ∃ S, try_except_ValueError (PolynomialRing names)
         (PolynomialRing_indexed "A" n) = Ok S
       ∧ ngens S = n
       ∧ variable_names S
         = if certify_names names then names
           else (λ i, "A" +:+ pretty i) <$> seq 0 n.
Proof.
  intros Hn. unfold PolynomialRing, PolynomialRing_indexed.
  destruct (certify_names names); simpl; eexists; (split; [done|]).
  - by split.
  - split; [|done]. unfold ngens. simpl. by rewrite length_fmap, length_seq.
Qed.

Lemma gens_zip_tab fl (S : MPolynomialRing) :
  NoDup fl → ngens S = length fl →
  dict_of_list (zip fl (gens S)) = tab fl (x_ fl).
Proof.
  intros Hnd Hn. unfold gens. rewrite Hn, zip_tab by done.
  by rewrite dict_of_list_tab.
Qed.

(** Multiplying the indeterminates of a pair into [one]. *)
Lemma foldM_pair_product (d : dict (gset E) poly) (x : gset E → poly) F G :
  dict_get d F = Ok (x F) → dict_get d G = Ok (x G) →
  foldM (λ term el, v ← dict_get d el; Ok (term * v)%P) one [F; G]
  = Ok (one * x F * x G)%P.
Proof. intros HF HG. simpl. rewrite HF. simpl. by rewrite HG. Qed.

Lemma antichain_terms fl (d : dict (gset E) poly) (x : gset E → poly) :
  (∀ F, F ∈ fl → dict_get d F = Ok (x F)) →
  foldM (λ I subset,
      term ← foldM (λ term el, v ← dict_get d el; Ok (term * v)%P)
              one subset;
      Ok (I ++ [term]))
    [] (antichains_depth2 {| poset_elements := fl; poset_le := reln |})
  = Ok ((λ ab, one * x ab.1 * x ab.2)%P <$> incomparable_pairs fl).
Proof.
  intros Hd. rewrite antichains_depth2_reln, foldM_fmap.
  rewrite (foldM_append _ (λ ab, [one * x ab.1 * x ab.2]%P)).
  - by rewrite bind_singleton.
  - intros acc [F G] Hin. apply list_elem_of_filter in Hin as [_ Hin].
    apply pairs_of_elem in Hin as [HF HG].
    rewrite (foldM_pair_product _ x); [done|by apply Hd..].
Qed.

Lemma pair_products_one `{!PolyRingLaws PR} (x : gset E → poly)
    (l : list (gset E * gset E)) :
  (λ ab, one * x ab.1 * x ab.2)%P <$> l = (λ ab, x ab.1 * x ab.2)%P <$> l.
Proof. apply list_fmap_ext. intros _ ab _. by rewrite mul_1_l. Qed.

(** Summing the indeterminates of a list of flats. *)
Lemma foldM_psum {K} `{EqDecision K} (d : dict K poly) (x : K → poly)
    (l : list K) (t : poly) :
  (∀ k, k ∈ l → dict_get d k = Ok (x k)) →
  foldM (λ term k, v ← dict_get d k; Ok (term + v)%P) t l
  = Ok (fold_left add (x <$> l) t).
Proof.
  revert t. induction l as [|k l IH]; intros t Hd; [done|].
  simpl. rewrite Hd by left. simpl. apply IH.
  intros k' Hk'. apply Hd. by right.
Qed.

Lemma atoms_linear_forms fl (x : gset E → poly) (atoms : list (gset E)) :
  NoDup atoms →
  foldM (λ atoms_gen F,
      foldM (λ atoms_gen a,
          if decide (a ⊆ F) then
            v ← dict_get atoms_gen a;
            xF ← dict_get (tab fl x) F;
            Ok (dict_set atoms_gen a (v + xF)%P)
          else Ok atoms_gen)
        atoms_gen atoms)
    (dict_of_list ((λ a, (a, zero)) <$> atoms)) fl
  = Ok (tab atoms (λ a, psum (x <$> filter (λ F, a ⊆ F) fl))).
Proof.
  intros Hnd.
  change ((λ a, (a, zero)) <$> atoms) with (tab atoms (λ _ : gset E, zero)).
  rewrite dict_of_list_tab by done.
  rewrite (foldM_tab _ (λ f F a, if decide (a ⊆ F) then (f a + x F)%P else f a)).
  - apply (f_equal Ok), tab_ext. intros a _.
    rewrite (fold_left_pointwise _
               (λ a v F, if decide (a ⊆ F) then (v + x F)%P else v)) by done.
    apply (fold_left_add_filter (λ F, a ⊆ F)).
  - intros f F HF.
    rewrite (foldM_ext _ (λ d a, if decide (a ⊆ F)
                                 then v ← dict_get d a;
                                      Ok (dict_set d a ((λ _ v, v + x F)%P a v))
                                 else Ok d)).
    + rewrite (foldM_update_tab (λ a, a ⊆ F)) by done.
      apply (f_equal Ok), tab_ext. intros a Ha.
      destruct (decide (a ⊆ F)).
      * by rewrite decide_True.
      * by rewrite decide_False by (intros [_ ?]; done).
    + intros d a _. destruct (decide (a ⊆ F)); [|done].
      destruct (dict_get d a); simpl; [|done].
      by rewrite dict_get_tab.
Qed.

Lemma nonaug_gens_constructor_tab M fl
    (x : gset E → poly) (S : MPolynomialRing) :
  NoDup (lattice_atoms M) →
  nonaug_gens_constructor M (tab fl x) S
  = Ok (((λ ab, one * x ab.1 * x ab.2)%P <$> incomparable_pairs fl)
        ++ ((λ a, psum (x <$> filter (λ F, a ⊆ F) fl)) <$> lattice_atoms M)).
Proof.
  intros Hnd. unfold nonaug_gens_constructor.
  rewrite tab_keys, (antichain_terms _ _ x)
    by (intros; by apply dict_get_tab).
  simpl. rewrite atoms_linear_forms by done. simpl.
  by rewrite tab_values.
Qed.

Lemma nonaug_init_inv M I :
  NoDup (nonempty_flats M) → nonaug_init M = Ok I →
  na_matroid I = M
  ∧ na_flats_generator I = tab (nonempty_flats M) (x_ (nonempty_flats M))
  ∧ ngens (na_ring I) = length (nonempty_flats M)
  ∧ nonaug_gens_constructor M (na_flats_generator I) (na_ring I)
    = Ok (na_gens I).
Proof.
  intros Hnd. unfold nonaug_init. fold (nonempty_flats M).
  destruct (ring_fallback (flat_name "A" <$> nonempty_flats M)
              (length (nonempty_flats M))) as (S & -> & Hn & _).
  { by rewrite length_fmap. }
  simpl. rewrite gens_zip_tab by done.
  destruct (nonaug_gens_constructor _ _ _) as [gs|e] eqn:Hgs; [|done].
  simpl. intros [= <-]. done.
Qed.
Lemma nonaug_init_total M :
  NoDup (nonempty_flats M) → NoDup (lattice_atoms M) →
  ∃ I, nonaug_init M = Ok I.
Proof.
  intros Hfl Hat. unfold nonaug_init. fold (nonempty_flats M).
  destruct (ring_fallback (flat_name "A" <$> nonempty_flats M)
              (length (nonempty_flats M))) as (S & -> & Hn & _).
  { by rewrite length_fmap. }
  simpl. rewrite gens_zip_tab by done.
  rewrite nonaug_gens_constructor_tab by done. simpl. by eexists.
Qed.

(** C2. For every matroid and ring, the constructor of
    [ChowRingIdeal_nonaug] enumerates the flats of rank 1 to [rank(M)],
    gives each its indeterminate, and builds the generator list made of one
    monomial [x_F * x_G] per incomparable pair of these flats, each
    unordered pair once, followed by one linear generator per atom [a] of
    the lattice of flats, the sum of [x_F] over the enumerated flats [F]
    that contain [a]. The flats and the atoms are lists without
    repetition, as the matroid returns them. *)
Theorem nonaug_init_generators `{!PolyRingLaws PR} M :
  NoDup (nonempty_flats M) → NoDup (lattice_atoms M) →
  ∃ I, nonaug_init M = Ok I
    ∧ dict_keys (na_flats_generator I) = nonempty_flats M
    ∧ (∀ F, F ∈ nonempty_flats M →
         dict_get (na_flats_generator I) F = Ok (x_ (nonempty_flats M) F))
    ∧ each_incomparable_pair_once (nonempty_flats M)
        (incomparable_pairs (nonempty_flats M))
    ∧ na_gens I = nonaug_generators M.
Proof.
  intros Hfl Hat. unfold nonaug_generators, sum_above.
  set (fl := nonempty_flats M) in *. set (x := x_ fl).
  destruct (nonaug_init_total M Hfl Hat) as [I HI].
  destruct (nonaug_init_inv M I Hfl HI) as (_ & Hfg & _ & Hgs).
  exists I. split; [done|]. rewrite Hfg in *. fold fl x.
  split; [by rewrite tab_keys|].
  split; [by intros; apply dict_get_tab|].
  split; [by apply incomparable_pairs_once|].
  rewrite nonaug_gens_constructor_tab, pair_products_one in Hgs by done.
  by injection Hgs.
Qed.

Lemma nonaug_basis_loop M fl (d : dict (gset E) poly) (x : gset E → poly)
    (gb : list poly) :
  NoDup fl → (∀ F, F ∈ fl → dict_get d F = Ok (x F)) →
  foldM (λ gb F,
      term ← foldM (λ term G, v ← dict_get d G; Ok (term + v)%P) zero
              (order_filter {| poset_elements := fl; poset_le := reln |} [F]);
      foldM (λ gb G,
          xG ← dict_get d G;
          rF ← dict_get (dict_of_list ((λ F, (F, rank M F)) <$> fl)) F;
          rG ← dict_get (dict_of_list ((λ F, (F, rank M F)) <$> fl)) G;
          Ok (gb ++ [xG * term ^ (Z.of_nat rF - Z.of_nat rG)]%P))
        gb (order_ideal {| poset_elements := fl; poset_le := reln |} [F]))
    gb fl
  = Ok (gb ++ (fl ≫= λ F,
          (λ G, x G * psum (x <$> filter (λ H, F ⊆ H) fl)
                      ^ (Z.of_nat (rank M F) - Z.of_nat (rank M G)))%P
          <$> filter (λ G, G ⊆ F) fl)).
Proof.
  intros Hnd Hd.
  change ((λ F, (F, rank M F)) <$> fl) with (tab fl (rank M)).
  rewrite dict_of_list_tab by done.
  apply foldM_append. intros acc F HF.
  rewrite order_filter_reln, order_ideal_reln.
  rewrite (foldM_psum d x).
  2:{ intros G [_ HG]%list_elem_of_filter. by apply Hd. }
  simpl. fold (psum (x <$> filter (λ H, F ⊆ H) fl)).
  rewrite <-(bind_singleton _ (filter (λ G, G ⊆ F) fl)).
  apply foldM_append. intros acc' G [_ HG]%list_elem_of_filter.
  rewrite Hd by done. simpl. by rewrite !dict_get_tab.
Qed.

(** The list that the default path builds, in any ring. *)
Lemma nonaug_groebner_basis_list M I (algorithm : string)
    (args : extra_args) :
  NoDup (nonempty_flats M) → nonaug_init M = Ok I →
  algorithm = "" ∨ algorithm = "constructed" →
  let x := x_ (nonempty_flats M) in
  let fl := sorted size (nonempty_flats M) in
  nonaug_groebner_basis I algorithm args
  = Ok (((λ ab, one * x ab.1 * x ab.2)%P <$> incomparable_pairs fl)
        ++ (fl ≫= λ F,
             (λ G, x G * psum (x <$> filter (λ H, F ⊆ H) fl)
                           ^ (Z.of_nat (rank M F) - Z.of_nat (rank M G)))%P
             <$> filter (λ G, G ⊆ F) fl)).
Proof.
  intros Hfl HI Halg x fl.
  assert (fl ≡ₚ nonempty_flats M) as Hperm by apply sorted_perm.
  assert (NoDup fl) as Hnd by (by rewrite Hperm).
  destruct (nonaug_init_inv M I Hfl HI) as (HM & Hfg & _ & _).
  assert (∀ F, F ∈ fl → dict_get (na_flats_generator I) F = Ok (x F)) as Hd.
  { intros F HF. rewrite Hfg. apply dict_get_tab. by rewrite <-Hperm. }
  unfold nonaug_groebner_basis.
  assert ((if decide (algorithm = "") then "constructed" else algorithm)
          = "constructed") as ->.
  { destruct Halg as [-> | ->]; done. }
  rewrite decide_False by (intros Hne; by apply Hne).
  rewrite HM, Hfg, tab_keys. fold fl. rewrite <-Hfg.
  rewrite (antichain_terms fl _ x) by done. simpl.
  rewrite (nonaug_basis_loop M fl _ x) by done. simpl.
  unfold PolynomialSequence. simpl. by rewrite app_nil_r.
Qed.

(** C1. For every matroid and ring, [groebner_basis] of
    [ChowRingIdeal_nonaug] with the default algorithm ([''] or
    ['constructed']) returns the monomials [x_F * x_G] of the incomparable
    pairs of flats, each unordered pair once, followed by, for the flats
    [F] of rank at least 1 in order of increasing size and for every flat
    [G <= F] ([G = F] included), the polynomial
    [x_G * (sum of x_H over the flats H >= F) ^ (rank(F) - rank(G))]. *)
Theorem nonaug_groebner_basis_closed_form `{!PolyRingLaws PR} M I
    (algorithm : string) (args : extra_args) :
  NoDup (nonempty_flats M) → nonaug_init M = Ok I →
  algorithm = "" ∨ algorithm = "constructed" →
  sorted size (nonempty_flats M) ≡ₚ nonempty_flats M
  ∧ Sorted (λ F G, size F ≤ size G) (sorted size (nonempty_flats M))
  ∧ each_incomparable_pair_once (sorted size (nonempty_flats M))
      (incomparable_pairs (sorted size (nonempty_flats M)))
  ∧ nonaug_groebner_basis I algorithm args = Ok (nonaug_basis M).
Proof.
  intros Hfl HI Halg. unfold nonaug_basis, sum_above.
  set (x := x_ (nonempty_flats M)).
  set (fl := sorted size (nonempty_flats M)).
  assert (fl ≡ₚ nonempty_flats M) as Hperm by apply sorted_perm.
  assert (NoDup fl) as Hnd by (by rewrite Hperm).
  split; [done|]. split; [apply sorted_Sorted|].
  split; [by apply incomparable_pairs_once|].
  destruct (nonaug_init_inv M I Hfl HI) as (HM & Hfg & _ & _).
  assert (∀ F, F ∈ fl → dict_get (na_flats_generator I) F = Ok (x F)) as Hd.
  { intros F HF. rewrite Hfg. apply dict_get_tab. by rewrite <-Hperm. }
  unfold nonaug_groebner_basis.
  assert ((if decide (algorithm = "") then "constructed" else algorithm)
          = "constructed") as ->.
  { destruct Halg as [-> | ->]; done. }
  rewrite decide_False by (intros Hne; by apply Hne).
  rewrite HM, Hfg, tab_keys. fold fl. rewrite <-Hfg.
  rewrite (antichain_terms fl _ x), pair_products_one by done. simpl.
  rewrite (nonaug_basis_loop M fl _ x) by done. simpl.
  unfold PolynomialSequence. simpl. by rewrite app_nil_r.
Qed.
End nonaug_facts.

(** ** The augmented ideal, Feichtner-Yuzvinsky presentation *)

Section fy_facts.
Context {E : Type} `{Countable E} `{PR : PolyRing} `{!Collaborators E}.
Implicit Types (M : Matroid E) (F G : gset E) (fl : list (gset E)).

Lemma flats_containing_of_tab (E_ : list E) fl :
  NoDup E_ → (∀ F e, F ∈ fl → e ∈ F → e ∈ E_) →
  flats_containing_of E_ fl = Ok (tab E_ (λ e, filter (λ F, e ∈ F) fl)).
Proof.
  intros Hnd Hsub. unfold flats_containing_of.
  change ((λ x, (x, [])) <$> E_) with (tab E_ (λ _ : E, @nil (gset E))).
  rewrite dict_of_list_tab by done.
  rewrite (foldM_tab _ (λ f F e, if decide (e ∈ F) then f e ++ [F] else f e)).
  - apply (f_equal Ok), tab_ext. intros e _.
    rewrite (fold_left_pointwise _
               (λ e l F, if decide (e ∈ F) then l ++ [F] else l)) by done.
    by rewrite (fold_left_filter_snoc (λ F, e ∈ F)).
  - intros f F HF.
    rewrite (foldM_ext _ (λ d e, if decide True
                                 then l ← dict_get d e;
                                      Ok (dict_set d e ((λ _ l, l ++ [F]) e l))
                                 else Ok d)) by done.
    rewrite (foldM_update_tab (λ _, True)); [|done|apply NoDup_elements|].
    + apply (f_equal Ok), tab_ext. intros e _.
      destruct (decide (e ∈ F)) as [He|He].
      * rewrite decide_True; [done|]. by rewrite elem_of_elements.
      * rewrite decide_False; [done|]. by rewrite elem_of_elements; intros [? _].
    + intros e He%elem_of_elements. by eapply Hsub.
Qed.
Lemma incomparable_iff F G : ¬ (F ⊆ G ∨ G ⊂ F) ↔ F ⊈ G ∧ G ⊈ F.
Proof.
  split.
  - intros Hn. split; [tauto|]. intros HGF. apply Hn.
    destruct (decide (F ⊆ G)); [by left|by right].
  - intros [HFG HGF] [?|[? _]]; done.
Qed.

(** The loop over [G] that collects the products of [x_F] with the flats
    incomparable to [F]. *)
Lemma incomparable_products {K} `{EqDecision K} (key : gset E → K)
    (d : dict K poly) (x : gset E → poly) fl F (Q : list poly) :
  F ∈ fl → (∀ G, G ∈ fl → dict_get d (key G) = Ok (x G)) →
  foldM (λ Q G,
      if decide (¬ (F ⊆ G ∨ G ⊂ F)) then
        xF ← dict_get d (key F);
        xG ← dict_get d (key G);
        Ok (Q ++ [xF * xG]%P)
      else Ok Q)
    Q fl
  = Ok (Q ++ ((λ G, x F * x G)%P <$> filter (λ G, F ⊈ G ∧ G ⊈ F) fl)).
Proof.
  intros HF Hd.
  rewrite (foldM_append _
    (λ G, if decide (¬ (F ⊆ G ∨ G ⊂ F)) then [x F * x G]%P else [])).
  - rewrite (bind_if_filter (λ G, ¬ (F ⊆ G ∨ G ⊂ F))).
    do 3 f_equal. apply list_filter_iff, incomparable_iff.
  - intros acc G HG. destruct (decide _); [|by rewrite app_nil_r].
    by rewrite !Hd.
Qed.

Lemma fy_gens_constructor_tab M fl (d : dict (E + gset E) poly)
    (x : gset E → poly) (y : E → poly) (S : MPolynomialRing) :
  NoDup (groundset M) → (∀ F e, F ∈ fl → e ∈ F → e ∈ groundset M) →
  (∀ F, F ∈ fl → dict_get d (inr F) = Ok (x F)) →
  (∀ e, e ∈ groundset M → dict_get d (inl e) = Ok (y e)) →
  fy_gens_constructor M fl d S
  = Ok ((fl ≫= λ F, (λ G, x F * x G)%P <$> filter (λ G, F ⊈ G ∧ G ⊈ F) fl)
        ++ (groundset M ≫= λ e, (λ F, y e * x F)%P <$> filter (λ F, e ∉ F) fl)
        ++ [psum (x <$> fl)]
        ++ ((λ e, y e + psum (x <$> filter (λ F, e ∈ F) fl))%P
              <$> groundset M)).
Proof.
  intros HE Hsub Hx Hy. unfold fy_gens_constructor.
  rewrite flats_containing_of_tab by done. simpl.
  rewrite (foldM_Ok _ (λ st F,
    ((st.1 + x F)%P,
     st.2 ++ ((λ G, x F * x G)%P <$> filter (λ G, F ⊈ G ∧ G ⊈ F) fl)))).
  2:{ intros [term Q] F HF.
      rewrite (incomparable_products inr d x) by done.
      by rewrite Hx. }
  rewrite (fold_left_pair (λ t F, (t + x F)%P)
             (λ Q F, Q ++ ((λ G, x F * x G)%P
                             <$> filter (λ G, F ⊈ G ∧ G ⊈ F) fl))).
  rewrite fold_left_append. simpl.
  rewrite (foldM_Ok _ (λ st e,
    (st.1 ++ ((λ F, y e * x F)%P <$> filter (λ F, e ∉ F) fl),
     st.2 ++ [y e + psum (x <$> filter (λ F, e ∈ F) fl)]%P))).
  2:{ intros [Q L] e He.
      rewrite (foldM_Ok _ (λ st F,
        ((if decide (e ∈ F) then st.1 + x F else st.1)%P,
         st.2 ++ (if decide (e ∉ F) then [y e * x F]%P else [])))).
      2:{ intros [term Q'] F HF. rewrite dict_get_tab by done. simpl.
          destruct (decide (_ ∉ filter _ _)) as [Hn|Hn].
          - rewrite Hy, Hx by done. simpl.
            rewrite decide_False, decide_True, ?app_nil_r; [done|..];
              intros ?; apply Hn; by apply list_elem_of_filter.
          - rewrite Hx by done. simpl.
            assert (e ∈ F) as HeF.
            { destruct (decide (e ∈ F)) as [|HeF]; [done|].
              exfalso. apply Hn. by intros [? _]%list_elem_of_filter. }
            rewrite decide_True by done.
            rewrite decide_False by (intros ?; done).
            by rewrite app_nil_r. }
      rewrite (fold_left_pair
                 (λ t F, if decide (e ∈ F) then (t + x F)%P else t)
                 (λ Q F, Q ++ (if decide (e ∉ F) then [y e * x F]%P else []))).
      rewrite fold_left_append, (bind_if_filter (λ F, e ∉ F)).
      rewrite (fold_left_add_filter (λ F, e ∈ F)). simpl.
      by rewrite Hy. }
  rewrite (fold_left_pair
             (λ Q e, Q ++ ((λ F, y e * x F)%P <$> filter (λ F, e ∉ F) fl))
             (λ L e, L ++ [y e + psum (x <$> filter (λ F, e ∈ F) fl)]%P)).
  rewrite !fold_left_append, bind_singleton, fold_left_add_fmap. simpl.
  by rewrite <-app_assoc.
Qed.
Lemma gens_lookup (S : MPolynomialRing) (i : nat) :
  i < ngens S → gens S !! i = Some (gen i).
Proof.
  intros Hi. unfold gens. rewrite list_lookup_fmap, lookup_seq_lt by done.
  done.
Qed.

(** [for i, a in enumerate(l): d[key(a)] = gs[pos(i)]] *)
Lemma foldM_enumerate_dict {A K} `{EqDecision K} (gs : list poly)
    (key : A → K) (pos : nat → nat) (l : list A) (k : nat)
    (d0 : dict K poly) :
  (∀ i, i < length l → gs !! pos (k + i) = Some (gen (pos (k + i)))) →
  NoDup (d0.*1 ++ (key <$> l)) →
  foldM (λ d ia, v ← getitem gs (pos ia.1); Ok (dict_set d (key ia.2) v))
    d0 (imap (λ i a, (k + i, a)) l)
  = Ok (d0 ++ imap (λ i a, (key a, gen (pos (k + i)))) l).
Proof.
  revert k d0. induction l as [|a l IH]; intros k d0 Hgs Hnd.
  - simpl. by rewrite app_nil_r.
  - simpl. unfold getitem. rewrite (Hgs 0) by (simpl; lia). simpl.
    rewrite dict_set_fresh.
    2:{ apply NoDup_app in Hnd as (_ & Hd & _). intros Hin.
        apply (Hd _ Hin). left. }
    rewrite (imap_ext _ (λ i a, (S k + i, a)))
      by (intros; simpl; f_equal; lia).
    rewrite IH.
    + rewrite <-app_assoc. simpl. do 3 f_equal.
      apply imap_ext. intros i b _. simpl. do 3 f_equal. lia.
    + intros i Hi. replace (S k + i) with (k + S i) by lia.
      apply Hgs. simpl. lia.
    + rewrite fmap_app, <-app_assoc. done.
Qed.

Lemma fy_keys_NoDup (E_ : list E) fl :
  NoDup E_ → NoDup fl →
  NoDup ((inl <$> E_) ++ (inr <$> fl) : list (E + gset E)).
Proof.
  intros HE Hfl. apply NoDup_app. split; [|split].
  - apply NoDup_fmap_2; [apply _|done].
  - intros k (e & -> & _)%list_elem_of_fmap (F & [=] & _)%list_elem_of_fmap.
  - apply NoDup_fmap_2; [apply _|done].
Qed.

Lemma fy_flats_generator_tab (E_ : list E) fl (S : MPolynomialRing) :
  NoDup E_ → NoDup fl → ngens S = length E_ + length fl →
  (d ← foldM (λ fg ix,
          g ← getitem (gens S) ix.1; Ok (dict_set fg (inl ix.2) g))
        [] (enumerate E_);
   foldM (λ fg iF,
       g ← getitem (gens S) (length E_ + iF.1);
       Ok (dict_set fg (inr iF.2) g))
     d (enumerate fl))
  = Ok (tab ((inl <$> E_) ++ (inr <$> fl)) (fy_var E_ fl)).
Proof.
  intros HE Hfl Hn. unfold enumerate.
  pose proof (fy_keys_NoDup E_ fl HE Hfl) as Hnd.
  rewrite (foldM_enumerate_dict (gens S) inl (λ i, i) E_ 0).
  2:{ intros i Hi. apply gens_lookup. simpl. lia. }
  2:{ simpl. by apply NoDup_app in Hnd as (? & _). }
  simpl.
  rewrite (foldM_enumerate_dict (gens S) inr (λ i, length E_ + i) fl 0).
  2:{ intros i Hi. apply gens_lookup. simpl. lia. }
  2:{ rewrite fmap_imap. simpl.
      rewrite (imap_ext _ (const inl)) by done.
      by rewrite imap_const. }
  apply (f_equal Ok). unfold tab. rewrite fmap_app, <-!list_fmap_compose.
  rewrite !imap_index_of by done. done.
Qed.
Lemma fy_var_get (E_ : list E) fl :
  (∀ F, F ∈ fl →
     dict_get (tab ((inl <$> E_) ++ (inr <$> fl)) (fy_var E_ fl)) (inr F)
     = Ok (x_from (length E_) fl F))
  ∧ (∀ e, e ∈ E_ →
       dict_get (tab ((inl <$> E_) ++ (inr <$> fl)) (fy_var E_ fl)) (inl e)
       = Ok (y_ E_ e)).
Proof.
  split; intros k Hk; rewrite dict_get_tab; try done;
    rewrite elem_of_app, !list_elem_of_fmap; [right|left]; by exists k.
Qed.

Lemma fy_init_unfold M :
  NoDup (groundset M) → NoDup (all_flats M) →
  fy_init M
  = gs ← fy_gens_constructor M (all_flats M)
          (tab ((inl <$> groundset M) ++ (inr <$> all_flats M))
             (fy_var (groundset M) (all_flats M)))
          {| variable_names :=
               let names := ((λ x, "A" +:+ str x) <$> groundset M)
                            ++ (flat_name "B" <$> all_flats M) in
               if certify_names names then names
               else (λ i, "A" +:+ pretty i)
                      <$> seq 0 (length (groundset M) + length (all_flats M)) |};
    Ok {| fy_matroid := M; fy_flats := all_flats M;
          fy_flats_generator :=
            tab ((inl <$> groundset M) ++ (inr <$> all_flats M))
              (fy_var (groundset M) (all_flats M));
          fy_ring :=
            {| variable_names :=
               let names := ((λ x, "A" +:+ str x) <$> groundset M)
                            ++ (flat_name "B" <$> all_flats M) in
               if certify_names names then names
               else (λ i, "A" +:+ pretty i)
                      <$> seq 0 (length (groundset M) + length (all_flats M)) |};
          fy_gens := gs |}.
Proof.
  intros HE Hfl. unfold fy_init. fold (all_flats M).
  destruct (ring_fallback
              (((λ x, "A" +:+ str x) <$> groundset M)
               ++ (flat_name "B" <$> all_flats M))
              (length (groundset M) + length (all_flats M)))
    as ([names] & HS & Hn & Hnames).
  { by rewrite length_app, !length_fmap. }
  simpl in HS. rewrite HS. simpl in Hnames. subst names. simpl.
  pose proof (fy_flats_generator_tab (groundset M) (all_flats M) _ HE Hfl Hn)
    as Hfg.
  match type of Hfg with
  | ?m ≫= _ = _ => destruct m as [d|e]; [|done]
  end.
  simpl in *. by rewrite Hfg.
Qed.

Lemma fy_init_total M :
  NoDup (groundset M) → NoDup (all_flats M) →
  (∀ F e, F ∈ all_flats M → e ∈ F → e ∈ groundset M) →
  ∃ I, fy_init M = Ok I.
Proof.
  intros HE Hfl Hsub.
  destruct (fy_var_get (groundset M) (all_flats M)) as [Hx Hy].
  rewrite fy_init_unfold by done.
  rewrite (fy_gens_constructor_tab M (all_flats M) _
             (x_from (length (groundset M)) (all_flats M))
             (y_ (groundset M))) by done.
  simpl. by eexists.
Qed.

(** C3. For every matroid and ring, the constructor of
    [AugmentedChowRingIdeal_fy] enumerates the flats of rank 0 to
    [rank(M)] and registers these generators: [x_F * x_G] for the
    incomparable flats [F], [G]; [y_e * x_F] for every groundset element
    [e] and every flat [F] that does not contain [e]; the sum of the
    indeterminates of all flats; and [y_e + (sum of x_F over the flats F
    that contain e)] for every groundset element [e]. The groundset and
    the flats are lists without repetition and the flats are subsets of
    the groundset, as the matroid returns them. *)
Theorem fy_init_generators M :
  NoDup (groundset M) → NoDup (all_flats M) →
  (∀ F e, F ∈ all_flats M → e ∈ F → e ∈ groundset M) →
  ∃ I, fy_init M = Ok I
    ∧ fy_flats I = all_flats M
    ∧ (∀ F, F ∈ all_flats M →
         dict_get (fy_flats_generator I) (inr F)
         = Ok (x_from (length (groundset M)) (all_flats M) F))
    ∧ (∀ e, e ∈ groundset M →
         dict_get (fy_flats_generator I) (inl e) = Ok (y_ (groundset M) e))
    ∧ fy_gens I = fy_generators M.
Proof.
  intros HE Hfl Hsub. unfold fy_generators, sum_containing.
  set (fl := all_flats M) in *.
  set (x := x_from (length (groundset M)) fl). set (y := y_ (groundset M)).
  destruct (fy_var_get (groundset M) fl) as [Hx Hy].
  rewrite fy_init_unfold by done. fold fl.
  rewrite (fy_gens_constructor_tab M fl _ x y) by done. simpl.
  eexists. split; [done|]. simpl. done.
Qed.
Lemma fy_basis_list M (I : AugmentedChowRingIdeal_fy)
    (x : gset E → poly) (y : E → poly) :
  fy_matroid I = M →
  (∀ F, F ∈ fy_flats I → dict_get (fy_flats_generator I) (inr F) = Ok (x F)) →
  (∀ e, e ∈ groundset M →
     dict_get (fy_flats_generator I) (inl e) = Ok (y e)) →
  fy_groebner_basis I "constructed"
  = λ _, Ok (fy_flats I ≫= λ F, fy_flats I ≫= λ G,
               (if decide (F ⊈ G ∧ G ⊈ F) then [x F * x G]%P else [])
               ++ (groundset M ≫= fy_basis_step M x y (fy_flats I) F G)).
Proof.
  intros HM Hx Hy. unfold fy_groebner_basis. simpl. rewrite HM.
  set (fl := fy_flats I) in *. set (d := fy_flats_generator I) in *.
  rewrite (foldM_append _ (λ F, fl ≫= λ G,
    (if decide (F ⊈ G ∧ G ⊈ F) then [x F * x G]%P else [])
    ++ (groundset M ≫= fy_basis_step M x y fl F G))).
  { unfold PolynomialSequence. simpl. by rewrite app_nil_r. }
  intros gb F HF. apply foldM_append. intros gb' G HG.
  assert ((if decide (¬ (F ⊆ G ∨ G ⊆ F)) then
             xF ← dict_get d (inr F); xG ← dict_get d (inr G);
             Ok (gb' ++ [xF * xG]%P)
           else Ok gb')
          = Ok (gb' ++ (if decide (F ⊈ G ∧ G ⊈ F)
                        then [x F * x G]%P else []))) as ->.
  { destruct (decide (¬ (F ⊆ G ∨ G ⊆ F))) as [Hn|Hn].
    - rewrite !Hx by done. simpl. rewrite decide_True; [done|]. tauto.
    - rewrite decide_False, app_nil_r; [done|]. tauto. }
  simpl. rewrite app_assoc. apply foldM_append. intros gb'' i Hi.
  rewrite (foldM_Ok _ (λ st H,
    ((if decide (i ∈ H) then st.1 + x H else st.1)%P,
     (if decide (G ⊆ H) then st.2 + x H else st.2)%P))).
  2:{ intros [t t1] H' HH'. simpl.
      destruct (decide (i ∈ H')), (decide (G ⊆ H'));
        rewrite ?Hx by done; done. }
  rewrite (fold_left_pair
             (λ t H, if decide (i ∈ H) then (t + x H)%P else t)
             (λ t H, if decide (G ⊆ H) then (t + x H)%P else t)).
  rewrite (fold_left_add_filter (λ H, i ∈ H)).
  rewrite (fold_left_add_filter (λ H, G ⊆ H)). simpl.
  fold (psum (x <$> filter (λ H, i ∈ H) fl)).
  fold (psum (x <$> filter (λ H, G ⊆ H) fl)).
  fold (sum_containing x fl i). fold (sum_above x fl G).
  unfold fy_basis_step.
  destruct (decide (sum_containing x fl i ≠ zero)),
    (decide (sum_above x fl G ≠ zero)), (decide (F ⊂ G));
    rewrite ?Hy, ?Hx by done; simpl;
    by rewrite ?app_nil_r, <-?app_assoc.
Qed.
Lemma fy_init_inv M I :
  NoDup (groundset M) → NoDup (all_flats M) → fy_init M = Ok I →
  fy_matroid I = M
  ∧ fy_flats I = all_flats M
  ∧ fy_flats_generator I
    = tab ((inl <$> groundset M) ++ (inr <$> all_flats M))
        (fy_var (groundset M) (all_flats M))
  ∧ ngens (fy_ring I) = length (groundset M) + length (all_flats M).
Proof.
  intros HE Hfl. rewrite fy_init_unfold by done.
  destruct (fy_gens_constructor _ _ _ _) as [gs|e]; [|done].
  simpl. intros [= <-]. simpl. repeat split.
  unfold ngens. simpl. destruct (certify_names _).
  - by rewrite length_app, !length_fmap.
  - by rewrite length_fmap, length_seq.
Qed.

Lemma psum_nonzero_inv (l : list poly) : psum l ≠ zero → l ≠ [].
Proof. by intros Hne ->. Qed.

(** On a matroid with at least one groundset element, the polynomials
    of the sequence that [groebner_basis] of
    [AugmentedChowRingIdeal_fy] returns with the default algorithm are
    those of four families: [x_F * x_G] for the incomparable flats [F],
    [G]; [y_i + term_i] for the groundset elements [i] with
    [term_i = sum of x_H over the flats H that contain i] nonzero;
    [term1_G ^ (rank(G) + 1)] for the flats [G] with
    [term1_G = sum of x_H over the flats H >= G] nonzero; and
    [x_F * term1_G ^ (rank(G) - rank(F))] for the flats [F < G] with
    [term1_G] nonzero. *)
Theorem fy_groebner_basis_families M I (algorithm : string)
    (args : extra_args) :
  groundset M ≠ [] →
  NoDup (groundset M) → NoDup (all_flats M) → fy_init M = Ok I →
  algorithm = "" ∨ algorithm = "constructed" →
  ∃ gb, fy_groebner_basis I algorithm args = Ok gb
        ∧ ∀ p, p ∈ gb ↔ fy_basis_family M p.
Proof.
  intros HE0 HE Hfl HI Halg.
  destruct (fy_init_inv M I HE Hfl HI) as (HM & Hflats & Hfg & _).
  destruct (fy_var_get (groundset M) (all_flats M)) as [Hx Hy].
  assert (fy_groebner_basis I algorithm = fy_groebner_basis I "constructed")
    as -> by (by destruct Halg as [-> | ->]).
  pose proof (fy_basis_list M I (x_from (length (groundset M)) (all_flats M))
                (y_ (groundset M)) HM) as Hlist.
  rewrite Hflats, Hfg in Hlist. rewrite (Hlist Hx Hy).
  eexists. split; [done|]. intros p. unfold fy_basis_family.
  set (fl := all_flats M). set (x := x_from _ fl). set (y := y_ _).
  rewrite list_elem_of_bind. split.
  - intros (F & (G & Hp & HG)%list_elem_of_bind & HF).
    apply elem_of_app in Hp as [Hp|(i & Hp & Hi)%list_elem_of_bind].
    { destruct (decide _) as [[? ?]|]; [|by apply elem_of_nil in Hp].
      apply list_elem_of_singleton in Hp. left. by exists F, G. }
    unfold fy_basis_step in Hp. rewrite !elem_of_app in Hp.
    destruct Hp as [Hp|[Hp|Hp]].
    + destruct (decide _); [|by apply elem_of_nil in Hp].
      apply list_elem_of_singleton in Hp. right. left. by exists i.
    + destruct (decide _); [|by apply elem_of_nil in Hp].
      apply list_elem_of_singleton in Hp. right. right. left. by exists G.
    + destruct (decide (F ⊂ G)); [|by apply elem_of_nil in Hp].
      destruct (decide _); [|by apply elem_of_nil in Hp].
      apply list_elem_of_singleton in Hp. do 3 right. by exists F, G.
  - intros [(F & G & HF & HG & HFG & HGF & ->)
           |[(i & Hi & Hne & ->)
            |[(G & HG & Hne & ->)|(F & G & HF & HG & HFG & Hne & ->)]]].
    + exists F. split; [|done]. apply list_elem_of_bind. exists G.
      split; [|done]. apply elem_of_app. left.
      rewrite decide_True by done. left.
    + assert (∃ F, F ∈ fl) as [F HF].
      { destruct fl as [|F ?] eqn:Hfl'; [|exists F; left].
        by destruct (psum_nonzero_inv _ Hne). }
      exists F. split; [|done]. apply list_elem_of_bind. exists F.
      split; [|done]. apply elem_of_app. right.
      apply list_elem_of_bind. exists i. split; [|done].
      unfold fy_basis_step. apply elem_of_app. left.
      rewrite decide_True by done. left.
    + destruct (groundset M) as [|i E'] eqn:HEq; [done|].
      exists G. split; [|done]. apply list_elem_of_bind. exists G.
      split; [|done]. apply elem_of_app. right.
      apply list_elem_of_bind. exists i. split; [|left].
      unfold fy_basis_step. rewrite !elem_of_app. right. left.
      rewrite decide_True by done. left.
    + destruct (groundset M) as [|i E'] eqn:HEq; [done|].
      exists F. split; [|done]. apply list_elem_of_bind. exists G.
      split; [|done]. apply elem_of_app. right.
      apply list_elem_of_bind. exists i. split; [|left].
      unfold fy_basis_step. rewrite !elem_of_app. right. right.
      rewrite !decide_True by done. left.
Qed.
End fy_facts.

(** ** The augmented ideal, atom-free presentation *)

Section af_facts.
Context {E : Type} `{Countable E} `{PR : PolyRing} `{!Collaborators E}.
Implicit Types (M : Matroid E) (F G : gset E) (fl : list (gset E)).

Lemma af_init_unfold M :
  NoDup (nonempty_flats M) →
  ∃ S, ngens S = length (nonempty_flats M)
    ∧ af_init M
      = gs ← af_gens_constructor M (nonempty_flats M)
              (tab (nonempty_flats M) (x_ (nonempty_flats M))) S;
        Ok {| af_matroid := M; af_flats := nonempty_flats M;
              af_flats_generator :=
                tab (nonempty_flats M) (x_ (nonempty_flats M));
              af_ring := S; af_gens := gs |}.
Proof.
  intros Hnd. unfold af_init. fold (nonempty_flats M).
  destruct (ring_fallback (flat_name "A" <$> nonempty_flats M)
              (length (nonempty_flats M))) as (S & -> & Hn & _).
  { by rewrite length_fmap. }
  exists S. split; [done|]. simpl. by rewrite gens_zip_tab.
Qed.

Lemma af_init_inv M I :
  NoDup (nonempty_flats M) → af_init M = Ok I →
  af_matroid I = M
  ∧ af_flats I = nonempty_flats M
  ∧ af_flats_generator I = tab (nonempty_flats M) (x_ (nonempty_flats M))
  ∧ ngens (af_ring I) = length (nonempty_flats M).
Proof.
  intros Hnd. destruct (af_init_unfold M Hnd) as (S & Hn & ->).
  destruct (af_gens_constructor _ _ _ _) as [gs|e]; [|done].
  simpl. by intros [= <-].
Qed.

Lemma af_basis_list M (I : AugmentedChowRingIdeal_atom_free)
    (x : gset E → poly) :
  af_matroid I = M →
  (∀ F, F ∈ af_flats I → dict_get (af_flats_generator I) F = Ok (x F)) →
  af_groebner_basis I "constructed"
  = λ _, Ok (af_flats I ≫= λ F, af_flats I ≫= λ G,
               (if decide (F ⊈ G ∧ G ⊈ F) then [x F * x G]%P
                else if decide (F ⊂ G) then
                  if decide (sum_strictly_below x (af_flats I) F ≠ zero)
                  then [x F * sum_strictly_below x (af_flats I) F
                                ^ (Z.of_nat (rank M G) - Z.of_nat (rank M F))]%P
                  else []
                else [])
               ++ [sum_strictly_below x (af_flats I) F
                     ^ Z.of_nat (rank M F) + one]%P).
Proof.
  intros HM Hx. unfold af_groebner_basis. simpl. rewrite HM.
  set (fl := af_flats I) in *. set (d := af_flats_generator I) in *.
  rewrite (foldM_append _ (λ F, fl ≫= λ G,
    (if decide (F ⊈ G ∧ G ⊈ F) then [x F * x G]%P
     else if decide (F ⊂ G) then
       if decide (sum_strictly_below x fl F ≠ zero)
       then [x F * sum_strictly_below x fl F
                     ^ (Z.of_nat (rank M G) - Z.of_nat (rank M F))]%P
       else []
     else [])
    ++ [sum_strictly_below x fl F ^ Z.of_nat (rank M F) + one]%P)).
  { unfold PolynomialSequence. simpl. by rewrite app_nil_r. }
  intros gb F HF. apply foldM_append. intros gb' G HG.
  rewrite (foldM_Ok _ (λ t H, if decide (H ⊂ F) then (t + x H)%P else t)).
  2:{ intros t H' HH'. destruct (decide (H' ⊂ F)); [|done].
      by rewrite Hx. }
  rewrite (fold_left_add_filter (λ H, H ⊂ F)). simpl.
  fold (psum (x <$> filter (λ H, H ⊂ F) fl)).
  fold (sum_strictly_below x fl F).
  destruct (decide (¬ (G ⊆ F ∨ F ⊂ G))) as [Hn|Hn].
  - rewrite !Hx by done. simpl.
    apply incomparable_iff in Hn. rewrite decide_True by tauto.
    by rewrite <-app_assoc.
  - rewrite (decide_False (P := F ⊈ G ∧ G ⊈ F)).
    2:{ intros ?. apply Hn, incomparable_iff. tauto. }
    destruct (decide (F ⊂ G)); [|done].
    destruct (decide (_ ≠ zero)); [|done].
    rewrite Hx by done. simpl. by rewrite <-app_assoc.
Qed.
Lemma af_basis_elem M (x : gset E → poly) fl (p : poly) :
  p ∈ (fl ≫= λ F, fl ≫= λ G,
         (if decide (F ⊈ G ∧ G ⊈ F) then [x F * x G]%P
          else if decide (F ⊂ G) then
            if decide (sum_strictly_below x fl F ≠ zero)
            then [x F * sum_strictly_below x fl F
                          ^ (Z.of_nat (rank M G) - Z.of_nat (rank M F))]%P
            else []
          else [])
         ++ [sum_strictly_below x fl F ^ Z.of_nat (rank M F) + one]%P)
  ↔ (∃ F G, F ∈ fl ∧ G ∈ fl ∧ F ⊈ G ∧ G ⊈ F ∧ p = (x F * x G)%P)
    ∨ (∃ F G, F ∈ fl ∧ G ∈ fl ∧ F ⊂ G ∧ sum_strictly_below x fl F ≠ zero
              ∧ p = (x F * sum_strictly_below x fl F
                             ^ (Z.of_nat (rank M G) - Z.of_nat (rank M F)))%P)
    ∨ (∃ F, F ∈ fl
            ∧ p = (sum_strictly_below x fl F ^ Z.of_nat (rank M F) + one)%P).
Proof.
  rewrite list_elem_of_bind. split.
  - intros (F & (G & Hp & HG)%list_elem_of_bind & HF).
    apply elem_of_app in Hp as [Hp|Hp%list_elem_of_singleton].
    + destruct (decide (F ⊈ G ∧ G ⊈ F)) as [[? ?]|].
      { apply list_elem_of_singleton in Hp. left. by exists F, G. }
      destruct (decide (F ⊂ G)); [|by apply elem_of_nil in Hp].
      destruct (decide _); [|by apply elem_of_nil in Hp].
      apply list_elem_of_singleton in Hp. right. left. by exists F, G.
    + right. right. by exists F.
  - intros [(F & G & HF & HG & HFG & HGF & ->)
           |[(F & G & HF & HG & HFG & Hne & ->)|(F & HF & ->)]].
    + exists F. split; [|done]. apply list_elem_of_bind. exists G.
      split; [|done]. apply elem_of_app. left.
      rewrite decide_True by done. left.
    + exists F. split; [|done]. apply list_elem_of_bind. exists G.
      split; [|done]. apply elem_of_app. left.
      rewrite decide_False by (intros [Hn _]; apply Hn, HFG).
      rewrite !decide_True by done. left.
    + exists F. split; [|done]. apply list_elem_of_bind. exists F.
      split; [|done]. apply elem_of_app. right. left.
Qed.

Lemma af_groebner_basis_spec M I (algorithm : string) (args : extra_args) :
  NoDup (nonempty_flats M) → af_init M = Ok I →
  algorithm = "" ∨ algorithm = "constructed" →
  ∃ gb, af_groebner_basis I algorithm args = Ok gb
        ∧ ∀ p, p ∈ gb ↔ af_basis_family M p.
Proof.
  intros Hfl HI Halg.
  destruct (af_init_inv M I Hfl HI) as (HM & Hflats & Hfg & _).
  assert (af_groebner_basis I algorithm = af_groebner_basis I "constructed")
    as -> by (by destruct Halg as [-> | ->]).
  rewrite (af_basis_list M I (x_ (nonempty_flats M)) HM).
  2:{ intros F HF. rewrite Hfg. apply dict_get_tab. by rewrite <-Hflats. }
  rewrite Hflats. eexists. split; [done|]. intros p. apply af_basis_elem.
Qed.

(** C5. For every matroid and ring, the polynomials of the sequence that
    [groebner_basis] of [AugmentedChowRingIdeal_atom_free] returns with
    the default algorithm are: [x_F * x_G] for the incomparable flats [F],
    [G] of rank at least 1; [x_F * down(F) ^ (rank(G) - rank(F))] for the
    flats [F < G] with [down(F) = sum of x_H over the flats H strictly
    below F] nonzero; and [down(F) ^ rank(F) + 1] for every flat [F] of
    rank at least 1, constant term included. *)
Theorem af_groebner_basis_families M I (algorithm : string)
    (args : extra_args) :
  NoDup (nonempty_flats M) → af_init M = Ok I →
  algorithm = "" ∨ algorithm = "constructed" →
  ∃ gb, af_groebner_basis I algorithm args = Ok gb
        ∧ ∀ p, p ∈ gb ↔ af_basis_family M p.
Proof. apply af_groebner_basis_spec. Qed.

(** C10. For every matroid of rank at least 1 and every ring, the sequence
    that [groebner_basis] of [AugmentedChowRingIdeal_atom_free] returns
    with the default algorithm contains the constant polynomial 1: for a
    flat [F] of rank 1 the sum [down(F)] over the flats strictly below [F]
    is the zero polynomial, and [down(F) ^ rank(F) + 1] is
    [0 ^ 1 + 1 = 1]; so 1 is in the ideal that the sequence generates. *)
Theorem af_groebner_basis_contains_one `{!PolyRingLaws PR} M
    `{!MatroidAxioms M} I (algorithm : string) (args : extra_args) :
  1 ≤ full_rank M → af_init M = Ok I →
  algorithm = "" ∨ algorithm = "constructed" →
  (∀ F, F ∈ flats M 1 →
     sum_strictly_below (x_ (nonempty_flats M)) (nonempty_flats M) F = zero)
  ∧ ∃ gb, af_groebner_basis I algorithm args = Ok gb
          ∧ one ∈ gb ∧ in_ideal gb one.
Proof.
  intros Hr HI Halg.
  assert (∀ F, F ∈ flats M 1 →
            sum_strictly_below (x_ (nonempty_flats M)) (nonempty_flats M) F
            = zero) as Hdown.
  { intros F HF. unfold sum_strictly_below.
    rewrite filter_none; [done|].
    intros H' HH'. by apply (below_atom_empty M). }
  split; [done|].
  destruct (af_groebner_basis_spec M I algorithm args
              (nonempty_flats_NoDup M) HI Halg) as (gb & Hgb & Hfam).
  exists gb. split; [done|].
  assert (one ∈ gb) as Hone.
  { apply Hfam. right. right.
    destruct (flats M 1) as [|F ?] eqn:HF1.
    { by destruct (flats_exist 1 Hr). }
    assert (F ∈ flats M 1) as HF by (rewrite HF1; left).
    exists F. split.
    - apply (nonempty_flats_elem M). rewrite (flats_rank 1 F HF).
      repeat split; [lia|exact Hr|exact HF].
    - rewrite Hdown by left. rewrite (flats_rank 1 F HF).
      change (Z.of_nat 1) with 1%Z. by rewrite pow_1, add_0_l. }
  split; [done|]. by apply in_ideal_elem.
Qed.
Lemma af_gens_constructor_pure M fl (x : gset E → poly)
    (S : MPolynomialRing) :
  NoDup (groundset M) → (∀ F e, F ∈ fl → e ∈ F → e ∈ groundset M) →
  af_gens_constructor M fl (tab fl x) S
  = Ok (fold_left (af_step_F x fl (groundset M)) fl []).
Proof.
  intros HE Hsub. unfold af_gens_constructor.
  rewrite flats_containing_of_tab by done. simpl.
  apply foldM_Ok. intros Q F HF.
  pose proof (incomparable_products (λ G, G) (tab fl x) x fl F Q HF) as Hinc.
  simpl in Hinc. rewrite Hinc by (intros; by apply dict_get_tab).
  simpl. apply foldM_Ok. intros Q' e He.
  rewrite !(dict_get_tab (groundset M)) by done. simpl.
  rewrite (foldM_psum _ x).
  2:{ intros G [_ HG]%list_elem_of_filter. by apply dict_get_tab. }
  simpl. fold (psum (x <$> filter (λ F, e ∈ F) fl)).
  fold (sum_containing x fl e). unfold af_step_e.
  destruct (decide (F ∉ filter (λ F, e ∈ F) fl)) as [Hn|Hn].
  - rewrite (dict_get_tab fl) by done. simpl.
    rewrite (decide_True (P := e ∉ F)); [done|].
    intros ?. apply Hn. by apply list_elem_of_filter.
  - rewrite (decide_False (P := e ∉ F)); [done|].
    intros ?. apply Hn. by intros [? _]%list_elem_of_filter.
Qed.

Lemma af_init_total M :
  NoDup (groundset M) → NoDup (nonempty_flats M) →
  (∀ F e, F ∈ nonempty_flats M → e ∈ F → e ∈ groundset M) →
  ∃ I, af_init M = Ok I.
Proof.
  intros HE Hfl Hsub. destruct (af_init_unfold M Hfl) as (S & Hn & ->).
  rewrite af_gens_constructor_pure by done. simpl. by eexists.
Qed.

Lemma af_step_e_elem (x : gset E → poly) fl F Q e (p : poly) :
  p ∈ af_step_e x fl F Q e
  ↔ p ∈ Q ∨ p = (sum_containing x fl e ^ 2%Z)%P
    ∨ ((e ∉ F) ∧ p = (x F * sum_containing x fl e)%P).
Proof.
  unfold af_step_e.
  destruct (decide (_ ∉ Q)) as [Hq|Hq], (decide (e ∉ F)) as [He|He];
    rewrite ?elem_of_app, ?list_elem_of_singleton.
  - tauto.
  - tauto.
  - apply dec_stable in Hq. split; [tauto|].
    intros [?|[->|?]]; tauto.
  - apply dec_stable in Hq. split; [tauto|].
    intros [?|[->|?]]; tauto.
Qed.

Lemma af_step_e_fold_elem (x : gset E → poly) fl F (E_ : list E) Q
    (p : poly) :
  p ∈ fold_left (af_step_e x fl F) E_ Q
  ↔ p ∈ Q ∨ ∃ e, e ∈ E_ ∧ (p = (sum_containing x fl e ^ 2%Z)%P
                            ∨ ((e ∉ F) ∧ p = (x F * sum_containing x fl e)%P)).
Proof.
  revert Q. induction E_ as [|e E_ IH]; intros Q; simpl.
  - split; [by left|]. intros [?|(e & ?%elem_of_nil & _)]; done.
  - rewrite IH, af_step_e_elem. split.
    + intros [[?|Hp]|(e' & He' & Hp)]; [by left| |].
      * right. exists e. split; [left|done].
      * right. exists e'. split; [by right|done].
    + intros [?|(e' & [->|He']%elem_of_cons & Hp)].
      * by do 2 left.
      * left. by right.
      * right. by exists e'.
Qed.

Lemma af_gens_elem (x : gset E → poly) fl (E_ : list E) (p : poly) :
  p ∈ fold_left (af_step_F x fl E_) fl []
  ↔ ∃ F, F ∈ fl
      ∧ ((∃ G, G ∈ fl ∧ F ⊈ G ∧ G ⊈ F ∧ p = (x F * x G)%P)
         ∨ ∃ e, e ∈ E_ ∧ (p = (sum_containing x fl e ^ 2%Z)%P
                          ∨ ((e ∉ F) ∧ p = (x F * sum_containing x fl e)%P))).
Proof.
  assert (∀ l Q,
    p ∈ fold_left (af_step_F x fl E_) l Q
    ↔ p ∈ Q ∨ ∃ F, F ∈ l
        ∧ ((∃ G, G ∈ fl ∧ F ⊈ G ∧ G ⊈ F ∧ p = (x F * x G)%P)
           ∨ ∃ e, e ∈ E_ ∧ (p = (sum_containing x fl e ^ 2%Z)%P
                            ∨ ((e ∉ F) ∧ p = (x F * sum_containing x fl e)%P))))
    as Hgen.
  { induction l as [|F l IH]; intros Q; simpl.
    - split; [by left|]. intros [?|(F & ?%elem_of_nil & _)]; done.
    - rewrite IH. unfold af_step_F at 1.
      rewrite af_step_e_fold_elem, elem_of_app, list_elem_of_fmap.
      setoid_rewrite list_elem_of_filter. split.
      + intros [[[?|(G & -> & [? ?] & ?)]|He]|(F' & HF' & Hp)].
        * by left.
        * right. exists F. split; [left|]. left. by exists G.
        * right. exists F. split; [left|]. by right.
        * right. exists F'. split; [by right|done].
      + intros [?|(F' & [->|HF']%elem_of_cons & Hp)].
        * by do 3 left.
        * left. destruct Hp as [(G & ? & ? & ? & ->)|He].
          -- left. right. by exists G.
          -- by right.
        * right. by exists F'. }
  rewrite Hgen. split; [|by right].
  intros [?%elem_of_nil|?]; done.
Qed.
(** The squares are appended only when they are not yet in the list: a
    polynomial that is none of the products occurs at most once. *)
Lemma af_step_e_occurrences (x : gset E → poly) fl F Q e (q : poly) :
  (e ∉ F → (x F * sum_containing x fl e)%P ≠ q) →
  occurrences q Q ≤ 1 → occurrences q (af_step_e x fl F Q e) ≤ 1.
Proof.
  intros Hsep HQ. unfold af_step_e.
  assert (occurrences q
            (if decide ((sum_containing x fl e ^ 2%Z)%P ∉ Q)
             then Q ++ [sum_containing x fl e ^ 2%Z]%P else Q) ≤ 1) as HQ'.
  { destruct (decide (_ ∉ Q)) as [Hq|Hq]; [|done].
    rewrite occurrences_app.
    destruct (decide ((sum_containing x fl e ^ 2%Z)%P = q)) as [<-|Hne].
    - rewrite (occurrences_not_elem _ Q) by done.
      unfold occurrences. by rewrite filter_cons, decide_True.
    - rewrite (occurrences_none _ [_]); [lia|].
      by intros b ->%list_elem_of_singleton. }
  destruct (decide (e ∉ F)) as [He|He]; [|done].
  rewrite occurrences_app, (occurrences_none _ [_]); [lia|].
  intros b ->%list_elem_of_singleton. by apply Hsep.
Qed.

Lemma af_gens_occurrences (x : gset E → poly) fl (E_ : list E) (q : poly) :
  (∀ F G, F ∈ fl → G ∈ fl → F ⊈ G → G ⊈ F → (x F * x G)%P ≠ q) →
  (∀ F e, F ∈ fl → e ∈ E_ → e ∉ F → (x F * sum_containing x fl e)%P ≠ q) →
  occurrences q (fold_left (af_step_F x fl E_) fl []) ≤ 1.
Proof.
  intros Hinc Hprod.
  assert (∀ F l Q, F ∈ fl → (∀ e, e ∈ l → e ∈ E_) → occurrences q Q ≤ 1 →
            occurrences q (fold_left (af_step_e x fl F) l Q) ≤ 1) as He.
  { intros F l. induction l as [|e l IH]; intros Q HF Hl HQ; [done|].
    simpl. apply IH; [done|intros; apply Hl; by right|].
    apply af_step_e_occurrences; [|done].
    apply Hprod; [done|]. apply Hl. left. }
  assert (∀ l Q, (∀ F, F ∈ l → F ∈ fl) → occurrences q Q ≤ 1 →
            occurrences q (fold_left (af_step_F x fl E_) l Q) ≤ 1) as HF.
  { induction l as [|F l IH]; intros Q Hl HQ; [done|].
    simpl. apply IH; [intros; apply Hl; by right|].
    unfold af_step_F. apply He; [apply Hl; left|done|].
    rewrite occurrences_app, (occurrences_none _ (_ <$> _)); [lia|].
    intros b (G & -> & [[? ?] ?]%list_elem_of_filter)%list_elem_of_fmap.
    apply Hinc; [apply Hl; left|done..]. }
  apply HF; [done|]. unfold occurrences. simpl. lia.
Qed.
(** *** The squares differ from the products

    Evaluating the indeterminate of one flat [T] at 1 and the others at 0
    tells the square of a sum that has [x_T] from the products. *)
Section separation.
Context `{!PolyRingLaws PR} `{!PolyRingEval PR}.
Context (fl : list (gset E)) (T : gset E).
Context (Hnd : NoDup fl) (HT : T ∈ fl) (Hone : (one : poly) ≠ zero).

Let v (i : nat) : bool := bool_decide (i = index_of T fl).

Lemma eval01_x F :
  F ∈ fl → eval01 v (x_ fl F) = if decide (F = T) then one else zero.
Proof.
  intros HF. unfold x_, x_from. rewrite eval01_gen. unfold v. simpl.
  destruct (decide (F = T)) as [->|Hne].
  - by rewrite bool_decide_eq_true_2.
  - rewrite bool_decide_eq_false_2; [done|].
    intros Heq. by apply Hne, (index_of_inj _ _ fl).
Qed.

Lemma eval01_fold_sum (l : list (gset E)) (acc : poly) :
  NoDup l → (∀ F, F ∈ l → F ∈ fl) →
  eval01 v (fold_left add (x_ fl <$> l) acc)
  = if decide (T ∈ l) then (eval01 v acc + one)%P else eval01 v acc.
Proof.
  intros Hl. revert acc.
  induction Hl as [|F l HF Hl IH]; intros acc Hsub; [done|].
  simpl. rewrite IH by (intros; apply Hsub; by right).
  rewrite eval01_add, eval01_x by (apply Hsub; left).
  destruct (decide (F = T)) as [->|Hne].
  - rewrite (decide_False (P := T ∈ l)) by done.
    rewrite decide_True; [done|left].
  - rewrite add_0_r. destruct (decide (T ∈ l)) as [Hin|Hin].
    + rewrite decide_True; [done|by right].
    + rewrite decide_False; [done|].
      by intros [?|?]%elem_of_cons.
Qed.

Lemma eval01_sum_containing e :
  eval01 v (sum_containing (x_ fl) fl e)
  = if decide (e ∈ T) then one else zero.
Proof.
  unfold sum_containing, psum. rewrite eval01_fold_sum.
  - rewrite eval01_zero. destruct (decide (e ∈ T)) as [He|He].
    + rewrite decide_True, add_0_l; [done|]. by apply list_elem_of_filter.
    + rewrite decide_False; [done|]. by intros [? _]%list_elem_of_filter.
  - by apply NoDup_filter.
  - by intros F [_ ?]%list_elem_of_filter.
Qed.

Lemma square_ne_incomparable e F G :
  e ∈ T → F ∈ fl → G ∈ fl → F ⊈ G →
  (x_ fl F * x_ fl G)%P ≠ (sum_containing (x_ fl) fl e ^ 2%Z)%P.
Proof.
  intros He HF HG HFG Heq. apply (f_equal (eval01 v)) in Heq.
  rewrite pow_2, !eval01_mul, eval01_sum_containing, !eval01_x in Heq
    by done.
  rewrite (decide_True (P := e ∈ T)), mul_1_l in Heq by done.
  destruct (decide (F = T)) as [->|?].
  - destruct (decide (G = T)) as [->|?]; [done|].
    rewrite mul_0_r in Heq. by apply Hone.
  - rewrite mul_0_l in Heq. by apply Hone.
Qed.

Lemma square_ne_product e F e' :
  e ∈ T → F ∈ fl → e' ∉ F →
  (x_ fl F * sum_containing (x_ fl) fl e')%P
  ≠ (sum_containing (x_ fl) fl e ^ 2%Z)%P.
Proof.
  intros He HF He' Heq. apply (f_equal (eval01 v)) in Heq.
  rewrite pow_2, !eval01_mul, !eval01_sum_containing, eval01_x in Heq
    by done.
  rewrite (decide_True (P := e ∈ T)), mul_1_l in Heq by done.
  destruct (decide (F = T)) as [->|?].
  - rewrite (decide_False (P := e' ∈ T)), mul_0_r in Heq by done.
    by apply Hone.
  - rewrite mul_0_l in Heq. by apply Hone.
Qed.
End separation.
(** C6, for a matroid of rank at least 1 and a ring in which 1 is not 0.
    The generator list that [_gens_constructor] of
    [AugmentedChowRingIdeal_atom_free] builds consists of [x_F * x_G] for
    the incomparable flats [F], [G] of rank at least 1, of [x_F * S_e] for
    every such flat [F] and every groundset element [e] that is not in
    [F], where [S_e] is the sum of [x_H] over the flats [H] that contain
    [e], and of the squares [S_e ^ 2]; each square occurs exactly once in
    the list, also when several elements have the same square. *)
Theorem af_init_generators `{!PolyRingLaws PR} `{!PolyRingEval PR} M
    `{!MatroidAxioms M} :
  (one : poly) ≠ zero → 1 ≤ full_rank M →
  ∃ I, af_init M = Ok I
    ∧ af_flats I = nonempty_flats M
    ∧ (∀ p, p ∈ af_gens I ↔ af_gens_family M p)
    ∧ ∀ e, e ∈ groundset M →
        occurrences
          (sum_containing (x_ (nonempty_flats M)) (nonempty_flats M) e ^ 2%Z)%P
          (af_gens I) = 1.
Proof.
  intros Hone Hr.
  pose proof (nonempty_flats_NoDup M) as Hnd.
  set (fl := nonempty_flats M) in *. set (x := x_ fl).
  set (T := list_to_set (groundset M) : gset E).
  assert (T ∈ fl) as HT by (by apply groundset_in_nonempty_flats).
  assert (∀ F e, F ∈ fl → e ∈ F → e ∈ groundset M) as Hsub.
  { intros F e [_ HF]%(nonempty_flats_elem M).
    by apply (flats_subset (rank M F)). }
  destruct (af_init_unfold M Hnd) as (S & Hn & ->). fold fl x.
  rewrite af_gens_constructor_pure by (done || apply groundset_NoDup).
  simpl. eexists. split; [done|]. simpl. split; [done|].
  assert (∀ p, p ∈ fold_left (af_step_F x fl (groundset M)) fl []
               ↔ af_gens_family M p) as Hfam.
  { intros p. rewrite af_gens_elem. unfold af_gens_family. fold fl x. split.
    - intros (F & HF & [(G & HG & ? & ? & ->)|(e & He & [->|[? ->]])]).
      + left. by exists F, G.
      + right. right. by exists e.
      + right. left. by exists F, e.
    - intros [(F & G & HF & HG & ? & ? & ->)
             |[(F & e & HF & He & ? & ->)|(e & He & ->)]].
      + exists F. split; [done|]. left. by exists G.
      + exists F. split; [done|]. right. exists e. split; [done|]. by right.
      + exists T. split; [done|]. right. exists e. split; [done|]. by left. }
  split; [done|]. intros e He.
  assert (e ∈ T) as HeT by (by apply elem_of_list_to_set).
  apply Nat.le_antisymm.
  - apply af_gens_occurrences.
    + intros F G HF HG HFG _.
      by apply (square_ne_incomparable fl T).
    + intros F e' HF _ He'. by apply (square_ne_product fl T).
  - apply occurrences_elem, Hfam. right. right. by exists e.
Qed.
Lemma af_init_eq (M : Matroid E) :
  NoDup (groundset M) → NoDup (nonempty_flats M) →
  (∀ F e, F ∈ nonempty_flats M → e ∈ F → e ∈ groundset M) →
  ∃ S, af_init M
       = Ok {| af_matroid := M; af_flats := nonempty_flats M;
               af_flats_generator :=
                 tab (nonempty_flats M) (x_ (nonempty_flats M));
               af_ring := S;
               af_gens :=
                 fold_left (af_step_F (x_ (nonempty_flats M))
                              (nonempty_flats M) (groundset M))
                   (nonempty_flats M) [] |}.
Proof.
  intros HE Hfl Hsub. destruct (af_init_unfold M Hfl) as (S & Hn & ->).
  rewrite af_gens_constructor_pure by done. simpl. by exists S.
Qed.

Lemma af_groebner_basis_default (I : AugmentedChowRingIdeal_atom_free) :
  af_groebner_basis I "" = af_groebner_basis I "constructed".
Proof. done. Qed.
End af_facts.

(** ** Naming fallback and dispatch on the algorithm *)

Section naming_and_dispatch.
Context {E : Type} `{Countable E} `{PR : PolyRing} `{!Collaborators E}.
Implicit Types (M : Matroid E) (F G : gset E) (fl : list (gset E)).

Lemma tab_values_gens {A} `{EqDecision A} (l : list A) (n : nat) :
  NoDup l →
  dict_values (tab l (λ a, gen (n + index_of a l))) = gen <$> seq n (length l).
Proof.
  intros Hnd. rewrite <-(zip_tab gen l n Hnd). unfold dict_values.
  apply snd_zip. by rewrite length_fmap, length_seq.
Qed.

Lemma ring_fallback_rejected (names : list string) (n : nat) :
  certify_names names = false →
  try_except_ValueError (PolynomialRing names) (PolynomialRing_indexed "A" n)
  = Ok {| variable_names := (λ i, "A" +:+ pretty i) <$> seq 0 n |}.
Proof. intros Hc. unfold PolynomialRing. by rewrite Hc. Qed.

(** C8, with the ring of the atom-free presentation as it is built, one
    indeterminate per enumerated flat. When the ring constructor rejects
    the canonical names, the constructors do not raise: the ring gets the
    indexed names [A0, A1, ...] for all its indeterminates; it has as many
    indeterminates as there are enumerated flats (non-augmented and
    atom-free ideals), or groundset elements and flats (Feichtner-Yuzvinsky
    presentation); and the keys of [_flats_generator], which are distinct,
    are mapped to the generators of the ring, one after the other. *)
Theorem naming_fallback M `{!MatroidAxioms M} :
  (certify_names (flat_name "A" <$> nonempty_flats M) = false →
   (∃ I, nonaug_init M = Ok I
         ∧ indexed_naming (length (nonempty_flats M)) (nonempty_flats M)
             (na_ring I) (na_flats_generator I))
   ∧ (∃ I, af_init M = Ok I
           ∧ indexed_naming (length (nonempty_flats M)) (nonempty_flats M)
               (af_ring I) (af_flats_generator I)))
  ∧ (certify_names (((λ x, "A" +:+ str x) <$> groundset M)
                    ++ (flat_name "B" <$> all_flats M)) = false →
     ∃ I, fy_init M = Ok I
          ∧ indexed_naming (length (groundset M) + length (all_flats M))
              ((inl <$> groundset M) ++ (inr <$> all_flats M))
              (fy_ring I) (fy_flats_generator I)).
Proof.
  pose proof (nonempty_flats_NoDup M) as Hnd.
  pose proof (all_flats_NoDup M) as Hnd'.
  pose proof (@groundset_NoDup _ _ _ M _) as HE.
  unfold indexed_naming. split.
  - intros Hc. split.
    + unfold nonaug_init. fold (nonempty_flats M).
      rewrite ring_fallback_rejected by done. simpl.
      rewrite gens_zip_tab; [|done|].
      2:{ unfold ngens. simpl. by rewrite length_fmap, length_seq. }
      rewrite nonaug_gens_constructor_tab by apply flats_NoDup.
      simpl. eexists. split; [done|]. simpl.
      rewrite tab_keys.
      split; [done|]. unfold gens, ngens. simpl.
      rewrite !length_fmap, !length_seq. repeat split; [done|].
      by apply (tab_values_gens (nonempty_flats M) 0).
    + unfold af_init. fold (nonempty_flats M).
      rewrite ring_fallback_rejected by done. simpl.
      rewrite gens_zip_tab; [|done|].
      2:{ unfold ngens. simpl. by rewrite length_fmap, length_seq. }
      rewrite af_gens_constructor_pure; [|done|].
      2:{ intros F e [_ HF]%(flats_of_ranks_elem M).
          by apply (flats_subset (rank M F)). }
      simpl. eexists. split; [done|]. simpl. rewrite tab_keys.
      split; [done|]. unfold gens, ngens. simpl.
      rewrite !length_fmap, !length_seq. repeat split; [done|].
      by apply (tab_values_gens (nonempty_flats M) 0).
  - intros Hc. rewrite fy_init_unfold by done.
    rewrite (fy_gens_constructor_tab M (all_flats M) _
               (x_from (length (groundset M)) (all_flats M))
               (y_ (groundset M))); [|done| |apply fy_var_get..].
    2:{ intros F e [_ HF]%(flats_of_ranks_elem M).
        by apply (flats_subset (rank M F)). }
    simpl. eexists. split; [done|]. simpl. rewrite Hc, tab_keys.
    split; [done|]. unfold gens, ngens. simpl.
    rewrite !length_fmap, !length_seq.
    split; [done|]. split; [by rewrite length_app, !length_fmap|].
    split; [done|]. split; [by apply fy_keys_NoDup|].
    rewrite tab_values, fmap_app, <-!list_fmap_compose, seq_app, fmap_app.
    f_equal.
    + pose proof (tab_values_gens (groundset M) 0 HE) as Hv.
      by rewrite tab_values in Hv.
    + pose proof (tab_values_gens (all_flats M) (length (groundset M)) Hnd')
        as Hv.
      by rewrite tab_values in Hv.
Qed.

(** With an algorithm other than [''] and ['constructed'], the three
    methods are the generic method of the superclass. *)
Lemma groebner_basis_delegates (I1 : ChowRingIdeal_nonaug)
    (I2 : AugmentedChowRingIdeal_fy) (I3 : AugmentedChowRingIdeal_atom_free)
    (algorithm : string) (args : extra_args) :
  ¬ (algorithm = "" ∨ algorithm = "constructed") →
  nonaug_groebner_basis I1 algorithm args
  = MPolynomialIdeal_groebner_basis (na_ring I1) (na_gens I1)
      algorithm args
  ∧ fy_groebner_basis I2 algorithm args
    = MPolynomialIdeal_groebner_basis (fy_ring I2) (fy_gens I2)
        algorithm args
  ∧ af_groebner_basis I3 algorithm args
    = MPolynomialIdeal_groebner_basis (af_ring I3) (af_gens I3)
        algorithm args.
Proof.
  intros Hn.
  unfold nonaug_groebner_basis, fy_groebner_basis, af_groebner_basis.
  destruct (decide (algorithm = "")) as [->|?]; [tauto|].
  destruct (decide (algorithm ≠ "constructed")); [done|tauto].
Qed.

(** C9. For the three ideals of a matroid, [groebner_basis] with
    [algorithm] equal to [''] or ['constructed'] runs the closed-form
    computation: it returns the lists [nonaug_basis M], [fy_basis M] and
    [af_basis M], whatever the other arguments and the generic method
    are; with any other [algorithm] it is the generic method of the
    superclass, called on the ring and the generators of the ideal with
    the same [algorithm] and arguments, so that what the generic method
    raises is raised unchanged. *)
Theorem groebner_basis_dispatch `{!PolyRingLaws PR} M `{!MatroidAxioms M}
    (I1 : ChowRingIdeal_nonaug) (I2 : AugmentedChowRingIdeal_fy)
    (I3 : AugmentedChowRingIdeal_atom_free)
    (algorithm : string) (args : extra_args) :
  nonaug_init M = Ok I1 → fy_init M = Ok I2 → af_init M = Ok I3 →
  if decide (algorithm = "" ∨ algorithm = "constructed") then
    nonaug_groebner_basis I1 algorithm args = Ok (nonaug_basis M)
    ∧ fy_groebner_basis I2 algorithm args = Ok (fy_basis M)
    ∧ af_groebner_basis I3 algorithm args = Ok (af_basis M)
  else
    nonaug_groebner_basis I1 algorithm args
    = MPolynomialIdeal_groebner_basis (na_ring I1) (na_gens I1)
        algorithm args
    ∧ fy_groebner_basis I2 algorithm args
      = MPolynomialIdeal_groebner_basis (fy_ring I2) (fy_gens I2)
          algorithm args
    ∧ af_groebner_basis I3 algorithm args
      = MPolynomialIdeal_groebner_basis (af_ring I3) (af_gens I3)
          algorithm args.
Proof.
  intros H1 H2 H3.
  pose proof (nonempty_flats_NoDup M) as Hnd.
  pose proof (all_flats_NoDup M) as Hnd'.
  pose proof (@groundset_NoDup _ _ _ M _) as HE.
  destruct (decide (algorithm = "" ∨ algorithm = "constructed"))
    as [Halg|Hn]; [|by apply groebner_basis_delegates].
  split; [|split].
  - rewrite (nonaug_groebner_basis_list M I1) by done.
    unfold nonaug_basis, sum_above. by rewrite pair_products_one.
  - destruct (fy_init_inv M I2 HE Hnd' H2) as (HM & Hflats & Hfg & _).
    destruct (fy_var_get (groundset M) (all_flats M)) as [Hx Hy].
    assert (fy_groebner_basis I2 algorithm
            = fy_groebner_basis I2 "constructed")
      as -> by (by destruct Halg as [-> | ->]).
    pose proof (fy_basis_list M I2
                  (x_from (length (groundset M)) (all_flats M))
                  (y_ (groundset M)) HM) as Hlist.
    rewrite Hflats, Hfg in Hlist. by rewrite (Hlist Hx Hy).
  - destruct (af_init_inv M I3 Hnd H3) as (HM & Hflats & Hfg & _).
    assert (af_groebner_basis I3 algorithm
            = af_groebner_basis I3 "constructed")
      as -> by (by destruct Halg as [-> | ->]).
    rewrite (af_basis_list M I3 (x_ (nonempty_flats M)) HM).
    + by rewrite Hflats.
    + intros F HF. rewrite Hfg. apply dict_get_tab. by rewrite <-Hflats.
Qed.
End naming_and_dispatch.

(** ** The polynomial ring with integer coefficients *)

Open Scope Z_scope.

Section zpoly_facts.
Implicit Types (p q : zpoly) (m : monomial) (c : Z).

Lemma nz_to_Z_ne_0 (a : nonzero) : nz_to_Z a ≠ 0.
Proof. by destruct a. Qed.

Lemma Z_to_nz_to_Z (a : nonzero) : Z_to_nz (nz_to_Z a) = Some a.
Proof. by destruct a. Qed.

Lemma from_option_Z_to_nz c : from_option nz_to_Z 0 (Z_to_nz c) = c.
Proof. by destruct c. Qed.

Lemma coef_lookup p m (a : nonzero) : p !! m = Some a → coef p m = nz_to_Z a.
Proof. unfold coef. by intros ->. Qed.

Lemma coef_empty m : coef ∅ m = 0.
Proof. unfold coef. by rewrite lookup_empty. Qed.

Lemma zpoly_eq p q : (∀ m, coef p m = coef q m) → p = q.
Proof.
  intros Hc. apply map_eq. intros m. specialize (Hc m). unfold coef in Hc.
  destruct (p !! m) as [a|], (q !! m) as [b|]; simpl in Hc; try done.
  - f_equal. destruct a, b; simpl in Hc; congruence.
  - by destruct (nz_to_Z_ne_0 a).
  - by destruct (nz_to_Z_ne_0 b).
Qed.

Lemma coef_add_term m c p m' :
  coef (add_term m c p) m' = (if decide (m = m') then c else 0) + coef p m'.
Proof.
  unfold coef, add_term. destruct (decide (m = m')) as [<-|Hne].
  - rewrite lookup_partial_alter_eq. by rewrite from_option_Z_to_nz.
  - by rewrite lookup_partial_alter_ne.
Qed.

Lemma elem_of_zterms p m c :
  (m, c) ∈ zterms p ↔ ∃ a, p !! m = Some a ∧ c = nz_to_Z a.
Proof.
  unfold zterms. rewrite list_elem_of_fmap. split.
  - intros ([m' a] & [= -> ->] & Hin%elem_of_map_to_list). by exists a.
  - intros (a & Hin & ->). exists (m, a). split; [done|].
    by apply elem_of_map_to_list.
Qed.

Lemma zterms_NoDup p : NoDup (zterms p).*1.
Proof.
  unfold zterms. rewrite <-list_fmap_compose.
  rewrite (list_fmap_ext _ fst (map_to_list p)) by (by intros ? []).
  apply NoDup_fst_map_to_list.
Qed.

Lemma zterms_empty : zterms ∅ = [].
Proof. unfold zterms. by rewrite map_to_list_empty. Qed.

Lemma zterms_singleton m (a : nonzero) : zterms {[ m := a ]} = [(m, nz_to_Z a)].
Proof. unfold zterms. by rewrite map_to_list_singleton. Qed.

Lemma coef_in_cons mc l m :
  coef_in (mc :: l) m = (if decide (mc.1 = m) then mc.2 else 0) + coef_in l m.
Proof. done. Qed.

Lemma coef_in_not_elem l m : m ∉ l.*1 → coef_in l m = 0.
Proof.
  induction l as [|[m' c] l IH]; [done|]. simpl.
  intros [Hne Hin]%not_elem_of_cons. rewrite IH by done.
  by rewrite decide_False.
Qed.

Lemma coef_in_zterms p m : coef_in (zterms p) m = coef p m.
Proof.
  pose proof (zterms_NoDup p) as Hnd.
  assert (∀ c, (m, c) ∈ zterms p → coef p m = c) as Hin.
  { intros c (a & Ha & ->)%elem_of_zterms. by apply coef_lookup. }
  assert (m ∉ (zterms p).*1 → coef p m = 0) as Hout.
  { intros Hn. unfold coef. destruct (p !! m) as [a|] eqn:Ha; [|done].
    destruct Hn. apply list_elem_of_fmap. exists (m, nz_to_Z a).
    split; [done|]. apply elem_of_zterms. by exists a. }
  revert Hnd Hin Hout. generalize (zterms p) as l.
  induction l as [|[m' c] l IH]; intros Hnd Hin Hout; simpl.
  - symmetry. apply Hout. apply not_elem_of_nil.
  - apply NoDup_cons in Hnd as [Hm' Hnd]. simpl in *.
    destruct (decide (m' = m)) as [->|Hne].
    + rewrite coef_in_not_elem by done. rewrite (Hin c) by left. lia.
    + rewrite IH; [lia|done| |].
      * intros c' Hc'. apply Hin. by right.
      * intros Hn. apply Hout. by intros [?|?]%elem_of_cons.
Qed.

Lemma coef_foldr_add_term {A} (f : A → monomial) (g : A → Z) (l : list A)
    p m :
  coef (foldr (λ a acc, add_term (f a) (g a) acc) p l) m
  = coef p m + coef_in ((λ a, (f a, g a)) <$> l) m.
Proof.
  induction l as [|a l IH].
  - unfold coef_in. simpl. lia.
  - change (coef (add_term (f a) (g a)
                    (foldr (λ a acc, add_term (f a) (g a) acc) p l)) m
            = coef p m + coef_in ((f a, g a) :: ((λ a, (f a, g a)) <$> l)) m).
    rewrite coef_add_term, IH, coef_in_cons. simpl. lia.
Qed.

Lemma coef_zadd p q m : coef (zadd p q) m = coef p m + coef q m.
Proof.
  unfold zadd. rewrite (coef_foldr_add_term fst snd).
  rewrite (list_fmap_ext _ id) by (by intros ? []).
  by rewrite list_fmap_id, coef_in_zterms.
Qed.

(** *** The ring laws *)

Lemma zadd_0_l p : zadd zzero p = p.
Proof. apply zpoly_eq. intros m. by rewrite coef_zadd, coef_empty. Qed.

Lemma zadd_0_r p : zadd p zzero = p.
Proof. unfold zadd, zzero. by rewrite zterms_empty. Qed.

Lemma zmul_0_l p : zmul zzero p = zzero.
Proof. unfold zmul, zzero. by rewrite zterms_empty. Qed.

Lemma zmul_0_r p : zmul p zzero = zzero.
Proof.
  unfold zmul, zzero. rewrite zterms_empty.
  induction (zterms p) as [|mc l IH]; [done|]. simpl. exact IH.
Qed.

Lemma zmul_1_l p : zmul zone p = p.
Proof.
  unfold zmul, zone. rewrite zterms_singleton. simpl.
  apply zpoly_eq. intros m.
  rewrite (coef_foldr_add_term (λ mc, ∅ ⊎ mc.1) (λ mc, 1 * mc.2)).
  rewrite coef_empty, (list_fmap_ext _ id).
  - by rewrite list_fmap_id, coef_in_zterms.
  - intros _ [m' c] _. simpl. f_equal; [apply (left_id_L ∅ (⊎))|lia].
Qed.

(** *** Evaluation *)

Lemma tsum_cons ρ mc l : tsum ρ (mc :: l) = mc.2 * mon_eval ρ mc.1 + tsum ρ l.
Proof. done. Qed.

Lemma zeval_tsum ρ p : zeval ρ p = tsum ρ (zterms p).
Proof. done. Qed.

Lemma tsum_perm ρ l l' : l ≡ₚ l' → tsum ρ l = tsum ρ l'.
Proof.
  induction 1 as [|mc l l' _ IH|mc1 mc2 l|l1 l2 l3 _ IH1 _ IH2];
    rewrite ?tsum_cons; [done|lia|lia|congruence].
Qed.

Lemma zterms_insert p m (a : nonzero) :
  p !! m = None → zterms (<[m := a]> p) ≡ₚ (m, nz_to_Z a) :: zterms p.
Proof.
  intros Hm. unfold zterms. by rewrite map_to_list_insert.
Qed.

Lemma zterms_delete p m (a : nonzero) :
  p !! m = Some a → (m, nz_to_Z a) :: zterms (delete m p) ≡ₚ zterms p.
Proof.
  intros Hm. unfold zterms. by rewrite <-(map_to_list_delete p m a Hm).
Qed.

Lemma zeval_delete ρ p m :
  zeval ρ (delete m p) = zeval ρ p - coef p m * mon_eval ρ m.
Proof.
  rewrite !zeval_tsum. unfold coef. destruct (p !! m) as [a|] eqn:Hm; simpl.
  - rewrite <-(tsum_perm ρ _ _ (zterms_delete p m a Hm)), tsum_cons.
    simpl. lia.
  - rewrite delete_id by done. lia.
Qed.

Lemma add_term_cases m c p :
  add_term m c p
  = match Z_to_nz (c + coef p m) with
    | Some a => <[m := a]> (delete m p)
    | None => delete m p
    end.
Proof.
  apply map_eq. intros m'. unfold add_term, coef.
  destruct (decide (m = m')) as [<-|Hne].
  - rewrite lookup_partial_alter_eq. destruct (Z_to_nz _).
    + by rewrite lookup_insert_eq.
    + by rewrite lookup_delete_eq.
  - rewrite lookup_partial_alter_ne by done. destruct (Z_to_nz _).
    + by rewrite lookup_insert_ne, lookup_delete_ne.
    + by rewrite lookup_delete_ne.
Qed.

Lemma zeval_add_term ρ m c p :
  zeval ρ (add_term m c p) = c * mon_eval ρ m + zeval ρ p.
Proof.
  rewrite add_term_cases.
  destruct (Z_to_nz (c + coef p m)) as [a|] eqn:Ha.
  - assert (nz_to_Z a = c + coef p m) as Hq.
    { by rewrite <-(from_option_Z_to_nz (c + coef p m)), Ha. }
    rewrite zeval_tsum.
    rewrite (tsum_perm ρ _ _ (zterms_insert _ m a (lookup_delete_eq p m))).
    rewrite tsum_cons, <-zeval_tsum. simpl.
    rewrite zeval_delete, Hq. lia.
  - assert (c + coef p m = 0) as Hq by (by destruct (c + coef p m)).
    rewrite zeval_delete. nia.
Qed.

Lemma zeval_foldr_add_term {A} ρ (f : A → monomial) (g : A → Z)
    (l : list A) p :
  zeval ρ (foldr (λ a acc, add_term (f a) (g a) acc) p l)
  = zeval ρ p + tsum ρ ((λ a, (f a, g a)) <$> l).
Proof.
  induction l as [|a l IH].
  - unfold tsum. simpl. lia.
  - change (zeval ρ (add_term (f a) (g a)
                       (foldr (λ a acc, add_term (f a) (g a) acc) p l))
            = zeval ρ p + tsum ρ ((f a, g a) :: ((λ a, (f a, g a)) <$> l))).
    rewrite zeval_add_term, IH, tsum_cons. simpl. lia.
Qed.

Lemma zeval_zadd ρ p q : zeval ρ (zadd p q) = zeval ρ p + zeval ρ q.
Proof.
  unfold zadd. rewrite (zeval_foldr_add_term ρ fst snd).
  rewrite (list_fmap_ext _ id) by (by intros ? []).
  by rewrite list_fmap_id.
Qed.

Lemma lprod_perm ρ (l l' : list nat) :
  l ≡ₚ l' →
  foldr (λ i acc, ρ i * acc) 1 l = foldr (λ i acc, ρ i * acc) 1 l'.
Proof.
  induction 1 as [|i l l' _ IH|i j l|l1 l2 l3 _ IH1 _ IH2]; simpl;
    [done|lia|lia|congruence].
Qed.

Lemma lprod_app ρ (l l' : list nat) :
  foldr (λ i acc, ρ i * acc) 1 (l ++ l')
  = foldr (λ i acc, ρ i * acc) 1 l * foldr (λ i acc, ρ i * acc) 1 l'.
Proof. induction l as [|i l IH]; simpl; [lia|]. rewrite IH. lia. Qed.

Lemma mon_eval_disj_union ρ m m' :
  mon_eval ρ (m ⊎ m') = mon_eval ρ m * mon_eval ρ m'.
Proof.
  unfold mon_eval.
  rewrite (lprod_perm ρ _ _ (gmultiset_elements_disj_union m m')).
  apply lprod_app.
Qed.

Lemma mon_eval_empty ρ : mon_eval ρ ∅ = 1.
Proof. unfold mon_eval. by rewrite gmultiset_elements_empty. Qed.

Lemma mon_eval_singleton ρ i : mon_eval ρ {[+ i +]} = ρ i.
Proof. unfold mon_eval. rewrite gmultiset_elements_singleton. simpl. lia. Qed.

Lemma tsum_scale ρ m c (l : list (monomial * Z)) :
  tsum ρ ((λ mc, (m ⊎ mc.1, c * mc.2)) <$> l)
  = c * mon_eval ρ m * tsum ρ l.
Proof.
  induction l as [|mc l IH].
  - unfold tsum. simpl. lia.
  - rewrite fmap_cons, !tsum_cons, IH. simpl.
    rewrite mon_eval_disj_union. lia.
Qed.

Lemma zeval_empty ρ : zeval ρ ∅ = 0.
Proof. unfold zeval. by rewrite zterms_empty. Qed.

Lemma zeval_zmul ρ p q : zeval ρ (zmul p q) = zeval ρ p * zeval ρ q.
Proof.
  unfold zmul. rewrite (zeval_tsum ρ p), (zeval_tsum ρ q).
  induction (zterms p) as [|[m c] l IH].
  - simpl. rewrite zeval_empty. unfold tsum. simpl. lia.
  - rewrite tsum_cons. simpl.
    rewrite (zeval_foldr_add_term ρ (λ mc', m ⊎ mc'.1) (λ mc', c * mc'.2)).
    rewrite IH, tsum_scale. lia.
Qed.

Lemma zeval_zone ρ : zeval ρ zone = 1.
Proof.
  unfold zeval, zone. rewrite zterms_singleton. simpl.
  rewrite mon_eval_empty. lia.
Qed.

Lemma zeval_zgen ρ i : zeval ρ (zgen i) = ρ i.
Proof.
  unfold zeval, zgen. rewrite zterms_singleton. simpl.
  rewrite mon_eval_singleton. lia.
Qed.

(** *** Constants *)

Lemma coef_zconst z m : coef (zconst z) m = if decide (∅ = m) then z else 0.
Proof.
  unfold zconst. rewrite coef_add_term, coef_empty.
  destruct (decide _); lia.
Qed.

Lemma zconst_0 : zconst 0 = zzero.
Proof.
  apply zpoly_eq. intros m. rewrite coef_zconst, coef_empty.
  by destruct (decide _).
Qed.

Lemma zconst_1 : zconst 1 = zone.
Proof. unfold zconst. by rewrite add_term_cases. Qed.

Lemma zconst_nonzero z (a : nonzero) :
  Z_to_nz z = Some a → zconst z = {[ ∅ := a ]}.
Proof.
  intros Ha. unfold zconst. rewrite add_term_cases, coef_empty, Z.add_0_r, Ha.
  by rewrite delete_empty, insert_empty.
Qed.

Lemma zconst_add a b : zconst (a + b) = zadd (zconst a) (zconst b).
Proof.
  apply zpoly_eq. intros m. rewrite coef_zadd, !coef_zconst.
  destruct (decide _); lia.
Qed.

Lemma zconst_mul a b : zconst (a * b) = zmul (zconst a) (zconst b).
Proof.
  destruct (Z_to_nz a) as [a'|] eqn:Ha; [destruct (Z_to_nz b) as [b'|] eqn:Hb|].
  - rewrite (zconst_nonzero a a'), (zconst_nonzero b b') by done.
    unfold zmul. rewrite !zterms_singleton. simpl.
    rewrite (left_id_L ∅ (⊎)). unfold zconst.
    by rewrite <-(from_option_Z_to_nz a), <-(from_option_Z_to_nz b), Ha, Hb.
  - assert (b = 0) as -> by (by destruct b).
    by rewrite Z.mul_0_r, zconst_0, zmul_0_r.
  - assert (a = 0) as -> by (by destruct a).
    by rewrite Z.mul_0_l, zconst_0, zmul_0_l.
Qed.

Lemma zone_ne_zzero : zone ≠ zzero.
Proof.
  intros Heq. apply (f_equal (λ p : zpoly, p !! (∅ : monomial))) in Heq.
  unfold zone, zzero in Heq.
  by rewrite lookup_singleton_eq, lookup_empty in Heq.
Qed.
End zpoly_facts.

#[global] Instance ZPoly_laws : PolyRingLaws ZPoly.
Proof.
  split.
  - apply zadd_0_l.
  - apply zadd_0_r.
  - apply zmul_0_l.
  - apply zmul_0_r.
  - apply zmul_1_l.
  - done.
  - done.
Qed.

Lemma zeval01_zero v : zeval01 v zzero = zzero.
Proof. unfold zeval01. by rewrite zeval_empty, zconst_0. Qed.

Lemma zeval01_add v (p q : zpoly) :
  zeval01 v (zadd p q) = zadd (zeval01 v p) (zeval01 v q).
Proof. unfold zeval01. by rewrite zeval_zadd, zconst_add. Qed.

Lemma zeval01_mul v (p q : zpoly) :
  zeval01 v (zmul p q) = zmul (zeval01 v p) (zeval01 v q).
Proof. unfold zeval01. by rewrite zeval_zmul, zconst_mul. Qed.

Lemma zeval01_gen v i : zeval01 v (zgen i) = if v i : bool then zone else zzero.
Proof.
  unfold zeval01. rewrite zeval_zgen.
  destruct (v i); [apply zconst_1|apply zconst_0].
Qed.

#[global] Instance ZPoly_eval : PolyRingEval ZPoly := {|
  eval01 := zeval01;
  eval01_zero := zeval01_zero;
  eval01_add := zeval01_add;
  eval01_mul := zeval01_mul;
  eval01_gen := zeval01_gen;
|}.

(** A combination of polynomials that vanish at a point vanishes there. *)
Lemma zeval_lincomb ρ (cs gs : list zpoly) :
  Forall (λ g, zeval ρ g = 0) gs → zeval ρ (lincomb cs gs) = 0.
Proof.
  intros Hgs. unfold lincomb, psum. simpl.
  assert (∀ acc, zeval ρ acc = 0 →
            zeval ρ (fold_left zadd (zip_with zmul cs gs) acc) = 0) as Hacc.
  { revert cs. induction Hgs as [|g gs Hg _ IH]; intros cs acc Hz.
    - by destruct cs.
    - destruct cs as [|c cs]; [done|]. simpl. apply IH.
      rewrite zeval_zadd, zeval_zmul, Hg, Hz. lia. }
  apply Hacc, zeval_empty.
Qed.


Close Scope Z_scope.

(** ** The example matroids

    The hypotheses of the statements above hold on the example matroids,
    and the closed forms compute to the lists of the docstrings. *)

Ltac by_compute := by apply (bool_decide_unpack _); vm_compute.

Ltac list_cases H :=
  repeat (apply elem_of_cons in H as [->|H]); try (by apply elem_of_nil in H).

Lemma full_rank_M_abc : full_rank M_abc = 2.
Proof. by vm_compute. Qed.

#[global] Instance M_abc_axioms : MatroidAxioms M_abc.
Proof.
  split.
  - by_compute.
  - intros [|[|[|i]]]; simpl; by_compute || constructor.
  - intros [|[|[|i]]] F HF; simpl in HF; list_cases HF; by vm_compute.
  - intros i F e HF He.
    assert (Forall (λ e, e ∈ groundset M_abc) (elements F)) as Hall.
    { destruct i as [|[|[|i]]]; simpl in HF; list_cases HF; by_compute. }
    by apply (proj1 (Forall_forall _ _) Hall), elem_of_elements.
  - intros [|[|[|i]]] [|[|[|j]]] F G HF HG Hsub; simpl in HF, HG;
      list_cases HF; list_cases HG; try lia;
      exfalso; revert Hsub; by_compute.
  - rewrite full_rank_M_abc. intros [|[|[|i]]] Hi; simpl; [done..|lia].
  - rewrite full_rank_M_abc. by_compute.
Qed.

Lemma full_rank_M_par : full_rank M_par = 2.
Proof. by vm_compute. Qed.

#[global] Instance M_par_axioms : MatroidAxioms M_par.
Proof.
  split.
  - by_compute.
  - intros [|[|[|i]]]; simpl; by_compute || constructor.
  - intros [|[|[|i]]] F HF; simpl in HF; list_cases HF; by vm_compute.
  - intros i F e HF He.
    assert (Forall (λ e, e ∈ groundset M_par) (elements F)) as Hall.
    { destruct i as [|[|[|i]]]; simpl in HF; list_cases HF; by_compute. }
    by apply (proj1 (Forall_forall _ _) Hall), elem_of_elements.
  - intros [|[|[|i]]] [|[|[|j]]] F G HF HG Hsub; simpl in HF, HG;
      list_cases HF; list_cases HG; try lia;
      exfalso; revert Hsub; by_compute.
  - rewrite full_rank_M_par. intros [|[|[|i]]] Hi; simpl; [done..|lia].
  - rewrite full_rank_M_par. by_compute.
Qed.

(** The example of the docstring of [groebner_basis]. *)
Example nonaug_basis_M_abc :
  nonaug_basis M_abc
  = [zgen 0 * zgen 1; zgen 0; zgen 1; zgen 0 * zgen 2; zgen 1 * zgen 2;
     zgen 2]%P.
Proof. by_compute. Qed.

Example nonaug_generators_M_abc :
  nonaug_generators M_abc
  = [zgen 0 * zgen 1; zgen 0 + zgen 2; zgen 1 + zgen 2]%P.
Proof. by_compute. Qed.

Lemma nonaug_init_generators_witness :
  NoDup (nonempty_flats M_abc) ∧ NoDup (lattice_atoms M_abc)
  ∧ ∃ I, nonaug_init M_abc = Ok I
      ∧ dict_keys (na_flats_generator I) = nonempty_flats M_abc
      ∧ (∀ F, F ∈ nonempty_flats M_abc →
           dict_get (na_flats_generator I) F
           = Ok (x_ (nonempty_flats M_abc) F))
      ∧ each_incomparable_pair_once (nonempty_flats M_abc)
          (incomparable_pairs (nonempty_flats M_abc))
      ∧ na_gens I = nonaug_generators M_abc.
Proof.
  assert (NoDup (nonempty_flats M_abc)) as H1 by by_compute.
  assert (NoDup (lattice_atoms M_abc)) as H2 by by_compute.
  split; [exact H1|]. split; [exact H2|].
  exact (nonaug_init_generators M_abc H1 H2).
Defined.

Lemma nonaug_groebner_basis_closed_form_witness :
  NoDup (nonempty_flats M_abc)
  ∧ ∃ I, nonaug_init M_abc = Ok I
      ∧ sorted size (nonempty_flats M_abc) ≡ₚ nonempty_flats M_abc
      ∧ Sorted (λ F G, size F ≤ size G) (sorted size (nonempty_flats M_abc))
      ∧ each_incomparable_pair_once (sorted size (nonempty_flats M_abc))
          (incomparable_pairs (sorted size (nonempty_flats M_abc)))
      ∧ nonaug_groebner_basis I "" tt = Ok (nonaug_basis M_abc).
Proof.
  assert (NoDup (nonempty_flats M_abc)) as H1 by by_compute.
  assert (NoDup (lattice_atoms M_abc)) as H2 by by_compute.
  split; [exact H1|].
  destruct (nonaug_init_total M_abc H1 H2) as [I HI].
  exists I. split; [exact HI|].
  exact (nonaug_groebner_basis_closed_form M_abc I "" tt H1 HI
           (or_introl eq_refl)).
Defined.

Lemma M_abc_flats_in_groundset :
  ∀ F e, F ∈ all_flats M_abc → e ∈ F → e ∈ groundset M_abc.
Proof.
  intros F e [_ HF]%(flats_of_ranks_elem M_abc).
  by apply (flats_subset (rank M_abc F)).
Qed.

Lemma fy_init_generators_witness :
  NoDup (groundset M_abc) ∧ NoDup (all_flats M_abc)
  ∧ (∀ F e, F ∈ all_flats M_abc → e ∈ F → e ∈ groundset M_abc)
  ∧ ∃ I, fy_init M_abc = Ok I
      ∧ fy_flats I = all_flats M_abc
      ∧ (∀ F, F ∈ all_flats M_abc →
           dict_get (fy_flats_generator I) (inr F)
           = Ok (x_from (length (groundset M_abc)) (all_flats M_abc) F))
      ∧ (∀ e, e ∈ groundset M_abc →
           dict_get (fy_flats_generator I) (inl e)
           = Ok (y_ (groundset M_abc) e))
      ∧ fy_gens I = fy_generators M_abc.
Proof.
  assert (NoDup (groundset M_abc)) as H1 by by_compute.
  assert (NoDup (all_flats M_abc)) as H2 by by_compute.
  split; [exact H1|]. split; [exact H2|].
  split; [exact M_abc_flats_in_groundset|].
  exact (fy_init_generators M_abc H1 H2 M_abc_flats_in_groundset).
Defined.

Lemma fy_groebner_basis_families_witness :
  groundset M_abc ≠ [] ∧ NoDup (groundset M_abc) ∧ NoDup (all_flats M_abc)
  ∧ ∃ I, fy_init M_abc = Ok I
      ∧ ∃ gb, fy_groebner_basis I "" tt = Ok gb
              ∧ ∀ p, p ∈ gb ↔ fy_basis_family M_abc p.
Proof.
  assert (groundset M_abc ≠ []) as H0 by done.
  assert (NoDup (groundset M_abc)) as H1 by by_compute.
  assert (NoDup (all_flats M_abc)) as H2 by by_compute.
  split; [exact H0|]. split; [exact H1|]. split; [exact H2|].
  destruct (fy_init_total M_abc H1 H2 M_abc_flats_in_groundset) as [I HI].
  exists I. split; [exact HI|].
  exact (fy_groebner_basis_families M_abc I "" tt H0 H1 H2 HI
           (or_introl eq_refl)).
Defined.

(** C4 fails on the code. On the matroid with the empty groundset, whose
    only flat is the empty set, the Feichtner-Yuzvinsky presentation has
    the one generator [x_F] of that flat, the sum of the indeterminates of
    all flats, and [groebner_basis] returns the empty sequence: the loop
    over the groundset elements, inside which the polynomials of a flat
    alone are appended, runs no pass. The polynomial
    [term1_F ^ (rank(F) + 1) = x_F] of the claim is missing, and the
    generator [x_F] is not in the ideal of the sequence. *)
Theorem fy_groebner_basis_empty_groundset :
  ∃ I, fy_init M_empty = Ok I
    ∧ fy_gens I = [zgen 0]
    ∧ fy_groebner_basis I "" tt = Ok []
    ∧ fy_basis_family M_empty (zgen 0)
    ∧ in_ideal (fy_gens I) (zgen 0)
    ∧ ¬ in_ideal [] (zgen 0)
    ∧ ¬ (∃ gb, fy_groebner_basis I "" tt = Ok gb
               ∧ ∀ p, p ∈ gb ↔ fy_basis_family M_empty p).
Proof.
  assert (NoDup (groundset M_empty)) as H1 by by_compute.
  assert (NoDup (all_flats M_empty)) as H2 by by_compute.
  assert (all_flats M_empty = [∅]) as Hall by by_compute.
  assert (∀ F e, F ∈ all_flats M_empty → e ∈ F → e ∈ groundset M_empty)
    as H3.
  { intros F e HF He. rewrite Hall in HF. list_cases HF.
    by apply not_elem_of_empty in He. }
  destruct (fy_var_get (groundset M_empty) (all_flats M_empty)) as [Hx Hy].
  pose proof (fy_init_unfold M_empty H1 H2) as Hinit.
  rewrite (fy_gens_constructor_tab M_empty (all_flats M_empty) _
             (x_from (length (groundset M_empty)) (all_flats M_empty))
             (y_ (groundset M_empty))) in Hinit by done.
  cbn [mbind result_bind] in Hinit.
  match type of Hinit with _ = Ok ?r => pose (I0 := r) end.
  assert (fy_groebner_basis I0 "" tt = Ok []) as Hgb.
  { change (fy_groebner_basis I0 "constructed" tt = Ok []).
    rewrite (fy_basis_list M_empty I0
               (x_from (length (groundset M_empty)) (all_flats M_empty))
               (y_ (groundset M_empty)) eq_refl Hx Hy).
    apply (f_equal Ok). by_compute. }
  assert (fy_basis_family M_empty (zgen 0)) as Hfam.
  { right. right. left. exists ∅. split; [by_compute|].
    split; [by_compute|by_compute]. }
  assert (fy_gens I0 = [zgen 0]) as Hgens.
  { unfold I0. cbn [fy_gens]. by_compute. }
  exists I0. split; [exact Hinit|]. split; [exact Hgens|].
  split; [exact Hgb|]. split; [exact Hfam|].
  split; [rewrite Hgens; apply in_ideal_elem; left|].
  split.
  - intros (cs & _ & Hz). unfold lincomb in Hz.
    rewrite zip_with_nil_r in Hz. revert Hz. by_compute.
  - intros (gb & Hgb' & Hiff). rewrite Hgb in Hgb'. injection Hgb' as <-.
    apply Hiff in Hfam. by apply elem_of_nil in Hfam.
Qed.

Lemma M_abc_nonempty_flats_in_groundset :
  ∀ F e, F ∈ nonempty_flats M_abc → e ∈ F → e ∈ groundset M_abc.
Proof.
  intros F e [_ HF]%(flats_of_ranks_elem M_abc).
  by apply (flats_subset (rank M_abc F)).
Qed.

Lemma af_groebner_basis_families_witness :
  NoDup (nonempty_flats M_abc)
  ∧ ∃ I, af_init M_abc = Ok I
      ∧ ∃ gb, af_groebner_basis I "" tt = Ok gb
              ∧ ∀ p, p ∈ gb ↔ af_basis_family M_abc p.
Proof.
  assert (NoDup (groundset M_abc)) as H0 by by_compute.
  assert (NoDup (nonempty_flats M_abc)) as H1 by by_compute.
  split; [exact H1|].
  destruct (af_init_total M_abc H0 H1 M_abc_nonempty_flats_in_groundset)
    as [I HI].
  exists I. split; [exact HI|].
  exact (af_groebner_basis_families M_abc I "" tt H1 HI (or_introl eq_refl)).
Defined.

Lemma af_groebner_basis_contains_one_witness :
  1 ≤ full_rank M_abc
  ∧ ∃ I, af_init M_abc = Ok I
      ∧ (∀ F, F ∈ flats M_abc 1 →
           sum_strictly_below (x_ (nonempty_flats M_abc))
             (nonempty_flats M_abc) F = zero)
      ∧ ∃ gb, af_groebner_basis I "" tt = Ok gb ∧ one ∈ gb ∧ in_ideal gb one.
Proof.
  assert (1 ≤ full_rank M_abc) as Hr by (rewrite full_rank_M_abc; lia).
  assert (NoDup (groundset M_abc)) as H0 by by_compute.
  assert (NoDup (nonempty_flats M_abc)) as H1 by by_compute.
  split; [exact Hr|].
  destruct (af_init_total M_abc H0 H1 M_abc_nonempty_flats_in_groundset)
    as [I HI].
  exists I. split; [exact HI|].
  exact (af_groebner_basis_contains_one M_abc I "" tt Hr HI
           (or_introl eq_refl)).
Defined.

Lemma af_init_generators_witness :
  (one : poly) ≠ zero ∧ 1 ≤ full_rank M_abc
  ∧ ∃ I, af_init M_abc = Ok I
      ∧ af_flats I = nonempty_flats M_abc
      ∧ (∀ p, p ∈ af_gens I ↔ af_gens_family M_abc p)
      ∧ ∀ e, e ∈ groundset M_abc →
          occurrences
            (sum_containing (x_ (nonempty_flats M_abc))
               (nonempty_flats M_abc) e ^ 2%Z)%P
            (af_gens I) = 1.
Proof.
  assert (1 ≤ full_rank M_abc) as Hr by (rewrite full_rank_M_abc; lia).
  split; [exact zone_ne_zzero|]. split; [exact Hr|].
  exact (af_init_generators M_abc zone_ne_zzero Hr).
Defined.

(** On the matroid of rank 0 with one loop, the generator list of the
    atom-free presentation is empty: the square of the empty sum is not in
    it. *)
Lemma af_init_generators_rank_0 :
  ∃ I, af_init M_loop = Ok I
    ∧ af_gens I = []
    ∧ af_gens_family M_loop (zero ^ 2%Z)%P
    ∧ ¬ (∀ p, p ∈ af_gens I ↔ af_gens_family M_loop p).
Proof.
  assert (NoDup (groundset M_loop)) as H0 by by_compute.
  assert (nonempty_flats M_loop = []) as Hfl by by_compute.
  assert (NoDup (nonempty_flats M_loop)) as H1 by (rewrite Hfl; constructor).
  assert (∀ F e, F ∈ nonempty_flats M_loop → e ∈ F → e ∈ groundset M_loop)
    as H2.
  { intros F e HF. rewrite Hfl in HF. by apply elem_of_nil in HF. }
  destruct (af_init_unfold M_loop H1) as (S & _ & Hinit).
  rewrite af_gens_constructor_pure in Hinit by done. simpl in Hinit.
  rewrite Hfl in Hinit. simpl in Hinit.
  assert (af_gens_family M_loop (zero ^ 2%Z)%P) as Hfam.
  { right. right. exists 0. split; [by_compute|by_compute]. }
  eexists. split; [exact Hinit|]. simpl. split; [done|]. split; [done|].
  intros Hiff. apply Hiff in Hfam. by apply elem_of_nil in Hfam.
Qed.

Lemma naming_fallback_witness :
  certify_names (flat_name "A" <$> nonempty_flats M_par) = false
  ∧ certify_names (((λ x, "A" +:+ str x) <$> groundset M_par)
                   ++ (flat_name "B" <$> all_flats M_par)) = false
  ∧ (∃ I, nonaug_init M_par = Ok I
          ∧ indexed_naming 3 (nonempty_flats M_par)
              (na_ring I) (na_flats_generator I))
  ∧ (∃ I, af_init M_par = Ok I
          ∧ indexed_naming 3 (nonempty_flats M_par)
              (af_ring I) (af_flats_generator I))
  ∧ (∃ I, fy_init M_par = Ok I
          ∧ indexed_naming 7
              ((inl <$> groundset M_par) ++ (inr <$> all_flats M_par))
              (fy_ring I) (fy_flats_generator I)).
Proof.
  assert (certify_names (flat_name "A" <$> nonempty_flats M_par) = false)
    as H1 by (by vm_compute).
  assert (certify_names (((λ x, "A" +:+ str x) <$> groundset M_par)
                         ++ (flat_name "B" <$> all_flats M_par)) = false)
    as H2 by (by vm_compute).
  split; [exact H1|]. split; [exact H2|].
  destruct (naming_fallback M_par) as [Hna Hfy].
  destruct (Hna H1) as [Hn Ha]. specialize (Hfy H2).
  split; [exact Hn|]. split; [exact Ha|]. exact Hfy.
Defined.

(** C8 as stated fails on the atom-free presentation: on the matroid with
    the parallel elements 1 and 23, where the canonical names are
    rejected, its ring has 3 indeterminates, one per enumerated flat, and
    not as many as there are flats and groundset elements together. *)
Lemma naming_fallback_atom_free_ring_size :
  certify_names (flat_name "A" <$> nonempty_flats M_par) = false
  ∧ ∃ I, af_init M_par = Ok I
      ∧ ngens (af_ring I) = 3
      ∧ ngens (af_ring I)
        ≠ length (nonempty_flats M_par) + length (groundset M_par)
      ∧ ngens (af_ring I)
        ≠ length (all_flats M_par) + length (groundset M_par).
Proof.
  split; [by vm_compute|].
  assert (NoDup (groundset M_par)) as HE by by_compute.
  assert (NoDup (nonempty_flats M_par)) as Hnd by by_compute.
  destruct (af_init_total M_par HE Hnd) as [I HI].
  { intros F e [_ HF]%(flats_of_ranks_elem M_par).
    by apply (flats_subset (rank M_par F)). }
  destruct (af_init_inv M_par I Hnd HI) as (_ & _ & _ & Hn).
  exists I. split; [exact HI|]. rewrite Hn.
  split; [by_compute|]. split; by_compute.
Qed.

Lemma groebner_basis_dispatch_witness :
  ∃ I1 I2 I3,
    nonaug_init M_abc = Ok I1 ∧ fy_init M_abc = Ok I2
    ∧ af_init M_abc = Ok I3
    ∧ (nonaug_groebner_basis I1 "" tt = Ok (nonaug_basis M_abc)
       ∧ fy_groebner_basis I2 "" tt = Ok (fy_basis M_abc)
       ∧ af_groebner_basis I3 "" tt = Ok (af_basis M_abc))
    ∧ (nonaug_groebner_basis I1 "toy:buchberger" tt
       = MPolynomialIdeal_groebner_basis (na_ring I1) (na_gens I1)
           "toy:buchberger" tt
       ∧ fy_groebner_basis I2 "toy:buchberger" tt
         = MPolynomialIdeal_groebner_basis (fy_ring I2) (fy_gens I2)
             "toy:buchberger" tt
       ∧ af_groebner_basis I3 "toy:buchberger" tt
         = MPolynomialIdeal_groebner_basis (af_ring I3) (af_gens I3)
             "toy:buchberger" tt).
Proof.
  assert (NoDup (groundset M_abc)) as HE by by_compute.
  assert (NoDup (nonempty_flats M_abc)) as Hnd by by_compute.
  assert (NoDup (all_flats M_abc)) as Hnd' by by_compute.
  assert (NoDup (lattice_atoms M_abc)) as Hat by by_compute.
  destruct (nonaug_init_total M_abc Hnd Hat) as [I1 H1].
  destruct (fy_init_total M_abc HE Hnd' M_abc_flats_in_groundset) as [I2 H2].
  destruct (af_init_total M_abc HE Hnd M_abc_nonempty_flats_in_groundset)
    as [I3 H3].
  exists I1, I2, I3. split; [exact H1|]. split; [exact H2|]. split; [exact H3|].
  split.
  - exact (groebner_basis_dispatch M_abc I1 I2 I3 "" tt H1 H2 H3).
  - exact (groebner_basis_dispatch M_abc I1 I2 I3 "toy:buchberger" tt
             H1 H2 H3).
Defined.

(** C7 fails on the code. On the matroid of the docstring of
    [groebner_basis], with integer coefficients, the atom-free presentation
    has the seven generators below, all without constant term, and its
    closed-form basis has the eleven polynomials below, among them the
    constant 1: the constant 1 is in the ideal that the basis generates and
    not in the ideal that the generators generate. *)
Theorem atom_free_basis_generates_another_ideal :
  let x0 := zgen 0 in
  let x1 := zgen 1 in
  let x2 := zgen 2 in
  ∃ I gb, af_init M_abc = Ok I
    ∧ af_groebner_basis I "" tt = Ok gb
    ∧ af_gens I
      = [x0 * x1; (x0 + x2) ^ 2%Z; (x1 + x2) ^ 2%Z; x0 * (x1 + x2);
         x0 * (x1 + x2); x1 * x0; x1 * (x0 + x2)]%P
    ∧ gb = [one; x0 * x1; one; one; x1 * x0; one; one; one;
            (x0 + x1) ^ 2%Z + one; (x0 + x1) ^ 2%Z + one;
            (x0 + x1) ^ 2%Z + one]%P
    ∧ in_ideal gb one
    ∧ ¬ in_ideal (af_gens I) one.
Proof.
  intros x0 x1 x2.
  assert (NoDup (groundset M_abc)) as H0 by by_compute.
  assert (NoDup (nonempty_flats M_abc)) as H1 by by_compute.
  destruct (af_init_eq M_abc H0 H1 M_abc_nonempty_flats_in_groundset)
    as [S Hinit].
  match type of Hinit with _ = Ok ?r => pose (I0 := r) end.
  exists I0. eexists. split; [exact Hinit|].
  split.
  { rewrite af_groebner_basis_default.
    rewrite (af_basis_list M_abc I0 (x_ (nonempty_flats M_abc)) eq_refl).
    - reflexivity.
    - intros F HF. apply dict_get_tab. exact HF. }
  unfold I0. cbn [af_gens af_flats].
  split; [by_compute|]. split; [by_compute|].
  split.
  - apply in_ideal_elem. by_compute.
  - intros (cs & _ & Hone).
    apply (f_equal (zeval (λ _, 0%Z))) in Hone.
    rewrite zeval_lincomb in Hone by by_compute.
    by rewrite zeval_zone in Hone.
Qed.

(** * Further properties *)

(** ** Keys of a dictionary *)

Section dict_keys_facts.
Context {K V : Type} `{EqDecision K}.
Implicit Types (d : dict K V) (k : K) (v : V).

Lemma dict_get_elem d k : k ∈ dict_keys d → ∃ v, dict_get d k = Ok v.
Proof.
  induction d as [|[k' v'] d IH]; intros Hk; [by apply elem_of_nil in Hk|].
  simpl. destruct (decide (k' = k)) as [->|Hne]; [by eexists|].
  apply IH. unfold dict_keys in *. simpl in Hk.
  apply elem_of_cons in Hk as [->|Hk]; done.
Qed.

Lemma dict_get_not_elem d k : k ∉ dict_keys d → dict_get d k = Raise KeyError.
Proof.
  induction d as [|[k' v'] d IH]; intros Hk; [done|].
  unfold dict_keys in *. simpl in *.
  apply not_elem_of_cons in Hk as [Hne Hk].
  destruct (decide (k' = k)); [congruence|]. by apply IH.
Qed.

Lemma dict_keys_set d k v k' :
  k' ∈ dict_keys (dict_set d k v) ↔ k' = k ∨ k' ∈ dict_keys d.
Proof.
  unfold dict_keys. induction d as [|[k0 v0] d IH]; simpl.
  - rewrite list_elem_of_singleton. split; [by left|].
    intros [?|Hn]; [done|by apply elem_of_nil in Hn].
  - destruct (decide (k0 = k)) as [->|Hne]; simpl.
    + rewrite elem_of_cons. tauto.
    + rewrite !elem_of_cons, IH. tauto.
Qed.

Lemma dict_keys_of_list (kvs : list (K * V)) k :
  k ∈ dict_keys (dict_of_list kvs) ↔ k ∈ kvs.*1.
Proof.
  unfold dict_of_list.
  assert (∀ acc : dict K V,
            k ∈ dict_keys (fold_left (λ d kv, dict_set d kv.1 kv.2) kvs acc)
            ↔ k ∈ dict_keys acc ∨ k ∈ kvs.*1) as Hacc.
  { induction kvs as [|[k0 v0] kvs IH]; intros acc; simpl.
    - split; [by left|]. intros [?|Hn]; [done|by apply elem_of_nil in Hn].
    - rewrite IH, dict_keys_set, elem_of_cons. simpl. tauto. }
  rewrite Hacc. split; [|by right].
  intros [Hn|?]; [by apply elem_of_nil in Hn|done].
Qed.

Lemma dict_values_set d k v (P : V → Prop) :
  Forall P (dict_values d) → P v → Forall P (dict_values (dict_set d k v)).
Proof.
  unfold dict_values. induction d as [|[k0 v0] d IH]; simpl; intros Hd Hv.
  - by repeat constructor.
  - apply Forall_cons in Hd as [Hv0 Hd].
    destruct (decide (k0 = k)); simpl; constructor; auto.
Qed.

Lemma dict_values_of_list (kvs : list (K * V)) (P : V → Prop) :
  Forall P kvs.*2 → Forall P (dict_values (dict_of_list kvs)).
Proof.
  unfold dict_of_list.
  assert (∀ acc : dict K V, Forall P (dict_values acc) → Forall P kvs.*2 →
            Forall P (dict_values
                        (fold_left (λ d kv, dict_set d kv.1 kv.2) kvs acc)))
    as Hacc.
  { induction kvs as [|[k0 v0] kvs IH]; intros acc Hacc Hkvs; [done|].
    simpl in *. apply Forall_cons in Hkvs as [Hv0 Hkvs].
    apply IH; [|done]. by apply dict_values_set. }
  apply Hacc. constructor.
Qed.
End dict_keys_facts.

(** ** Loops that keep an invariant, and loops that fail *)

Section loop_invariants.
Context {A S : Type}.
Implicit Types (f : S → A → result S) (l : list A) (Inv : S → Prop).

Lemma foldM_inv f Inv l s :
  Inv s →
  (∀ s a, a ∈ l → Inv s → ∃ s', f s a = Ok s' ∧ Inv s') →
  ∃ s', foldM f s l = Ok s' ∧ Inv s'.
Proof.
  revert s. induction l as [|a l IH]; intros s Hs Hf; [by exists s|].
  simpl. destruct (Hf s a) as (s' & -> & Hs'); [left|done|].
  simpl. apply IH; [done|]. intros s'' b Hb. apply Hf. by right.
Qed.

Lemma foldM_raise f Inv (bad : A → Prop) (ex : exn) l s :
  Inv s →
  (∀ s a, a ∈ l → Inv s →
     (bad a ∧ f s a = Raise ex) ∨ (¬ bad a ∧ ∃ s', f s a = Ok s' ∧ Inv s')) →
  (∃ a, a ∈ l ∧ bad a) →
  foldM f s l = Raise ex.
Proof.
  revert s. induction l as [|a l IH]; intros s Hs Hf (b & Hb & Hbad).
  { by apply elem_of_nil in Hb. }
  simpl. destruct (Hf s a) as [[_ ->]|(Hgood & s' & -> & Hs')];
    [left|done|done|].
  simpl. apply IH; [done| |].
  - intros s'' c Hc. apply Hf. by right.
  - exists b. split; [|done].
    apply elem_of_cons in Hb as [->|Hb]; done.
Qed.
End loop_invariants.

Section flats_containing_facts.
Context {E : Type} `{Countable E} `{PR : PolyRing} `{!Collaborators E}.
Implicit Types (M : Matroid E) (F G : gset E) (fl : list (gset E)).

(** One pass of the inner loop of [flats_containing_of]. *)
Lemma flats_containing_inner (E_ : list E) F (fc : dict E (list (gset E))) :
  (∀ k, k ∈ dict_keys fc ↔ k ∈ E_) →
  ((∃ e, e ∈ elements F ∧ (e ∉ E_))
   ∧ foldM (λ fc x, l ← dict_get fc x; Ok (dict_set fc x (l ++ [F])))
       fc (elements F) = Raise KeyError)
  ∨ (¬ (∃ e, e ∈ elements F ∧ (e ∉ E_))
     ∧ ∃ fc', foldM (λ fc x, l ← dict_get fc x; Ok (dict_set fc x (l ++ [F])))
                fc (elements F) = Ok fc'
              ∧ ∀ k, k ∈ dict_keys fc' ↔ k ∈ E_).
Proof.
  intros Hfc.
  assert (∀ (fc0 : dict E (list (gset E))) x,
            (∀ k, k ∈ dict_keys fc0 ↔ k ∈ E_) →
            ((x ∉ E_) ∧ (l ← dict_get fc0 x; Ok (dict_set fc0 x (l ++ [F])))
                      = Raise KeyError)
            ∨ (¬ (x ∉ E_)
               ∧ ∃ fc', (l ← dict_get fc0 x; Ok (dict_set fc0 x (l ++ [F])))
                        = Ok fc'
                        ∧ ∀ k, k ∈ dict_keys fc' ↔ k ∈ E_)) as Hstep.
  { intros fc0 x Hfc0. destruct (decide (x ∈ E_)) as [Hx|Hx].
    - right. split; [by intros ?|].
      destruct (dict_get_elem fc0 x) as [l ->]; [by apply Hfc0|].
      simpl. eexists. split; [done|]. intros k.
      rewrite dict_keys_set, Hfc0. split; [by intros [->|?]|by right].
    - left. split; [done|]. rewrite dict_get_not_elem; [done|].
      by rewrite Hfc0. }
  destruct (decide (Exists (λ e, e ∉ E_) (elements F))) as [Hbad|Hgood].
  - left. apply Exists_exists in Hbad. split; [done|].
    apply (foldM_raise _ (λ fc, ∀ k, k ∈ dict_keys fc ↔ k ∈ E_)
             (λ e, e ∉ E_)); [done| |done].
    intros fc0 x _ Hfc0. by apply Hstep.
  - right. rewrite Exists_exists in Hgood. split; [done|].
    apply (foldM_inv _ (λ fc, ∀ k, k ∈ dict_keys fc ↔ k ∈ E_)); [done|].
    intros fc0 x Hx Hfc0. destruct (Hstep fc0 x Hfc0) as [[Hn _]|[_ ?]]; [|done].
    destruct Hgood. by exists x.
Qed.

Lemma flats_containing_of_KeyError (E_ : list E) fl F e :
  F ∈ fl → e ∈ F → e ∉ E_ →
  flats_containing_of E_ fl = Raise KeyError.
Proof.
  intros HF He HeE. unfold flats_containing_of.
  apply (foldM_raise _ (λ fc, ∀ k, k ∈ dict_keys fc ↔ k ∈ E_)
           (λ F, ∃ e, e ∈ elements F ∧ (e ∉ E_))).
  - intros k. rewrite dict_keys_of_list, <-list_fmap_compose.
    by rewrite (list_fmap_ext _ id E_), list_fmap_id by done.
  - intros fc G _ Hfc. by apply flats_containing_inner.
  - exists F. split; [done|]. exists e. split; [|done]. by apply elem_of_elements.
Qed.
End flats_containing_facts.

Section gens_constructor_errors.
Context {E : Type} `{Countable E} `{PR : PolyRing} `{!Collaborators E}.
Implicit Types (M : Matroid E) (F G : gset E) (fl : list (gset E)).

(** X1. The loop that fills [flats_containing] in [_gens_constructor] of
    the two augmented ideals: when the groundset is listed without
    repetition and the flats are subsets of it, the dictionary has the
    groundset elements as keys, in order, and maps [e] to the flats that
    contain [e], in the order of the flats; so the test
    [F not in flats_containing[e]] holds exactly when [e] is not in [F]. *)
Theorem flats_containing_of_lookup (E_ : list E) fl :
  NoDup E_ → (∀ F e, F ∈ fl → e ∈ F → e ∈ E_) →
  ∃ fc, flats_containing_of E_ fl = Ok fc
    ∧ dict_keys fc = E_
    ∧ ∀ e, e ∈ E_ →
        dict_get fc e = Ok (filter (λ F, e ∈ F) fl)
        ∧ ∀ F, F ∈ fl → (F ∉ filter (λ F, e ∈ F) fl ↔ e ∉ F).
Proof.
  intros HE Hsub. rewrite flats_containing_of_tab by done.
  eexists. split; [done|]. split; [apply tab_keys|].
  intros e He.
  split; [by apply (dict_get_tab E_ (λ e, filter (λ F, e ∈ F) fl))|].
  intros F HF. rewrite list_elem_of_filter. tauto.
Qed.

(** X2. When some flat has an element that is not in the groundset,
    [_gens_constructor] of both augmented ideals raises [KeyError],
    whatever the dictionary of indeterminates is: the lookup
    [flats_containing[x]] fails before any generator is built. *)
Theorem augmented_gens_constructor_KeyError M fl
    (d : dict (E + gset E) poly) (d' : dict (gset E) poly)
    (S : MPolynomialRing) F e :
  F ∈ fl → e ∈ F → e ∉ groundset M →
  fy_gens_constructor M fl d S = Raise KeyError
  ∧ af_gens_constructor M fl d' S = Raise KeyError.
Proof.
  intros HF He HeE. unfold fy_gens_constructor, af_gens_constructor.
  by rewrite (flats_containing_of_KeyError (groundset M) fl F e).
Qed.

(** X3. [_gens_constructor] of [ChowRingIdeal_nonaug] never raises, for
    any matroid and any dictionary [_flats_generator]: every key it looks
    up is a key of the dictionary it is looked up in. *)
Theorem nonaug_gens_constructor_never_raises M (d : dict (gset E) poly)
    (S : MPolynomialRing) :
  ∃ gs, nonaug_gens_constructor M d S = Ok gs.
Proof.
  unfold nonaug_gens_constructor.
  rewrite antichains_depth2_reln, foldM_fmap.
  destruct (foldM_inv
              (λ I (ab : gset E * gset E),
                 term ← foldM (λ term el, x ← dict_get d el; Ok (term * x)%P)
                         one [ab.1; ab.2];
                 Ok (I ++ [term]))
              (λ _, True)
              (filter (λ ab, ab.1 ⊈ ab.2 ∧ ab.2 ⊈ ab.1) (pairs_of (dict_keys d)))
              []) as (I & -> & _); [done| |].
  { intros I [F G] [_ [HF HG]%pairs_of_elem]%list_elem_of_filter _.
    destruct (dict_get_elem d F HF) as [xF HxF].
    destruct (dict_get_elem d G HG) as [xG HxG].
    simpl. rewrite HxF. simpl. rewrite HxG. simpl. by eexists. }
  simpl.
  set (atoms := lattice_atoms M).
  destruct (foldM_inv
              (λ atoms_gen F,
                 foldM (λ atoms_gen a,
                     if decide (a ⊆ F) then
                       v ← dict_get atoms_gen a;
                       x ← dict_get d F;
                       Ok (dict_set atoms_gen a (v + x)%P)
                     else Ok atoms_gen)
                   atoms_gen atoms)
              (λ atoms_gen, ∀ a, a ∈ atoms → a ∈ dict_keys atoms_gen)
              (dict_keys d)
              (dict_of_list ((λ a, (a, zero)) <$> atoms)))
    as (atoms_gen & -> & _).
  - intros a Ha. rewrite dict_keys_of_list, <-list_fmap_compose.
    by rewrite (list_fmap_ext _ id atoms), list_fmap_id by done.
  - intros atoms_gen F HF Hinv. apply foldM_inv; [done|].
    intros ag a Ha Hag. destruct (decide (a ⊆ F)); [|by exists ag].
    destruct (dict_get_elem ag a (Hag a Ha)) as [v ->].
    destruct (dict_get_elem d F HF) as [x ->].
    simpl. eexists. split; [done|]. intros a' Ha'.
    apply dict_keys_set. right. by apply Hag.
  - simpl. by eexists.
Qed.
End gens_constructor_errors.

(** ** The constructors and the accessors *)

Section accessors.
Context {E : Type} `{Countable E} `{PR : PolyRing} `{!Collaborators E}.
Implicit Types (M : Matroid E) (F G : gset E) (fl : list (gset E)).

Lemma flats_in_groundset M `{!MatroidAxioms M} (a n : nat) F e :
  F ∈ flat_map (flats M) (seq a n) → e ∈ F → e ∈ groundset M.
Proof.
  intros [_ HF]%(flats_of_ranks_elem M). by apply (flats_subset (rank M F)).
Qed.

(** X4. For a matroid as the collaborator returns it, each of the three
    constructors succeeds; the ring has the canonical names when the ring
    constructor accepts them and the indexed names [A0, A1, ...]
    otherwise; [matroid()] returns the matroid the ideal was built from,
    and [flats_generator()] returns the dictionary that maps the
    enumerated keys, in order, to the indeterminates by position, the same
    in both naming cases. *)
Theorem init_names_and_accessors M `{!MatroidAxioms M} :
  let fl := nonempty_flats M in
  let names := flat_name "A" <$> fl in
  let E_ := groundset M in
  let names' := ((λ x, "A" +:+ str x) <$> E_) ++ (flat_name "B" <$> all_flats M) in
  (∃ I, nonaug_init M = Ok I
      ∧ variable_names (na_ring I)
        = (if certify_names names then names
           else (λ i, "A" +:+ pretty i) <$> seq 0 (length fl))
      ∧ matroid I = M
      ∧ flats_generator I = tab fl (x_ fl))
  ∧ (∃ I, af_init M = Ok I
        ∧ variable_names (af_ring I)
          = (if certify_names names then names
             else (λ i, "A" +:+ pretty i) <$> seq 0 (length fl))
        ∧ matroid I = M
        ∧ flats_generator I = tab fl (x_ fl))
  ∧ (∃ I, fy_init M = Ok I
        ∧ variable_names (fy_ring I)
          = (if certify_names names' then names'
             else (λ i, "A" +:+ pretty i)
                    <$> seq 0 (length E_ + length (all_flats M)))
        ∧ matroid I = M
        ∧ flats_generator I
          = tab ((inl <$> E_) ++ (inr <$> all_flats M))
              (fy_var E_ (all_flats M))).
Proof.
  intros fl names E_ names'.
  pose proof (nonempty_flats_NoDup M) as Hnd.
  pose proof (all_flats_NoDup M) as Hnd'.
  pose proof (@groundset_NoDup _ _ _ M _) as HE.
  destruct (ring_fallback names (length fl)) as (S & HS & Hn & Hnames).
  { unfold names. by rewrite length_fmap. }
  split; [|split].
  - unfold nonaug_init. fold (nonempty_flats M). fold fl names.
    rewrite HS. simpl. rewrite gens_zip_tab by done.
    rewrite nonaug_gens_constructor_tab by apply flats_NoDup.
    simpl. eexists. split; [done|]. split; [done|]. split; [done|].
    unfold flats_generator. simpl. by apply dict_of_list_tab.
  - unfold af_init. fold (nonempty_flats M). fold fl names.
    rewrite HS. simpl. rewrite gens_zip_tab by done.
    rewrite af_gens_constructor_pure;
      [|done|by apply flats_in_groundset].
    simpl. eexists. split; [done|]. split; [done|]. split; [done|].
    unfold flats_generator. simpl. by apply dict_of_list_tab.
  - rewrite fy_init_unfold by done.
    rewrite (fy_gens_constructor_tab M (all_flats M) _
               (x_from (length (groundset M)) (all_flats M))
               (y_ (groundset M)));
      [|done|by apply flats_in_groundset|apply fy_var_get..].
    simpl. eexists. split; [done|]. split; [done|]. split; [done|].
    unfold flats_generator. simpl. apply dict_of_list_tab.
    by apply fy_keys_NoDup.
Qed.

(** X5. On a matroid of rank 0 the constructors of [ChowRingIdeal_nonaug]
    and [AugmentedChowRingIdeal_atom_free] enumerate no flat: the ring has
    no indeterminate, the dictionary is empty, the generators of the
    non-augmented ideal are all zero, the atom-free ideal has no
    generator, and both closed-form bases are empty. *)
Theorem rank_0_ideals M (args : extra_args) :
  full_rank M = 0 →
  (∃ I, nonaug_init M = Ok I
      ∧ na_flats_generator I = []
      ∧ ngens (na_ring I) = 0
      ∧ Forall (λ p, p = zero) (na_gens I)
      ∧ nonaug_groebner_basis I "" args = Ok [])
  ∧ (∃ I, af_init M = Ok I
        ∧ af_flats_generator I = []
        ∧ ngens (af_ring I) = 0
        ∧ af_gens I = []
        ∧ af_groebner_basis I "" args = Ok []).
Proof.
  intros Hr.
  destruct (ring_fallback (flat_name "A" <$> @nil (gset E)) 0)
    as (S & HS & Hn & _); [done|].
  split.
  - unfold nonaug_init. rewrite Hr. simpl flat_map. simpl length.
    rewrite HS. simpl.
    unfold nonaug_gens_constructor. simpl.
    eexists. split; [done|]. simpl. repeat split; [done|].
    apply dict_values_of_list. rewrite <-list_fmap_compose.
    by apply Forall_fmap, Forall_true.
  - unfold af_init. rewrite Hr. simpl flat_map. simpl length.
    rewrite HS. simpl.
    unfold af_gens_constructor, flats_containing_of. simpl.
    eexists. split; [done|]. simpl. by repeat split.
Qed.
End accessors.

(** ** The order of the flats in the non-augmented basis *)


Section nonaug_basis_facts.
Context {E : Type} `{Countable E} `{PR : PolyRing} `{!Collaborators E}.
Implicit Types (M : Matroid E) (F G : gset E) (fl : list (gset E)).


(** X7. In a ring where [p * 1 = p] and [p ^ 0 = 1], the closed-form
    basis of [ChowRingIdeal_nonaug] contains the indeterminate [x_F] of
    every enumerated flat [F]: the loop over the order ideal of [F] takes
    [G = F], where the exponent [rank(F) - rank(G)] is 0. *)
Theorem nonaug_groebner_basis_indeterminates `{!PolyRingUnitLaws PR} M I
    (algorithm : string) (args : extra_args) :
  NoDup (nonempty_flats M) → nonaug_init M = Ok I →
  algorithm = "" ∨ algorithm = "constructed" →
  ∃ gb, nonaug_groebner_basis I algorithm args = Ok gb
        ∧ ∀ F, F ∈ nonempty_flats M → x_ (nonempty_flats M) F ∈ gb.
Proof.
  intros Hfl HI Halg.
  rewrite (nonaug_groebner_basis_list M I) by done.
  eexists. split; [done|]. intros F HF.
  apply elem_of_app. right. apply list_elem_of_bind. exists F.
  assert (F ∈ sorted size (nonempty_flats M)) as HF'
    by (by rewrite sorted_perm).
  split; [|done]. apply list_elem_of_fmap. exists F.
  split; [|by apply list_elem_of_filter].
  by rewrite Z.sub_diag, pow_0, mul_1_r.
Qed.
End nonaug_basis_facts.

(** ** The non-augmented basis on the example of the docstring *)

Open Scope Z_scope.

Lemma zmul_1_r (p : zpoly) : zmul p zone = p.
Proof.
  unfold zmul, zone. rewrite zterms_singleton. simpl.
  apply zpoly_eq. intros m.
  rewrite (coef_foldr_add_term (λ mc, mc.1 ⊎ ∅) (λ mc, mc.2 * 1)).
  rewrite coef_empty, (list_fmap_ext _ id).
  - by rewrite list_fmap_id, coef_in_zterms.
  - intros _ [m' c] _. simpl. f_equal; [apply (right_id_L ∅ (⊎))|lia].
Qed.

#[global] Instance ZPoly_unit_laws : PolyRingUnitLaws ZPoly.
Proof. split; [apply zmul_1_r|done]. Qed.

(** A combination of polynomials whose values at a point are multiples of
    [n] has a multiple of [n] as its value there. *)
Lemma zeval_lincomb_divide ρ (n : Z) (cs gs : list zpoly) :
  Forall (λ g, (n | zeval ρ g)) gs → (n | zeval ρ (lincomb cs gs)).
Proof.
  intros Hgs. unfold lincomb, psum. simpl.
  assert (∀ acc, (n | zeval ρ acc) →
            (n | zeval ρ (fold_left zadd (zip_with zmul cs gs) acc))) as Hacc.
  { revert cs. induction Hgs as [|g gs Hg _ IH]; intros cs acc Hz.
    - by destruct cs.
    - destruct cs as [|c cs]; [done|]. simpl. apply IH.
      rewrite zeval_zadd, zeval_zmul.
      apply Z.divide_add_r; [done|]. by apply Z.divide_mul_r. }
  apply Hacc. rewrite zeval_empty. apply Z.divide_0_r.
Qed.

Close Scope Z_scope.

(** X8. There is a matroid for which the closed-form basis of
    [ChowRingIdeal_nonaug] does not generate the ideal: over the integers,
    for [Matroid(groundset='abc', bases=['ab', 'ac'])], the basis is the
    list of the docstring, it contains [x_a], and [x_a] is not a
    combination of the generators [x_a * x_bc], [x_a + x_abc] and
    [x_bc + x_abc]: at the point [(2, 2, -2)] the generators are multiples
    of 4 and [x_a] is 2. *)
Theorem nonaug_basis_generates_another_ideal :
  let x0 := zgen 0 in
  let x1 := zgen 1 in
  let x2 := zgen 2 in
  ∃ I gb, nonaug_init M_abc = Ok I
    ∧ nonaug_groebner_basis I "" tt = Ok gb
    ∧ na_gens I = [x0 * x1; x0 + x2; x1 + x2]%P
    ∧ gb = [x0 * x1; x0; x1; x0 * x2; x1 * x2; x2]%P
    ∧ in_ideal gb x0
    ∧ ¬ in_ideal (na_gens I) x0.
Proof.
  intros x0 x1 x2.
  assert (NoDup (nonempty_flats M_abc)) as Hfl by by_compute.
  assert (NoDup (lattice_atoms M_abc)) as Hat by by_compute.
  destruct (nonaug_init_total M_abc Hfl Hat) as [I0 HI].
  destruct (nonaug_init_inv M_abc I0 Hfl HI) as (_ & Hfg & _ & Hgs).
  exists I0. eexists. split; [done|].
  split.
  { rewrite (nonaug_groebner_basis_list M_abc I0 "" _ Hfl HI) by (by left).
    reflexivity. }
  rewrite Hfg, nonaug_gens_constructor_tab in Hgs by done.
  match type of Hgs with
  | Ok ?l = _ =>
      pose (gs := l); assert (na_gens I0 = gs) as -> by (unfold gs; congruence)
  end.
  assert (gs = [x0 * x1; x0 + x2; x1 + x2]%P) as Hgs_eq
    by (unfold gs; by_compute).
  split; [done|]. split; [by_compute|].
  split.
  - apply in_ideal_elem. by_compute.
  - intros (cs & _ & Hx0).
    pose (ρ := λ i : nat, if decide (i = 2) then (-2)%Z else 2%Z).
    apply (f_equal (zeval ρ)) in Hx0.
    pose proof (zeval_lincomb_divide ρ 4 cs gs) as Hdiv.
    rewrite <-Hx0 in Hdiv. unfold x0 in Hdiv.
    rewrite zeval_zgen in Hdiv.
    assert ((4 | ρ 0%nat)%Z) as [k Hk]; [|unfold ρ in Hk; simpl in Hk; lia].
    apply Hdiv. rewrite Hgs_eq. unfold x0, x1, x2. cbn [mul add ZPoly].
    apply Forall_cons_2;
      [|apply Forall_cons_2; [|apply Forall_cons_2; [|apply Forall_nil_2]]];
      rewrite ?zeval_zmul, ?zeval_zadd, !zeval_zgen; unfold ρ; simpl.
    + by exists 1%Z.
    + by exists 0%Z.
    + by exists 0%Z.
Qed.

(** ** The sizes of the augmented bases *)

(** *** Counting *)

Lemma bind_length {A B} (f : A → list B) (l : list A) :
  length (l ≫= f) = sum_list ((λ a, length (f a)) <$> l).
Proof.
  induction l as [|a l IH]; [done|].
  rewrite bind_cons, length_app, IH. done.
Qed.

Lemma sum_list_fmap_ext {A} (f g : A → nat) (l : list A) :
  (∀ a, a ∈ l → f a = g a) → sum_list (f <$> l) = sum_list (g <$> l).
Proof.
  intros Hfg. f_equal. apply list_fmap_ext. intros i a Ha.
  apply Hfg. by eapply list_elem_of_lookup_2.
Qed.

Lemma sum_list_indicators {A} (P Q : A → Prop) `{!∀ a, Decision (P a)}
    `{!∀ a, Decision (Q a)} (c k : nat) (l : list A) :
  sum_list ((λ a, (if decide (P a) then 1 else 0)
                  + c * (k + (if decide (Q a) then 1 else 0))) <$> l)
  = length (filter P l) + c * (k * length l + length (filter Q l)).
Proof.
  induction l as [|a l IH]; [simpl; lia|].
  rewrite fmap_cons, !filter_cons. simpl sum_list. rewrite IH.
  destruct (decide (P a)), (decide (Q a)); simpl; lia.
Qed.

Lemma sum_list_affine {A} (f g : A → nat) (c k : nat) (l : list A) :
  sum_list ((λ a, f a + c * (k + g a)) <$> l)
  = sum_list (f <$> l) + c * (length l * k + sum_list (g <$> l)).
Proof.
  induction l as [|a l IH]; [simpl; lia|].
  rewrite !fmap_cons. simpl. rewrite IH. lia.
Qed.

Lemma sum_list_fmap_const {A} (c : nat) (l : list A) :
  sum_list ((λ _, c) <$> l) = length l * c.
Proof.
  induction l as [|a l IH]; [done|]. rewrite fmap_cons. simpl. rewrite IH. lia.
Qed.

Lemma sum_list_fmap_add {A} (f g : A → nat) (l : list A) :
  sum_list ((λ a, f a + g a) <$> l) = sum_list (f <$> l) + sum_list (g <$> l).
Proof.
  induction l as [|a l IH]; [done|]. rewrite !fmap_cons. simpl. rewrite IH. lia.
Qed.

Lemma length_filter_or {A} (P Q : A → Prop) `{!∀ a, Decision (P a)}
    `{!∀ a, Decision (Q a)} (l : list A) :
  (∀ a, P a → ¬ Q a) →
  length (filter (λ a, P a ∨ Q a) l)
  = length (filter P l) + length (filter Q l).
Proof.
  intros HPQ. induction l as [|a l IH]; [done|].
  rewrite !filter_cons.
  destruct (decide (P a)) as [HP|HP], (decide (Q a)) as [HQ|HQ].
  - by destruct (HPQ a).
  - rewrite decide_True by (by left). simpl. rewrite IH. lia.
  - rewrite decide_True by (by right). simpl. rewrite IH. lia.
  - rewrite decide_False by (by intros [?|?]). exact IH.
Qed.

(** *** Sums of distinct indeterminates are not zero *)

Section nonzero_sums.
Context {E : Type} `{Countable E} `{PR : PolyRing}.
Context `{!PolyRingLaws PR} `{!PolyRingEval PR}.
Implicit Types (F G : gset E) (fl l : list (gset E)).

Lemma eval01_sum_x_from (n : nat) fl T l (acc : poly) :
  let v := λ i, bool_decide (i = n + index_of T fl) in
  NoDup fl → T ∈ fl → NoDup l → (∀ F, F ∈ l → F ∈ fl) →
  eval01 v (fold_left add (x_from n fl <$> l) acc)
  = if decide (T ∈ l) then (eval01 v acc + one)%P else eval01 v acc.
Proof.
  intros v Hfl HT Hl. revert acc.
  induction Hl as [|F l HF Hl IH]; intros acc Hsub; [done|].
  simpl. rewrite IH by (intros; apply Hsub; by right).
  rewrite eval01_add. unfold x_from. rewrite eval01_gen. unfold v.
  destruct (decide (F = T)) as [->|Hne].
  - rewrite bool_decide_eq_true_2 by done.
    rewrite (decide_False (P := T ∈ l)) by done.
    rewrite decide_True; [done|left].
  - rewrite bool_decide_eq_false_2.
    2:{ intros Heq. apply Hne, (index_of_inj _ _ fl); [|done|lia].
        apply Hsub. left. }
    rewrite add_0_r. destruct (decide (T ∈ l)) as [Hin|Hin].
    + rewrite decide_True; [done|by right].
    + rewrite decide_False; [done|].
      by intros [?|?]%elem_of_cons.
Qed.

Lemma psum_x_from_nonzero (n : nat) fl l :
  (one : poly) ≠ zero → NoDup fl → NoDup l → (∀ F, F ∈ l → F ∈ fl) →
  psum (x_from n fl <$> l) ≠ zero ↔ l ≠ [].
Proof.
  intros Hone Hfl Hl Hsub. split.
  - intros Hne ->. by apply Hne.
  - intros Hne Hz. destruct l as [|T l']; [done|].
    apply (f_equal (eval01 (λ i, bool_decide (i = n + index_of T fl)))) in Hz.
    unfold psum in Hz. rewrite eval01_sum_x_from in Hz; [|done| |done..].
    2:{ apply Hsub. left. }
    rewrite decide_True, eval01_zero, add_0_l in Hz by left. done.
Qed.
End nonzero_sums.

Section basis_lengths.
Context {E : Type} `{Countable E} `{PR : PolyRing} `{!Collaborators E}.
Context `{!PolyRingLaws PR} `{!PolyRingEval PR}.
Implicit Types (M : Matroid E) (F G : gset E) (fl : list (gset E)).

(** X9. For a matroid as the collaborator returns it and a ring in which
    1 is not 0, the closed-form basis of [AugmentedChowRingIdeal_fy] has
    [a + n * (2 * k * k + b)] polynomials, where [n] is the number of
    groundset elements, [k] the number of flats, [a] the number of ordered
    pairs of incomparable flats and [b] the number of pairs of flats
    [F < G]: the polynomials that depend on one element or on one flat are
    appended once for every pair of flats and every element. *)
Theorem fy_groebner_basis_length M `{!MatroidAxioms M} I
    (algorithm : string) (args : extra_args) :
  (one : poly) ≠ zero → fy_init M = Ok I →
  algorithm = "" ∨ algorithm = "constructed" →
  ∃ gb, fy_groebner_basis I algorithm args = Ok gb
    ∧ length gb
      = count_pairs (λ F G, F ⊈ G ∧ G ⊈ F) (all_flats M)
        + length (groundset M)
          * (2 * (length (all_flats M) * length (all_flats M))
             + count_pairs (λ F G, F ⊂ G) (all_flats M)).
Proof.
  intros Hone HI Halg.
  pose proof (all_flats_NoDup M) as Hfl.
  pose proof (@groundset_NoDup _ _ _ M _) as HE.
  destruct (fy_init_inv M I HE Hfl HI) as (HM & Hflats & Hfg & _).
  destruct (fy_var_get (groundset M) (all_flats M)) as [Hx Hy].
  assert (fy_groebner_basis I algorithm = fy_groebner_basis I "constructed")
    as -> by (by destruct Halg as [-> | ->]).
  pose proof (fy_basis_list M I (x_from (length (groundset M)) (all_flats M))
                (y_ (groundset M)) HM) as Hlist.
  rewrite Hflats, Hfg in Hlist. rewrite (Hlist Hx Hy).
  eexists. split; [done|]. unfold count_pairs.
  set (fl := all_flats M) in *. set (x := x_from _ fl). set (y := y_ _).
  assert (list_to_set (groundset M) ∈ fl) as Htop.
  { apply (flats_of_ranks_elem M).
    pose proof (@groundset_flat _ _ _ M _) as Ht.
    rewrite (flats_rank _ _ Ht). split; [lia|done]. }
  assert (∀ i, i ∈ groundset M → sum_containing x fl i ≠ zero) as HS.
  { intros i Hi. apply psum_x_from_nonzero; [done|done| | |].
    - by apply NoDup_filter.
    - by intros F [_ ?]%list_elem_of_filter.
    - intros Hnil.
      assert (list_to_set (groundset M) ∈ filter (λ H, i ∈ H) fl) as Hin.
      { apply list_elem_of_filter. split; [|done]. by apply groundset_in_top. }
      rewrite Hnil in Hin. by apply elem_of_nil in Hin. }
  assert (∀ G, G ∈ fl → sum_above x fl G ≠ zero) as HT.
  { intros G HG. apply psum_x_from_nonzero; [done|done| | |].
    - by apply NoDup_filter.
    - by intros F [_ ?]%list_elem_of_filter.
    - intros Hnil.
      assert (G ∈ filter (λ H, G ⊆ H) fl) as Hin
        by (by apply list_elem_of_filter).
      rewrite Hnil in Hin. by apply elem_of_nil in Hin. }
  rewrite bind_length.
  rewrite (sum_list_fmap_ext _
             (λ F, length (filter (λ G, F ⊈ G ∧ G ⊈ F) fl)
                   + length (groundset M)
                     * (2 * length fl + length (filter (λ G, F ⊂ G) fl)))).
  - rewrite (sum_list_affine
               (λ F, length (filter (λ G, F ⊈ G ∧ G ⊈ F) fl))
               (λ F, length (filter (λ G, F ⊂ G) fl))).
    replace (length fl * (2 * length fl)) with (2 * (length fl * length fl))
      by lia.
    done.
  - intros F HF. rewrite bind_length.
    rewrite <-(sum_list_indicators (λ G, F ⊈ G ∧ G ⊈ F) (λ G, F ⊂ G)).
    apply sum_list_fmap_ext. intros G HG.
    rewrite length_app, bind_length.
    rewrite (sum_list_fmap_ext _
               (λ _, 0 + 1 * (2 + (if decide (F ⊂ G) then 1 else 0)))).
    + rewrite (sum_list_affine (λ _, 0) (λ _, if decide (F ⊂ G) then 1 else 0)).
      rewrite !sum_list_fmap_const.
      destruct (decide (F ⊈ G ∧ G ⊈ F)), (decide (F ⊂ G)); simpl; lia.
    + intros i Hi. unfold fy_basis_step.
      rewrite (decide_True (P := sum_containing x fl i ≠ zero)) by auto.
      rewrite !(decide_True (P := sum_above x fl G ≠ zero)) by auto.
      destruct (decide (F ⊂ G)); simpl; lia.
Qed.

(** X10. In a ring in which 1 is not 0, the closed-form basis of
    [AugmentedChowRingIdeal_atom_free] has [k * k + a + c] polynomials,
    where [k] is the number of enumerated flats, [a] the number of ordered
    pairs of incomparable flats and [c] the number of pairs of flats
    [F < G] where some enumerated flat lies strictly below [F]: the
    polynomial [down(F) ^ rank(F) + 1] is appended once for every ordered
    pair of flats. *)
Theorem af_groebner_basis_length M I (algorithm : string)
    (args : extra_args) :
  (one : poly) ≠ zero → NoDup (nonempty_flats M) → af_init M = Ok I →
  algorithm = "" ∨ algorithm = "constructed" →
  ∃ gb, af_groebner_basis I algorithm args = Ok gb
    ∧ length gb
      = length (nonempty_flats M) * length (nonempty_flats M)
        + count_pairs (λ F G, F ⊈ G ∧ G ⊈ F) (nonempty_flats M)
        + count_pairs (λ F G, F ⊂ G ∧ Exists (λ H, H ⊂ F) (nonempty_flats M))
            (nonempty_flats M).
Proof.
  intros Hone Hfl HI Halg.
  destruct (af_init_inv M I Hfl HI) as (HM & Hflats & Hfg & _).
  assert (af_groebner_basis I algorithm = af_groebner_basis I "constructed")
    as -> by (by destruct Halg as [-> | ->]).
  rewrite (af_basis_list M I (x_ (nonempty_flats M)) HM).
  2:{ intros F HF. rewrite Hfg. apply dict_get_tab. by rewrite <-Hflats. }
  rewrite Hflats. eexists. split; [done|]. unfold count_pairs.
  set (fl := nonempty_flats M) in *. set (x := x_ fl).
  assert (∀ F, sum_strictly_below x fl F ≠ zero ↔ Exists (λ H, H ⊂ F) fl)
    as Hdown.
  { intros F. unfold sum_strictly_below, x, x_.
    rewrite psum_x_from_nonzero; [|done|done|by apply NoDup_filter|].
    2:{ by intros G [_ ?]%list_elem_of_filter. }
    rewrite Exists_exists. split.
    - intros Hne. destruct (filter _ fl) as [|H' l] eqn:Hf; [done|].
      assert (H' ∈ filter (λ H, H ⊂ F) fl) as Hin by (rewrite Hf; left).
      apply list_elem_of_filter in Hin as [? ?]. by exists H'.
    - intros (H' & Hin & Hsub) Hnil.
      assert (H' ∈ filter (λ H, H ⊂ F) fl) as Hin'
        by (by apply list_elem_of_filter).
      rewrite Hnil in Hin'. by apply elem_of_nil in Hin'. }
  rewrite bind_length.
  rewrite (sum_list_fmap_ext _
             (λ F, (length (filter (λ G, F ⊈ G ∧ G ⊈ F) fl)
                    + length (filter (λ G, F ⊂ G ∧ Exists (λ H, H ⊂ F) fl) fl))
                   + 1 * (length fl + 0))).
  - rewrite (sum_list_affine _ (λ _, 0)).
    rewrite sum_list_fmap_const, sum_list_fmap_add. lia.
  - intros F HF. rewrite bind_length.
    transitivity
      (sum_list ((λ G, (if decide ((F ⊈ G ∧ G ⊈ F)
                                   ∨ (F ⊂ G ∧ Exists (λ H, H ⊂ F) fl))
                        then 1 else 0)
                       + 1 * (1 + (if decide False then 1 else 0))) <$> fl)).
    + apply sum_list_fmap_ext. intros G HG. rewrite length_app. simpl.
      destruct (decide (F ⊈ G ∧ G ⊈ F)) as [Hinc|Hinc].
      { rewrite decide_True by (by left). simpl. lia. }
      destruct (decide (F ⊂ G)) as [Hsub|Hsub].
      * destruct (decide (sum_strictly_below x fl F ≠ zero)) as [Hn|Hn].
        -- rewrite decide_True; [simpl; lia|]. right. split; [done|].
           by apply Hdown.
        -- rewrite decide_False; [simpl; lia|].
           intros [?|[_ Hex]]; [done|]. by apply Hn, Hdown.
      * rewrite decide_False; [simpl; lia|]. by intros [?|[? _]].
    + rewrite (sum_list_indicators _ (λ _, False)).
      rewrite (filter_none (λ _, False)) by (by intros ? _ ?).
      simpl.
      rewrite (length_filter_or (λ G, F ⊈ G ∧ G ⊈ F)
                 (λ G, F ⊂ G ∧ Exists (λ H, H ⊂ F) fl)); [lia|].
      intros G [Hi _] [Hs _]. apply Hi, Hs.
Qed.
End basis_lengths.

(** ** The printed forms *)

Lemma list_ascii_of_string_app (s t : string) :
  String.list_ascii_of_string (s +:+ t)
  = String.list_ascii_of_string s ++ String.list_ascii_of_string t.
Proof. induction s as [|c s IH]; [done|]. simpl. by rewrite IH. Qed.

Lemma string_app_assoc (s t u : string) : (s +:+ t) +:+ u = s +:+ (t +:+ u).
Proof.
  induction s as [|c s IH]; [done|].
  change (String c ((s +:+ t) +:+ u) = String c (s +:+ (t +:+ u))).
  by rewrite IH.
Qed.

Lemma string_app_suffix_ne (s s' t t' : string) :
  String.length t = String.length t' → t ≠ t' → s +:+ t ≠ s' +:+ t'.
Proof.
  intros Hlen Hne Heq. apply Hne.
  apply (f_equal String.list_ascii_of_string) in Heq.
  rewrite !list_ascii_of_string_app in Heq.
  apply app_inj_2 in Heq as [_ Heq].
  - rewrite <-(String.string_of_list_ascii_of_string t),
            <-(String.string_of_list_ascii_of_string t').
    by rewrite Heq.
  - clear -Hlen. revert t' Hlen.
    induction t as [|c t IH]; intros [|c' t'] Hlen; simpl in *; try done.
    f_equal. apply IH. by injection Hlen.
Qed.

Section printing_facts.
Context {E : Type} `{Countable E} `{PR : PolyRing} `{!Rendering E}.

(** X11. [_repr_] tells the three presentations apart: whatever the
    matroid prints as, the three ideals are printed as three different
    strings. *)
Theorem repr_tells_presentations (I1 : ChowRingIdeal_nonaug)
    (I2 : AugmentedChowRingIdeal_fy) (I3 : AugmentedChowRingIdeal_atom_free) :
  nonaug_repr I1 ≠ fy_repr I2
  ∧ nonaug_repr I1 ≠ af_repr I3
  ∧ fy_repr I2 ≠ af_repr I3.
Proof.
  unfold nonaug_repr, fy_repr, af_repr.
  repeat split;
    try (intros Heq; apply (f_equal (String.get 0)) in Heq; by vm_compute in Heq).
  change (" of Feitchner-Yuzvinsky presentation")
    with (" of Feitchner-Yuzvinsk" +:+ "y presentation").
  change (" in the atom-free presentation")
    with (" in the atom-fre" +:+ "e presentation").
  rewrite <-!string_app_assoc.
  by apply string_app_suffix_ne.
Qed.

(** X12. [_latex_] tells the three presentations apart: whatever the
    LaTeX form of the matroid is, the three ideals have three different
    LaTeX forms. *)
Theorem latex_tells_presentations (I1 : ChowRingIdeal_nonaug)
    (I2 : AugmentedChowRingIdeal_fy) (I3 : AugmentedChowRingIdeal_atom_free) :
  nonaug_latex I1 ≠ fy_latex I2
  ∧ nonaug_latex I1 ≠ af_latex I3
  ∧ fy_latex I2 ≠ af_latex I3.
Proof.
  unfold nonaug_latex, fy_latex, af_latex.
  repeat split;
    intros Heq; apply (f_equal (String.get 3)) in Heq; by vm_compute in Heq.
Qed.
End printing_facts.

(** ** The copy that [flats_generator] returns *)

(** X13. [flats_generator()] returns a new dictionary object with the
    items of [_flats_generator]: assigning to a key of the returned
    dictionary does not change the dictionary of the ideal, and assigning
    to the dictionary of the ideal does not change a dictionary returned
    before. *)
Theorem flats_generator_returns_a_copy {K V} `{EqDecision K}
    (σ σ' : store K V) (a a' : nat) (d : dict K V) :
  σ !! a = Some d → flats_generator_at σ a = Some (a', σ') →
  a' ≠ a
  ∧ σ' !! a = Some d
  ∧ σ' !! a' = Some (dict_of_list d)
  ∧ (∀ k v, store_setitem σ' a' k v !! a = Some d)
  ∧ (∀ k v, store_setitem σ' a k v !! a' = Some (dict_of_list d)).
Proof.
  intros Ha. unfold flats_generator_at, store_new. rewrite Ha. simpl.
  intros [= <- <-]. pose proof (lookup_lt_Some _ _ _ Ha) as Hlt.
  assert (length σ ≠ a) as Hne by lia.
  split; [done|]. split; [by rewrite lookup_app_l|].
  assert ((σ ++ [dict_of_list d]) !! length σ = Some (dict_of_list d)) as Hnew.
  { by rewrite lookup_app_r, Nat.sub_diag by lia. }
  split; [done|]. unfold store_setitem. split; intros k v.
  - rewrite list_lookup_alter_ne by done. by rewrite lookup_app_l.
  - by rewrite list_lookup_alter_ne.
Qed.

(** ** The hypotheses of the further properties hold on examples *)

Lemma flats_containing_of_lookup_witness :
  NoDup (groundset M_abc)
  ∧ (∀ F e, F ∈ all_flats M_abc → e ∈ F → e ∈ groundset M_abc)
  ∧ ∃ fc, flats_containing_of (groundset M_abc) (all_flats M_abc) = Ok fc
      ∧ dict_keys fc = groundset M_abc
      ∧ ∀ e, e ∈ groundset M_abc →
          dict_get fc e = Ok (filter (λ F, e ∈ F) (all_flats M_abc))
          ∧ ∀ F, F ∈ all_flats M_abc →
              (F ∉ filter (λ F, e ∈ F) (all_flats M_abc) ↔ e ∉ F).
Proof.
  assert (NoDup (groundset M_abc)) as H1 by by_compute.
  split; [exact H1|]. split; [exact M_abc_flats_in_groundset|].
  exact (flats_containing_of_lookup (groundset M_abc) (all_flats M_abc) H1
           M_abc_flats_in_groundset).
Defined.

Lemma augmented_gens_constructor_KeyError_witness :
  ({[0]} : gset nat) ∈ [({[0]} : gset nat)] ∧ 0 ∈ ({[0]} : gset nat)
  ∧ (0 ∉ groundset M_empty)
  ∧ fy_gens_constructor M_empty [{[0]}] [] {| variable_names := [] |}
    = (Raise KeyError : result (list zpoly))
  ∧ af_gens_constructor M_empty [{[0]}] [] {| variable_names := [] |}
    = (Raise KeyError : result (list zpoly)).
Proof.
  assert (({[0]} : gset nat) ∈ [({[0]} : gset nat)]) as H1 by by_compute.
  assert (0 ∈ ({[0]} : gset nat)) as H2 by by_compute.
  assert (0 ∉ groundset M_empty) as H3 by by_compute.
  split; [exact H1|]. split; [exact H2|]. split; [exact H3|].
  exact (augmented_gens_constructor_KeyError M_empty [{[0]}] [] []
           {| variable_names := [] |} {[0]} 0 H1 H2 H3).
Defined.

Lemma init_names_and_accessors_witness :
  let fl := nonempty_flats M_abc in
  let names := flat_name "A" <$> fl in
  let E_ := groundset M_abc in
  let names' :=
    ((λ x, "A" +:+ str x) <$> E_) ++ (flat_name "B" <$> all_flats M_abc) in
  (∃ I, nonaug_init M_abc = Ok I
      ∧ variable_names (na_ring I)
        = (if certify_names names then names
           else (λ i, "A" +:+ pretty i) <$> seq 0 (length fl))
      ∧ matroid I = M_abc
      ∧ flats_generator I = tab fl (x_ fl))
  ∧ (∃ I, af_init M_abc = Ok I
        ∧ variable_names (af_ring I)
          = (if certify_names names then names
             else (λ i, "A" +:+ pretty i) <$> seq 0 (length fl))
        ∧ matroid I = M_abc
        ∧ flats_generator I = tab fl (x_ fl))
  ∧ (∃ I, fy_init M_abc = Ok I
        ∧ variable_names (fy_ring I)
          = (if certify_names names' then names'
             else (λ i, "A" +:+ pretty i)
                    <$> seq 0 (length E_ + length (all_flats M_abc)))
        ∧ matroid I = M_abc
        ∧ flats_generator I
          = tab ((inl <$> E_) ++ (inr <$> all_flats M_abc))
              (fy_var E_ (all_flats M_abc))).
Proof. exact (init_names_and_accessors M_abc). Defined.

Lemma rank_0_ideals_witness :
  full_rank M_loop = 0
  ∧ (∃ I, nonaug_init M_loop = Ok I
        ∧ na_flats_generator I = []
        ∧ ngens (na_ring I) = 0
        ∧ Forall (λ p, p = zero) (na_gens I)
        ∧ nonaug_groebner_basis I "" tt = Ok [])
  ∧ (∃ I, af_init M_loop = Ok I
        ∧ af_flats_generator I = []
        ∧ ngens (af_ring I) = 0
        ∧ af_gens I = []
        ∧ af_groebner_basis I "" tt = Ok []).
Proof.
  assert (full_rank M_loop = 0) as Hr by done.
  split; [exact Hr|]. exact (rank_0_ideals M_loop tt Hr).
Defined.


Lemma nonaug_groebner_basis_indeterminates_witness :
  NoDup (nonempty_flats M_abc)
  ∧ ∃ I, nonaug_init M_abc = Ok I
      ∧ ∃ gb, nonaug_groebner_basis I "" tt = Ok gb
          ∧ ∀ F, F ∈ nonempty_flats M_abc →
              x_ (nonempty_flats M_abc) F ∈ gb.
Proof.
  assert (NoDup (nonempty_flats M_abc)) as H1 by by_compute.
  assert (NoDup (lattice_atoms M_abc)) as H2 by by_compute.
  split; [exact H1|].
  destruct (nonaug_init_total M_abc H1 H2) as [I HI].
  exists I. split; [exact HI|].
  exact (nonaug_groebner_basis_indeterminates M_abc I "" tt H1 HI
           (or_introl eq_refl)).
Defined.

Lemma flats_generator_returns_a_copy_witness :
  let d : dict nat nat := [(1, 2)] in
  [d] !! 0 = Some d ∧ flats_generator_at [d] 0 = Some (1, [d; d])
  ∧ 1 ≠ 0
  ∧ [d; d] !! 0 = Some d
  ∧ [d; d] !! 1 = Some (dict_of_list d)
  ∧ (∀ k v, store_setitem [d; d] 1 k v !! 0 = Some d)
  ∧ (∀ k v, store_setitem [d; d] 0 k v !! 1 = Some (dict_of_list d)).
Proof.
  intros d.
  assert ([d] !! 0 = Some d) as H1 by done.
  assert (flats_generator_at [d] 0 = Some (1, [d; d])) as H2 by done.
  split; [exact H1|]. split; [exact H2|].
  exact (flats_generator_returns_a_copy [d] [d; d] 0 1 d H1 H2).
Defined.

Ltac uniform_2_axioms M Hrank :=
  split;
  [ by_compute
  | intros [|[|[|i]]]; simpl; by_compute || constructor
  | intros [|[|[|i]]] F HF; simpl in HF; list_cases HF; by vm_compute
  | intros i F e HF He;
    assert (Forall (λ e, e ∈ groundset M) (elements F)) as Hall
      by (destruct i as [|[|[|i]]]; simpl in HF; list_cases HF; by_compute);
    by apply (proj1 (Forall_forall _ _) Hall), elem_of_elements
  | intros [|[|[|i]]] [|[|[|j]]] F G HF HG Hsub; simpl in HF, HG;
    list_cases HF; list_cases HG; try lia;
    exfalso; revert Hsub; by_compute
  | rewrite Hrank; intros [|[|[|i]]] Hi; simpl; [done..|lia]
  | rewrite Hrank; by_compute ].

Lemma full_rank_uniform_2_3 : full_rank (uniform_2 3) = 2.
Proof. by vm_compute. Qed.

#[global] Instance uniform_2_3_axioms : MatroidAxioms (uniform_2 3).
Proof. uniform_2_axioms (uniform_2 3) full_rank_uniform_2_3. Qed.

Lemma full_rank_uniform_2_5 : full_rank (uniform_2 5) = 2.
Proof. by vm_compute. Qed.

#[global] Instance uniform_2_5_axioms : MatroidAxioms (uniform_2 5).
Proof. uniform_2_axioms (uniform_2 5) full_rank_uniform_2_5. Qed.

(** The count of the docstring of [groebner_basis] for [U(2, 5)]. *)
Lemma fy_groebner_basis_length_witness :
  (one : poly) ≠ zero
  ∧ ∃ I, fy_init (uniform_2 5) = Ok I
      ∧ ∃ gb, fy_groebner_basis I "" tt = Ok gb ∧ length gb = 565.
Proof.
  split; [exact zone_ne_zzero|].
  destruct (fy_init_total (uniform_2 5)) as [I HI].
  { by_compute. }
  { by_compute. }
  { intros F e. apply (flats_in_groundset (uniform_2 5)). }
  exists I. split; [exact HI|].
  destruct (fy_groebner_basis_length (uniform_2 5) I ""
              (tt : @extra_args nat _ _ ZPoly nat_collaborators)
              zone_ne_zzero HI (or_introl eq_refl)) as (gb & Hgb & Hlen).
  exists gb. split; [exact Hgb|]. rewrite Hlen. by_compute.
Defined.

(** The count of the docstring of [groebner_basis] for the cycle graph on
    3 vertices. *)
Lemma af_groebner_basis_length_witness :
  (one : poly) ≠ zero ∧ NoDup (nonempty_flats (uniform_2 3))
  ∧ ∃ I, af_init (uniform_2 3) = Ok I
      ∧ ∃ gb, af_groebner_basis I "" tt = Ok gb ∧ length gb = 22.
Proof.
  assert (NoDup (nonempty_flats (uniform_2 3))) as H1 by by_compute.
  split; [exact zone_ne_zzero|]. split; [exact H1|].
  destruct (af_init_total (uniform_2 3)) as [I HI].
  { by_compute. }
  { exact H1. }
  { intros F e. apply (flats_in_groundset (uniform_2 3)). }
  exists I. split; [exact HI|].
  destruct (af_groebner_basis_length (uniform_2 3) I ""
              (tt : @extra_args nat _ _ ZPoly nat_collaborators)
              zone_ne_zzero H1 HI (or_introl eq_refl)) as (gb & Hgb & Hlen).
  exists gb. split; [exact Hgb|]. rewrite Hlen. by_compute.
Defined.
